(** * Job-shop scheduling: a shallow embedding of the sequential and the
      thread-coordinated scheduler, and the properties of their schedules.

    Sources: [job_shop_sequential.c] and [job_shop_parallel.c].

    Conventions of the embedding.
    - A C [int] is a [Z].  The sums of the schedulers come twice: in [Z],
      which is what the source computes as long as no sum leaves the range of
      [int], and in [Module Int32] with the 32-bit wrap-around of the
      compiled programs written out ([wrap]).  The theorems over the sums of
      [Z] either carry a bound that keeps every sum an [int] or state what
      holds of the wrapped sums as well; the others are stated over
      [Int32], and the lemmas named [.._exact] say where the two agree.
    - A C array is a list read with [arr.[i]] and written with
      [arr.[i <- v]]; the used part of [problem.jobs] is a list of rows.  An
      access outside its bounds is undefined in C; the model reads a default
      and drops the write, and the theorems are about problems whose
      dimensions fit the arrays ([well_formed]).
    - A counting [for] loop is a left fold over [seqZ 0 n].
    - The unbounded [while (1)] of [find_available_time] takes fuel; the
      theorems show that the fuel handed to it always suffices.
    - The threads of an OpenMP parallel region run their critical section
      one after the other; a region is the list of the thread numbers of its
      team in the order in which they pass it.
    - The input file is the list of the integers that the [fscanf] calls
      find in it, each within the range of [int]; a conversion fails where
      the list ends.  File names are lists of characters.
    - Wall-clock measurements and the execution logs are diagnostic only and
      are left out. *)

From Stdlib Require Import ZArith Lia Bool List Ascii.
From stdpp Require Import base option list list_numbers.

Local Open Scope Z_scope.

(** ** Compile-time constants of the two sources *)

Definition MAX_JOBS : Z := 100.
Definition MAX_MACHINES : Z := 100.
Definition MAX_OPERATIONS : Z := 100.
Definition MAX_THREADS : Z := 32.
Definition INF : Z := 999999.

(** ** Data model *)

Module Op.
Record Operation : Type := mk {
  machine : Z;      (* the machine this operation must be processed on *)
  duration : Z;     (* the time required to complete this operation *)
  start_time : Z    (* the scheduled start time, -1 if not scheduled *)
}.
End Op.
Abbreviation Operation := Op.Operation.

#[global] Instance Operation_inhabited : Inhabited Operation :=
  populate (Op.mk 0 0 (-1)).

Record JobShopProblem : Type := mkProblem {
  num_jobs : Z;
  num_machines : Z;
  num_operations : Z;
  jobs : list (list Operation)
}.

(** Array read and write at an [int] index. *)
Definition aget {A} `{Inhabited A} (arr : list A) (i : Z) : A :=
  arr !!! Z.to_nat i.
Definition aset {A} (arr : list A) (i : Z) (v : A) : list A :=
  <[Z.to_nat i := v]> arr.

Notation "arr .[ i ]" := (aget arr i) (at level 1, left associativity, format "arr .[ i ]").
Notation "arr .[ i <- v ]" := (aset arr i v) (at level 1, left associativity, format "arr .[ i  <-  v ]").

(** [problem.jobs[job][op]] *)
Definition job_op (p : JobShopProblem) (job op : Z) : Operation :=
  (jobs p).[job].[op].

(** [problem.jobs[job][op].start_time = v] *)
Definition set_start_time (p : JobShopProblem) (job op v : Z) : JobShopProblem :=
  let o := job_op p job op in
  mkProblem (num_jobs p) (num_machines p) (num_operations p)
    ((jobs p).[job <- (jobs p).[job].[op <- Op.mk (Op.machine o) (Op.duration o) v]]).

(** The cells visited by [for job ... for op ...], in visiting order. *)
Definition cells (p : JobShopProblem) : list (Z * Z) :=
  job ← seqZ 0 (num_jobs p); (fun op => (job, op)) <$> seqZ 0 (num_operations p).

(** The problem file read by [read_input_file]: the two dimensions and, per
    job, the (machine, duration) pairs; every operation starts unscheduled. *)
Definition load (nj nm : Z) (rows : list (list (Z * Z))) : JobShopProblem :=
  mkProblem nj nm nm (map (map (fun md => Op.mk (fst md) (snd md) (-1))) rows).

(** ** [find_available_time] (identical in both sources) *)

(** The sums of this part are those of [Z]; [Int32.find_available_time]
    below is the function with the wrap-around of [int]. *)

(** The overlap test of the source: [start_time < op_end && end_time > op_start]. *)
Definition overlaps (start_time end_time op_start op_end : Z) : bool :=
  (start_time <? op_end) && (end_time >? op_start).

(** An operation counts as committed on [machine] when
    [start_time != -1 && machine == machine]. *)
Definition committed_on (machine : Z) (o : Operation) : bool :=
  negb (Op.start_time o =? -1) && (Op.machine o =? machine).

(** Body of the two nested [for] loops for one cell; the accumulator is
    ([can_schedule], [earliest_possible]). *)
Definition scan_cell (p : JobShopProblem) (machine start_time end_time : Z)
    (acc : bool * Z) (job op : Z) : bool * Z :=
  let '(can_schedule, earliest_possible) := acc in
  let o := job_op p job op in
  if committed_on machine o then
    let op_start := Op.start_time o in
    let op_end := op_start + Op.duration o in
    if overlaps start_time end_time op_start op_end then
      (false, if op_end >? earliest_possible then op_end else earliest_possible)
    else acc
  else acc.

Definition scan (p : JobShopProblem) (machine start_time end_time : Z) : bool * Z :=
  fold_left
    (fun acc job =>
       fold_left (fun acc op => scan_cell p machine start_time end_time acc job op)
                 (seqZ 0 (num_operations p)) acc)
    (seqZ 0 (num_jobs p)) (true, start_time).

(** The [while (1)] loop, one unit of fuel per pass. *)
Fixpoint find_loop (fuel : nat) (p : JobShopProblem)
    (machine duration start_time : Z) : option Z :=
  match fuel with
  | O => None
  | S fuel' =>
      let end_time := start_time + duration in
      let '(can_schedule, earliest_possible) := scan p machine start_time end_time in
      if can_schedule then Some start_time
      else find_loop fuel' p machine duration earliest_possible
  end.

Definition find_available_time (p : JobShopProblem)
    (machine duration earliest_start : Z) : option Z :=
  find_loop (S (length (cells p))) p machine duration earliest_start.

(** ** The written solution (parts of [write_output_file]) *)

(** The sequential source takes every operation into the makespan. *)
Definition makespan_all (p : JobShopProblem) : Z :=
  fold_left
    (fun makespan '(job, op) =>
       let end_time := Op.start_time (job_op p job op) + Op.duration (job_op p job op) in
       if end_time >? makespan then end_time else makespan)
    (cells p) 0.

(** The parallel source skips the operations still at -1. *)
Definition makespan_scheduled (p : JobShopProblem) : Z :=
  fold_left
    (fun makespan '(job, op) =>
       if negb (Op.start_time (job_op p job op) =? -1) then
         let end_time := Op.start_time (job_op p job op) + Op.duration (job_op p job op) in
         if end_time >? makespan then end_time else makespan
       else makespan)
    (cells p) 0.

(** The lines after the makespan: per job, the [start,duration] pairs. *)
Definition output_rows (p : JobShopProblem) : list (list (Z * Z)) :=
  (fun job =>
     (fun op => (Op.start_time (job_op p job op), Op.duration (job_op p job op)))
       <$> seqZ 0 (num_operations p))
    <$> seqZ 0 (num_jobs p).

(** [reset_problem], and the reset loop at the head of each repetition. *)
Definition reset_problem (p : JobShopProblem) : JobShopProblem :=
  fold_left (fun p '(job, op) => set_start_time p job op (-1)) (cells p) p.

(** ** The sequential scheduler ([job_shop_sequential.c]) *)

Module Sequential.

Record State : Type := mkState {
  problem : JobShopProblem;
  scheduled_ops : list Z;      (* operations scheduled per job *)
  earliest_starts : list Z;    (* earliest start of each job's next operation *)
  scheduled_count : Z
}.

Definition total_ops (p : JobShopProblem) : Z := num_jobs p * num_operations p.

Definition init (p : JobShopProblem) : State :=
  mkState p (replicate (Z.to_nat MAX_JOBS) 0) (replicate (Z.to_nat MAX_JOBS) 0) 0.

(** The selection scan; the result is ([earliest_job], [earliest_time]),
    [earliest_job = -1] when no job was taken. *)
Definition select_job (st : State) : Z * Z :=
  fold_left
    (fun '(earliest_job, earliest_time) job =>
       if (scheduled_ops st).[job] <? num_operations (problem st) then
         if (earliest_starts st).[job] <? earliest_time
         then (job, (earliest_starts st).[job])
         else (earliest_job, earliest_time)
       else (earliest_job, earliest_time))
    (seqZ 0 (num_jobs (problem st))) (-1, 999999).

(** The rest of the loop body once [earliest_job] is known. *)
Definition schedule_step (st : State) (earliest_job : Z) : option State :=
  let p := problem st in
  let op := (scheduled_ops st).[earliest_job] in
  let machine := Op.machine (job_op p earliest_job op) in
  let duration := Op.duration (job_op p earliest_job op) in
  let job_earliest_start := (earliest_starts st).[earliest_job] in
  start_time ← find_available_time p machine duration job_earliest_start;
  let p' := set_start_time p earliest_job op start_time in
  let scheduled_ops' := (scheduled_ops st).[earliest_job <- op + 1] in
  let earliest_starts' :=
    if scheduled_ops'.[earliest_job] <? num_operations p
    then (earliest_starts st).[earliest_job <- start_time + duration]
    else earliest_starts st in
  Some (mkState p' scheduled_ops' earliest_starts' (scheduled_count st + 1)).

(** [while (scheduled_count < total_ops)]: every pass that does not [break]
    raises [scheduled_count], so [total_ops] passes of fuel are enough. *)
Fixpoint schedule_loop (fuel : nat) (st : State) : option State :=
  if scheduled_count st <? total_ops (problem st) then
    match fuel with
    | O => None
    | S fuel' =>
        let earliest_job := fst (select_job st) in
        if earliest_job =? -1 then Some st          (* break *)
        else st' ← schedule_step st earliest_job; schedule_loop fuel' st'
    end
  else Some st.

Definition schedule_jobs_sequential (p : JobShopProblem) : option State :=
  schedule_loop (Z.to_nat (total_ops p)) (init p).

(** [main] after the input is read: ten repetitions of reset and schedule,
    then the output file (makespan, rows) from the state of the last one. *)
Definition num_repetitions : nat := 10.

Definition repetition (p : JobShopProblem) : option JobShopProblem :=
  problem <$> schedule_jobs_sequential (reset_problem p).

(** The content of the output file: the makespan, then the rows. *)
Definition write_output_file (p : JobShopProblem) : Z * list (list (Z * Z)) :=
  (makespan_all p, output_rows p).

Definition main (p : JobShopProblem) : option (Z * list (list (Z * Z))) :=
  p' ← Nat.iter num_repetitions (fun r => r ≫= repetition) (Some p);
  Some (write_output_file p').

End Sequential.

(** ** The thread-coordinated scheduler ([job_shop_parallel.c]) *)

Module Parallel.

Record State : Type := mkState {
  problem : JobShopProblem;
  scheduled_ops : list Z;
  earliest_starts : list Z;
  op_assigned : list (list Z);   (* owning thread of every operation *)
  assigned_count : Z;
  iteration_count : Z;
  thread_worked : list Z         (* 1 once the thread has scheduled something *)
}.

Definition total_ops (p : JobShopProblem) : Z := num_jobs p * num_operations p.
Definition max_iterations (p : JobShopProblem) : Z := total_ops p * 10.

(** [op_assigned[job][op] = thread] for every operation of [job]. *)
Definition assign_job (p : JobShopProblem) (assigned : list (list Z)) (job thread : Z)
    : list (list Z) :=
  fold_left (fun a op => a.[job <- a.[job].[op <- thread]])
            (seqZ 0 (num_operations p)) assigned.

(** State before the main loop.  [op_assigned] is not initialised by the
    source; its cells are taken as 0 until the assignment loop writes them
    (no cell is read before it is written). *)
Definition init (num_threads : Z) (p : JobShopProblem) : State :=
  let op_assigned0 :=
    replicate (Z.to_nat MAX_JOBS) (replicate (Z.to_nat MAX_OPERATIONS) 0) in
  mkState p
    (replicate (Z.to_nat MAX_JOBS) 0)
    (replicate (Z.to_nat MAX_JOBS) 0)
    (fold_left (fun a job => let thread := Z.rem job num_threads in assign_job p a job thread)
               (seqZ 0 (num_jobs p)) op_assigned0)
    0 0
    (replicate (Z.to_nat MAX_THREADS) 0).

(** Find a slot for operation [op] of [job] and commit it: the block that
    the critical section and the fallback share word for word. *)
Definition schedule_operation (st : State) (job op : Z) : option State :=
  let p := problem st in
  let machine := Op.machine (job_op p job op) in
  let duration := Op.duration (job_op p job op) in
  let job_earliest_start := (earliest_starts st).[job] in
  start_time ← find_available_time p machine duration job_earliest_start;
  Some (mkState (set_start_time p job op start_time)
          ((scheduled_ops st).[job <- (scheduled_ops st).[job] + 1])
          ((earliest_starts st).[job <- start_time + duration])
          (op_assigned st)
          (assigned_count st + 1)
          (iteration_count st)
          (thread_worked st)).

(** The critical section of one thread: the accumulator is the state,
    [thread_scheduled] and the thread's share of [scheduled_this_iteration]. *)
Definition critical_section (thread_id : Z) (st : State) : option (State * Z * Z) :=
  fold_left
    (fun acc job =>
       '(st, thread_scheduled, scheduled_this_iteration) ← acc;
       if (op_assigned st).[job].[0] =? thread_id then
         let op := (scheduled_ops st).[job] in
         if op <? num_operations (problem st) then
           st' ← schedule_operation st job op;
           Some (st', 1, scheduled_this_iteration + 1)
         else Some (st, thread_scheduled, scheduled_this_iteration)
       else Some (st, thread_scheduled, scheduled_this_iteration))
    (seqZ 0 (num_jobs (problem st))) (Some (st, 0, 0)).

(** One parallel region.  [team] lists the thread numbers of the team in the
    order in which they pass the critical section; the reduction adds up the
    threads' counts. *)
Definition parallel_region (team : list Z) (st : State) : option (State * Z) :=
  fold_left
    (fun acc thread_id =>
       '(st, scheduled_this_iteration) ← acc;
       '(st', thread_scheduled, n) ← critical_section thread_id st;
       let worked :=
         if thread_scheduled =? 0 then thread_worked st'
         else (thread_worked st').[thread_id <- 1] in
       Some (mkState (problem st') (scheduled_ops st') (earliest_starts st')
               (op_assigned st') (assigned_count st') (iteration_count st') worked,
             scheduled_this_iteration + n))
    team (Some (st, 0)).

(** [for t ... if (thread_worked[t] == 0) { ...; break; }]: the first idle
    thread, if any. *)
Definition find_idle (num_threads : Z) (worked : list Z) : option Z :=
  List.find (fun t => worked.[t] =? 0) (seqZ 0 num_threads).

(** The redistribution pass after a round without progress; the result
    carries [all_jobs_assigned]. *)
Definition redistribute (num_threads : Z) (st : State) : State * Z :=
  fold_left
    (fun '(st, all_jobs_assigned) job =>
       if (scheduled_ops st).[job] <? num_operations (problem st) then
         match find_idle num_threads (thread_worked st) with
         | Some t =>
             (mkState (problem st) (scheduled_ops st) (earliest_starts st)
                (assign_job (problem st) (op_assigned st) job t)
                (assigned_count st) (iteration_count st) (thread_worked st), 0)
         | None => (st, all_jobs_assigned)
         end
       else (st, all_jobs_assigned))
    (seqZ 0 (num_jobs (problem st))) (st, 1).

(** The single-threaded fallback: jobs in order, and for each job
    [for (op = scheduled_ops[job]; op < num_operations; op++)]. *)
Definition fallback (st : State) : option State :=
  fold_left
    (fun acc job =>
       st ← acc;
       fold_left (fun acc op => st ← acc; schedule_operation st job op)
                 (seqZ (scheduled_ops st).[job]
                       (num_operations (problem st) - (scheduled_ops st).[job]))
                 (Some st))
    (seqZ 0 (num_jobs (problem st))) (Some st).

Definition next_iteration (st : State) : State :=
  mkState (problem st) (scheduled_ops st) (earliest_starts st) (op_assigned st)
    (assigned_count st) (iteration_count st + 1) (thread_worked st).

(** The main loop.  [teams i] is the team of the parallel region of
    iteration [i]; the second component of the result tells whether the
    deadlock warning was printed.  The loop is bounded by [max_iterations],
    which is the fuel. *)
Fixpoint coordinate (fuel : nat) (teams : Z -> list Z) (num_threads : Z) (st : State)
    : option (State * bool) :=
  if (assigned_count st <? total_ops (problem st))
     && (iteration_count st <? max_iterations (problem st)) then
    match fuel with
    | O => None
    | S fuel' =>
        let st := next_iteration st in
        '(st, scheduled_this_iteration) ← parallel_region (teams (iteration_count st)) st;
        if scheduled_this_iteration =? 0 then
          let '(st, all_jobs_assigned) := redistribute num_threads st in
          if all_jobs_assigned =? 0 then coordinate fuel' teams num_threads st
          else st' ← fallback st; Some (st', true)      (* warning, fallback, break *)
        else coordinate fuel' teams num_threads st
    end
  else Some (st, false).

Record Result : Type := mkResult {
  final : State;
  deadlock_warning : bool;
  status : Z            (* 1 if all operations were scheduled, else 0 *)
}.

Definition schedule_with_strict_division (teams : Z -> list Z) (num_threads : Z)
    (p : JobShopProblem) : option Result :=
  '(st, warning) ← coordinate (Z.to_nat (max_iterations p)) teams num_threads
                     (init num_threads p);
  Some (mkResult st warning
          (if assigned_count st =? total_ops (problem st) then 1 else 0)).

(** The clamping of the thread count in [main]. *)
Definition effective_num_threads (num_threads total_ops : Z) : Z :=
  let e := num_threads in
  let e := if e >? total_ops then total_ops else e in
  let e := if (e >? 8) && (total_ops <? 100) then 8 else e in
  if e <? 1 then 1 else e.

Inductive Outcome : Type :=
  | Exit (code : Z)                                    (* stopped before scheduling *)
  | Written (makespan : Z) (rows : list (list (Z * Z))). (* output file written *)

Definition num_repetitions : nat := 10.

(** The content of the output file: the makespan, then the rows. *)
Definition write_output_file (p : JobShopProblem) : Outcome :=
  Written (makespan_scheduled p) (output_rows p).

(** One repetition of [main]: reset, schedule, and drop the status. *)
Definition repetition (teams : Z -> list Z) (num_threads : Z) (p : JobShopProblem)
    : option JobShopProblem :=
  (problem ∘ final) <$> schedule_with_strict_division teams num_threads (reset_problem p).

(** [main] once the problem is read: [teams r] are the teams of repetition [r]. *)
Definition main (teams : nat -> Z -> list Z) (num_threads : Z) (p : JobShopProblem)
    : option Outcome :=
  if num_threads <=? 0 then Some (Exit 1)
  else if num_threads >? MAX_THREADS then Some (Exit 1)
  else
    let effective := effective_num_threads num_threads (total_ops p) in
    p' ← fold_left (fun acc r => q ← acc; repetition (teams r) effective q)
                   (seq 0 num_repetitions) (Some p);
    Some (write_output_file p').

(** A team in which each of the [num_threads] threads runs once. *)
Definition full_team (num_threads : Z) (team : list Z) : Prop :=
  team ≡ₚ seqZ 0 num_threads.

End Parallel.

(** The instance of the end-to-end example: 2 jobs, 2 machines. *)
Definition example_problem : JobShopProblem :=
  load 2 2 [[(0, 3); (1, 2)]; [(1, 2); (0, 4)]].

(** A valid problem whose first operation ends at the sentinel 999999. *)
Definition sentinel_problem : JobShopProblem :=
  load 1 2 [[(0, 999999); (1, 1)]].

(** ** [read_input_file] and the programs from the input file on *)

(** The input file is taken as the [fscanf] calls see it: the integers it
    holds, in order, up to its end or to the first text that is not an
    integer.  Opening the file is taken to succeed. *)

(** [fscanf(file, "%d %d", &a, &b)]: the value of the call (the number of
    conversions; -1 is [EOF], and a call stopped by text that is not an
    integer, which returns 0, is not told apart from it as the sources only
    compare with 2), the values of [a] and [b] after the call, and the rest
    of the file.  A variable that is not converted keeps its value.  The
    value stored is the integer of the file: the model stands for the
    source where the integers that are read are within the range of [int]. *)
Definition fscanf_int_int (tokens : list Z) (a b : Z) : Z * Z * Z * list Z :=
  match tokens with
  | x :: y :: rest => (2, x, y, rest)
  | [x] => (1, x, b, [])
  | [] => (-1, a, b, [])
  end.

(** [problem.jobs[job][op] = o] *)
Definition set_op (p : JobShopProblem) (job op : Z) (o : Operation) : JobShopProblem :=
  mkProblem (num_jobs p) (num_machines p) (num_operations p)
    ((jobs p).[job <- (jobs p).[job].[op <- o]]).

(** The part of the static table that a problem of [nj] jobs with [nops]
    operations uses, holding [mem job op] in its cells. *)
Definition table_of (nj nops : Z) (mem : Z -> Z -> Operation) : list (list Operation) :=
  (fun job => (fun op => mem job op) <$> seqZ 0 nops) <$> seqZ 0 nj.

Module ParallelFile.

(** The body of the two reading loops for one operation; [None] is the
    [return 0]. *)
Definition read_operation (acc : option (JobShopProblem * list Z)) (job op : Z)
    : option (JobShopProblem * list Z) :=
  '(problem, tokens) ← acc;
  let o := job_op problem job op in
  let '(n, machine, duration, tokens) :=
    fscanf_int_int tokens (Op.machine o) (Op.duration o) in
  if negb (n =? 2) then None
  else if (machine <? 0) || (machine >=? num_machines problem) then None
  else Some (set_op problem job op (Op.mk machine duration (-1)), tokens).

(** [read_input_file] of [job_shop_parallel.c]; [None] is the return value
    0.  The global [problem] is zero-initialised, and the value of the first
    [fscanf] is not looked at. *)
Definition read_input_file (tokens : list Z) : option JobShopProblem :=
  let '(_, nj, nm, tokens) := fscanf_int_int tokens 0 0 in
  let problem := mkProblem nj nm nm (table_of nj nm (fun _ _ => Op.mk 0 0 0)) in
  if (num_jobs problem >? MAX_JOBS) || (num_machines problem >? MAX_MACHINES) then None
  else
    fst <$>
      fold_left
        (fun acc job =>
           fold_left (fun acc op => read_operation acc job op)
                     (seqZ 0 (num_operations problem)) acc)
        (seqZ 0 (num_jobs problem)) (Some (problem, tokens)).

(** [main] from the thread count and the input file on: the two checks of
    the thread count (the second one is the [exit(1)] of
    [init_thread_logs]), the reading, and the rest of [main]. *)
Definition main (teams : nat -> Z -> list Z) (num_threads : Z) (tokens : list Z)
    : option Parallel.Outcome :=
  if num_threads <=? 0 then Some (Parallel.Exit 1)
  else if num_threads >? MAX_THREADS then Some (Parallel.Exit 1)
  else
    match read_input_file tokens with
    | None => Some (Parallel.Exit 1)
    | Some p => Parallel.main teams num_threads p
    end.

End ParallelFile.

Module SequentialFile.

(** What the local, uninitialised [JobShopProblem problem[1]] of [main]
    holds before the call. *)
Record Memory : Type := mkMemory {
  mem_num_jobs : Z;
  mem_num_machines : Z;
  mem_op : Z -> Z -> Operation
}.

(** The body of the two reading loops for one operation. *)
Definition read_operation (acc : JobShopProblem * list Z) (job op : Z)
    : JobShopProblem * list Z :=
  let '(problem, tokens) := acc in
  let o := job_op problem job op in
  let '(_, machine, duration, tokens) :=
    fscanf_int_int tokens (Op.machine o) (Op.duration o) in
  (set_op problem job op (Op.mk machine duration (-1)), tokens).

(** [read_input_file] of [job_shop_sequential.c]: no value of [fscanf] is
    looked at and nothing is checked, so the call returns 1 for every file
    that can be opened.  The model stands for the source as long as the
    dimensions read fit the static table. *)
Definition read_input_file (mem : Memory) (tokens : list Z) : JobShopProblem :=
  let '(_, nj, nm, tokens) :=
    fscanf_int_int tokens (mem_num_jobs mem) (mem_num_machines mem) in
  let problem := mkProblem nj nm nm (table_of nj nm (mem_op mem)) in
  fst (fold_left
         (fun acc job =>
            fold_left (fun acc op => read_operation acc job op)
                      (seqZ 0 (num_operations problem)) acc)
         (seqZ 0 (num_jobs problem)) (problem, tokens)).

(** [main] from the input file on. *)
Definition main (mem : Memory) (tokens : list Z) : option (Z * list (list (Z * Z))) :=
  Sequential.main (read_input_file mem tokens).

End SequentialFile.

(** ** The base name of the input file (in both [main]s) *)

(** File names are the characters before the terminating NUL. *)
Definition slash : ascii := "/"%char.
Definition backslash : ascii := ascii_of_nat 92.
Definition dot : ascii := "."%char.

(** [strrchr(s, c)] as the position of the last [c] in [s]; [None] is the
    null pointer. *)
Fixpoint strrchr (s : list ascii) (c : ascii) : option nat :=
  match s with
  | [] => None
  | x :: s' =>
      match strrchr s' c with
      | Some i => Some (S i)
      | None => if Ascii.eqb x c then Some O else None
      end
  end.

(** The name under which the logs of a run are filed: the input file name
    without its directory and without its last extension.  The sources copy
    the name into buffers of 256 characters; the model stands for names
    that fit. *)
Definition input_base_name (input_file : list ascii) : list ascii :=
  let filename :=
    match strrchr input_file slash with
    | Some lastSlash => drop (S lastSlash) input_file
    | None =>
        match strrchr input_file backslash with
        | Some lastBackslash => drop (S lastBackslash) input_file
        | None => input_file
        end
    end in
  match strrchr filename dot with
  | Some dot => take dot filename
  | None => filename
  end.

(** ** [int] sums as the machine computes them *)

(** The definitions above add in [Z]: they stand for the source on the
    inputs on which every sum of two [int]s is an [int] again.  A sum that
    leaves the range comes back wrapped around in the compiled programs;
    this part gives the sums of [find_available_time] and of the sequential
    scheduler with the wrap-around written out.  The counters of the
    scheduler stay below [MAX_JOBS * MAX_OPERATIONS] and are left as they
    are. *)
Definition INT_MIN : Z := -2147483648.
Definition INT_MAX : Z := 2147483647.

(** The [int] left by a 32-bit two's complement computation of value [x]. *)
Definition wrap (x : Z) : Z := (x - INT_MIN) mod 2 ^ 32 + INT_MIN.

Module Int32.

(** [a + b] on two [int]s. *)
Definition add (a b : Z) : Z := wrap (a + b).

(** [find_available_time], lines 145-181 and 167-202. *)
Definition scan_cell (p : JobShopProblem) (machine start_time end_time : Z)
    (acc : bool * Z) (job op : Z) : bool * Z :=
  let '(can_schedule, earliest_possible) := acc in
  let o := job_op p job op in
  if committed_on machine o then
    let op_start := Op.start_time o in
    let op_end := add op_start (Op.duration o) in
    if overlaps start_time end_time op_start op_end then
      (false, if op_end >? earliest_possible then op_end else earliest_possible)
    else acc
  else acc.

Definition scan (p : JobShopProblem) (machine start_time end_time : Z) : bool * Z :=
  fold_left
    (fun acc job =>
       fold_left (fun acc op => scan_cell p machine start_time end_time acc job op)
                 (seqZ 0 (num_operations p)) acc)
    (seqZ 0 (num_jobs p)) (true, start_time).

Fixpoint find_loop (fuel : nat) (p : JobShopProblem)
    (machine duration start_time : Z) : option Z :=
  match fuel with
  | O => None
  | S fuel' =>
      let end_time := add start_time duration in
      let '(can_schedule, earliest_possible) := scan p machine start_time end_time in
      if can_schedule then Some start_time
      else find_loop fuel' p machine duration earliest_possible
  end.

Definition find_available_time (p : JobShopProblem)
    (machine duration earliest_start : Z) : option Z :=
  find_loop (S (length (cells p))) p machine duration earliest_start.

(** The makespan loops of the two [write_output_file]s, lines 109-118 and
    131-143. *)
Definition makespan_all (p : JobShopProblem) : Z :=
  fold_left
    (fun makespan '(job, op) =>
       let end_time := add (Op.start_time (job_op p job op)) (Op.duration (job_op p job op)) in
       if end_time >? makespan then end_time else makespan)
    (cells p) 0.

Definition makespan_scheduled (p : JobShopProblem) : Z :=
  fold_left
    (fun makespan '(job, op) =>
       if negb (Op.start_time (job_op p job op) =? -1) then
         let end_time :=
           add (Op.start_time (job_op p job op)) (Op.duration (job_op p job op)) in
         if end_time >? makespan then end_time else makespan
       else makespan)
    (cells p) 0.

(** The loop of [schedule_jobs_sequential], lines 195-248; the selection
    scan adds nothing and is [Sequential.select_job]. *)
Definition schedule_step (st : Sequential.State) (earliest_job : Z)
    : option Sequential.State :=
  let p := Sequential.problem st in
  let op := (Sequential.scheduled_ops st).[earliest_job] in
  let machine := Op.machine (job_op p earliest_job op) in
  let duration := Op.duration (job_op p earliest_job op) in
  let job_earliest_start := (Sequential.earliest_starts st).[earliest_job] in
  start_time ← find_available_time p machine duration job_earliest_start;
  let p' := set_start_time p earliest_job op start_time in
  let scheduled_ops' := (Sequential.scheduled_ops st).[earliest_job <- op + 1] in
  let earliest_starts' :=
    if scheduled_ops'.[earliest_job] <? num_operations p
    then (Sequential.earliest_starts st).[earliest_job <- add start_time duration]
    else Sequential.earliest_starts st in
  Some (Sequential.mkState p' scheduled_ops' earliest_starts'
          (Sequential.scheduled_count st + 1)).

Fixpoint schedule_loop (fuel : nat) (st : Sequential.State) : option Sequential.State :=
  if Sequential.scheduled_count st <? Sequential.total_ops (Sequential.problem st) then
    match fuel with
    | O => None
    | S fuel' =>
        let earliest_job := fst (Sequential.select_job st) in
        if earliest_job =? -1 then Some st          (* break *)
        else st' ← schedule_step st earliest_job; schedule_loop fuel' st'
    end
  else Some st.

Definition schedule_jobs_sequential (p : JobShopProblem) : option Sequential.State :=
  schedule_loop (Z.to_nat (Sequential.total_ops p)) (Sequential.init p).

(** The coordinator of [schedule_with_strict_division], lines 211-374: the
    block that finds and commits a slot, and the loops around it.  The
    redistribution pass adds nothing and is [Parallel.redistribute]. *)
Definition schedule_operation (st : Parallel.State) (job op : Z) : option Parallel.State :=
  let p := Parallel.problem st in
  let machine := Op.machine (job_op p job op) in
  let duration := Op.duration (job_op p job op) in
  let job_earliest_start := (Parallel.earliest_starts st).[job] in
  start_time ← find_available_time p machine duration job_earliest_start;
  Some (Parallel.mkState (set_start_time p job op start_time)
          ((Parallel.scheduled_ops st).[job <- (Parallel.scheduled_ops st).[job] + 1])
          ((Parallel.earliest_starts st).[job <- add start_time duration])
          (Parallel.op_assigned st)
          (Parallel.assigned_count st + 1)
          (Parallel.iteration_count st)
          (Parallel.thread_worked st)).

Definition critical_section (thread_id : Z) (st : Parallel.State)
    : option (Parallel.State * Z * Z) :=
  fold_left
    (fun acc job =>
       '(st, thread_scheduled, scheduled_this_iteration) ← acc;
       if (Parallel.op_assigned st).[job].[0] =? thread_id then
         let op := (Parallel.scheduled_ops st).[job] in
         if op <? num_operations (Parallel.problem st) then
           st' ← schedule_operation st job op;
           Some (st', 1, scheduled_this_iteration + 1)
         else Some (st, thread_scheduled, scheduled_this_iteration)
       else Some (st, thread_scheduled, scheduled_this_iteration))
    (seqZ 0 (num_jobs (Parallel.problem st))) (Some (st, 0, 0)).

Definition parallel_region (team : list Z) (st : Parallel.State)
    : option (Parallel.State * Z) :=
  fold_left
    (fun acc thread_id =>
       '(st, scheduled_this_iteration) ← acc;
       '(st', thread_scheduled, n) ← critical_section thread_id st;
       let worked :=
         if thread_scheduled =? 0 then Parallel.thread_worked st'
         else (Parallel.thread_worked st').[thread_id <- 1] in
       Some (Parallel.mkState (Parallel.problem st') (Parallel.scheduled_ops st')
               (Parallel.earliest_starts st') (Parallel.op_assigned st')
               (Parallel.assigned_count st') (Parallel.iteration_count st') worked,
             scheduled_this_iteration + n))
    team (Some (st, 0)).

Definition fallback (st : Parallel.State) : option Parallel.State :=
  fold_left
    (fun acc job =>
       st ← acc;
       fold_left (fun acc op => st ← acc; schedule_operation st job op)
                 (seqZ (Parallel.scheduled_ops st).[job]
                       (num_operations (Parallel.problem st)
                        - (Parallel.scheduled_ops st).[job]))
                 (Some st))
    (seqZ 0 (num_jobs (Parallel.problem st))) (Some st).

Fixpoint coordinate (fuel : nat) (teams : Z -> list Z) (num_threads : Z)
    (st : Parallel.State) : option (Parallel.State * bool) :=
  if (Parallel.assigned_count st <? Parallel.total_ops (Parallel.problem st))
     && (Parallel.iteration_count st <? Parallel.max_iterations (Parallel.problem st)) then
    match fuel with
    | O => None
    | S fuel' =>
        let st := Parallel.next_iteration st in
        '(st, scheduled_this_iteration) ←
          parallel_region (teams (Parallel.iteration_count st)) st;
        if scheduled_this_iteration =? 0 then
          let '(st, all_jobs_assigned) := Parallel.redistribute num_threads st in
          if all_jobs_assigned =? 0 then coordinate fuel' teams num_threads st
          else st' ← fallback st; Some (st', true)
        else coordinate fuel' teams num_threads st
    end
  else Some (st, false).

Definition schedule_with_strict_division (teams : Z -> list Z) (num_threads : Z)
    (p : JobShopProblem) : option Parallel.Result :=
  '(st, warning) ← coordinate (Z.to_nat (Parallel.max_iterations p)) teams num_threads
                     (Parallel.init num_threads p);
  Some (Parallel.mkResult st warning
          (if Parallel.assigned_count st =? Parallel.total_ops (Parallel.problem st)
           then 1 else 0)).

End Int32.



(** * Vocabulary of the properties *)

(** ** Tables, schedules and the invariant of both schedulers *)

(** Shape of a loaded problem: the dimensions fit the static arrays and the
    table has [num_jobs] rows of [num_operations] operations. *)
Record well_formed (p : JobShopProblem) : Prop := {
  wf_jobs : 0 <= num_jobs p <= MAX_JOBS;
  wf_ops : 0 <= num_operations p <= MAX_OPERATIONS;
  wf_rows : length (jobs p) = Z.to_nat (num_jobs p);
  wf_cols : forall job, 0 <= job < num_jobs p ->
            length ((jobs p).[job]) = Z.to_nat (num_operations p)
}.

(** [job] and [op] index an operation of the problem. *)
Definition in_table (p : JobShopProblem) (job op : Z) : Prop :=
  0 <= job < num_jobs p /\ 0 <= op < num_operations p.

(** End of the committed interval of a cell. *)
Definition op_end (p : JobShopProblem) (c : Z * Z) : Z :=
  Op.start_time (job_op p c.1 c.2) + Op.duration (job_op p c.1 c.2).

(** The cell is committed on [machine] and its interval overlaps
    [[start_time, end_time)] under the test of the source. *)
Definition conflict (p : JobShopProblem) (machine start_time end_time : Z)
    (c : Z * Z) : bool :=
  committed_on machine (job_op p c.1 c.2)
  && overlaps start_time end_time (Op.start_time (job_op p c.1 c.2)) (op_end p c).

(** Committed cells of [machine] that end after [t]: the variant of the loop. *)
Definition pending (p : JobShopProblem) (machine t : Z) : nat :=
  length (List.filter
            (fun c => committed_on machine (job_op p c.1 c.2) && (t <? op_end p c))
            (cells p)).

(** Per-job precedence: an operation ends before its successor starts. *)
Definition precedence_ok (p : JobShopProblem) : Prop :=
  forall job op, in_table p job op -> in_table p job (op + 1) ->
    op_end p (job, op) <= Op.start_time (job_op p job (op + 1)).

(** No two operations of one machine overlap, under the test of the source. *)
Definition machines_ok (p : JobShopProblem) : Prop :=
  forall job1 op1 job2 op2,
    in_table p job1 op1 -> in_table p job2 op2 -> (job1, op1) <> (job2, op2) ->
    Op.machine (job_op p job1 op1) = Op.machine (job_op p job2 op2) ->
    overlaps (Op.start_time (job_op p job1 op1)) (op_end p (job1, op1))
             (Op.start_time (job_op p job2 op2)) (op_end p (job2, op2)) = false.

(** A complete, valid schedule. *)
Definition schedule_ok (p : JobShopProblem) : Prop :=
  (forall job op, in_table p job op -> 0 <= Op.start_time (job_op p job op))
  /\ precedence_ok p /\ machines_ok p.

(** A valid problem before a run: well-formed, machines in range, durations
    not negative, nothing scheduled. *)
Record valid_problem (p : JobShopProblem) : Prop := {
  vp_wf : well_formed p;
  vp_machine : forall job op, in_table p job op ->
               0 <= Op.machine (job_op p job op) < num_machines p;
  vp_duration : forall job op, in_table p job op -> 0 <= Op.duration (job_op p job op);
  vp_fresh : forall job op, in_table p job op -> Op.start_time (job_op p job op) = -1
}.

(** The invariant of both schedulers over the table, the per-job counters
    [scheduled_ops] and the per-job [earliest_starts]. *)
Record sched_inv (p : JobShopProblem) (so es : list Z) : Prop := {
  inv_wf : well_formed p;
  inv_len_so : length so = Z.to_nat MAX_JOBS;
  inv_len_es : length es = Z.to_nat MAX_JOBS;
  inv_dur : forall job op, in_table p job op -> 0 <= Op.duration (job_op p job op);
  inv_so : forall job, 0 <= job < num_jobs p -> 0 <= so.[job] <= num_operations p;
  inv_done : forall job op, in_table p job op -> op < so.[job] ->
             0 <= Op.start_time (job_op p job op);
  inv_todo : forall job op, in_table p job op -> so.[job] <= op ->
             Op.start_time (job_op p job op) = -1;
  inv_es : forall job, 0 <= job < num_jobs p -> 0 <= es.[job];
  inv_prec : forall job op, in_table p job op -> op + 1 < so.[job] ->
             op_end p (job, op) <= Op.start_time (job_op p job (op + 1));
  inv_next : forall job, 0 <= job < num_jobs p -> 0 < so.[job] < num_operations p ->
             op_end p (job, so.[job] - 1) <= es.[job];
  inv_excl : forall job1 op1 job2 op2,
             in_table p job1 op1 -> in_table p job2 op2 -> (job1, op1) <> (job2, op2) ->
             op1 < so.[job1] -> op2 < so.[job2] ->
             Op.machine (job_op p job1 op1) = Op.machine (job_op p job2 op2) ->
             overlaps (Op.start_time (job_op p job1 op1)) (op_end p (job1, op1))
                      (Op.start_time (job_op p job2 op2)) (op_end p (job2, op2)) = false
}.

(** Sum of a list of integers. *)
Definition Zsum (l : list Z) : Z := foldr Z.add 0 l.

(** [scheduled_ops[0] + ... + scheduled_ops[num_jobs - 1]] *)
Definition scheduled_total (so : list Z) (nj : Z) : Z :=
  Zsum ((fun job => so.[job]) <$> seqZ 0 nj).

(** Sum of the durations of all operations. *)
Definition total_work (p : JobShopProblem) : Z :=
  Zsum ((fun c => Op.duration (job_op p c.1 c.2)) <$> cells p).

(** Sum of the durations of the operations scheduled so far. *)
Definition work_done (p : JobShopProblem) (so : list Z) : Z :=
  Zsum ((fun c => if c.2 <? so.[c.1] then Op.duration (job_op p c.1 c.2) else 0)
          <$> cells p).

(** Nothing ends, and no job may start, later than the work done so far. *)
Definition bound_inv (p : JobShopProblem) (so es : list Z) : Prop :=
  (forall job op, in_table p job op -> op < so.[job] ->
     op_end p (job, op) <= work_done p so)
  /\ (forall job, 0 <= job < num_jobs p -> es.[job] <= work_done p so).

(** [valid_problem] as a computation, for concrete problems. *)
Definition check_valid (p : JobShopProblem) : bool :=
  (0 <=? num_jobs p) && (num_jobs p <=? MAX_JOBS)
  && (0 <=? num_operations p) && (num_operations p <=? MAX_OPERATIONS)
  && (length (jobs p) =? Z.to_nat (num_jobs p))%nat
  && forallb (fun job => (length ((jobs p).[job]) =? Z.to_nat (num_operations p))%nat)
             (seqZ 0 (num_jobs p))
  && forallb (fun c => (0 <=? Op.machine (job_op p c.1 c.2))
                       && (Op.machine (job_op p c.1 c.2) <? num_machines p)
                       && (0 <=? Op.duration (job_op p c.1 c.2))
                       && (Op.start_time (job_op p c.1 c.2) =? -1))
             (cells p).

(** ** States of the sequential scheduler *)

Section sequential_vocabulary.
Import Sequential.

(** A job that still has operations to schedule. *)
Definition eligible (st : State) (job : Z) : Prop :=
  (scheduled_ops st).[job] < num_operations (problem st).

(** The selection scan over the first [n] jobs. *)
Definition select_upto (st : State) (n : nat) : Z * Z :=
  fold_left
    (fun '(earliest_job, earliest_time) job =>
       if (scheduled_ops st).[job] <? num_operations (problem st) then
         if (earliest_starts st).[job] <? earliest_time
         then (job, (earliest_starts st).[job])
         else (earliest_job, earliest_time)
       else (earliest_job, earliest_time))
    (seqZ 0 (Z.of_nat n)) (-1, 999999).

(** Invariant of the sequential loop. *)
Record seq_inv (st : State) : Prop := {
  si_sched : sched_inv (problem st) (scheduled_ops st) (earliest_starts st);
  si_count : scheduled_count st
             = scheduled_total (scheduled_ops st) (num_jobs (problem st))
}.

(** The loop was left by the [break]: operations remain and no job was taken. *)
Definition stopped_early (st : State) : Prop :=
  scheduled_count st < total_ops (problem st) /\ fst (select_job st) = -1.

(** The loop was left because everything is scheduled. *)
Definition completed (st : State) : Prop :=
  scheduled_count st = total_ops (problem st).

(** States at the head of the loop during the run on [p]. *)
Inductive reachable (p : JobShopProblem) : State -> Prop :=
  | reach_init : reachable p (init p)
  | reach_step st st' :
      reachable p st ->
      scheduled_count st < total_ops (problem st) ->
      fst (select_job st) <> -1 ->
      schedule_step st (fst (select_job st)) = Some st' ->
      reachable p st'.

End sequential_vocabulary.

(** ** States of the coordinator *)

(** Shape of [op_assigned]: the full static table. *)
Definition table_shape (a : list (list Z)) : Prop :=
  length a = Z.to_nat MAX_JOBS
  /\ forall job, 0 <= job < MAX_JOBS -> length (a.[job]) = Z.to_nat MAX_OPERATIONS.

Section parallel_vocabulary.
Import Parallel.

(** Invariant of the coordinator for [num_threads] threads. *)
Record par_inv (num_threads : Z) (st : State) : Prop := {
  pi_sched : sched_inv (problem st) (scheduled_ops st) (earliest_starts st);
  pi_count : assigned_count st
             = scheduled_total (scheduled_ops st) (num_jobs (problem st));
  pi_shape : table_shape (op_assigned st);
  pi_owner : forall job, 0 <= job < num_jobs (problem st) ->
             0 < num_operations (problem st) ->
             0 <= (op_assigned st).[job].[0] < num_threads
}.

(** What a step of the coordinator leaves alone. *)
Definition same_frame (st st' : State) : Prop :=
  op_assigned st' = op_assigned st
  /\ iteration_count st' = iteration_count st
  /\ num_jobs (problem st') = num_jobs (problem st)
  /\ num_operations (problem st') = num_operations (problem st).

(** Does [thread_id] advance [job] in its critical section entered at [st]? *)
Definition advances (st : State) (thread_id job : Z) : Prop :=
  (op_assigned st).[job].[0] = thread_id
  /\ (scheduled_ops st).[job] < num_operations (problem st).

#[global] Instance advances_dec st thread_id job : Decision (advances st thread_id job).
Proof. unfold advances. apply _. Defined.

Definition critical_upto (thread_id : Z) (st : State) (n : nat)
    : option (State * Z * Z) :=
  fold_left
    (fun acc job =>
       '(st, thread_scheduled, scheduled_this_iteration) ← acc;
       if (op_assigned st).[job].[0] =? thread_id then
         let op := (scheduled_ops st).[job] in
         if op <? num_operations (problem st) then
           st' ← schedule_operation st job op;
           Some (st', 1, scheduled_this_iteration + 1)
         else Some (st, thread_scheduled, scheduled_this_iteration)
       else Some (st, thread_scheduled, scheduled_this_iteration))
    (seqZ 0 (Z.of_nat n)) (Some (st, 0, 0)).

(** A job that still holds unscheduled operations. *)
Definition stuck (st : State) (job : Z) : Prop :=
  (scheduled_ops st).[job] < num_operations (problem st).

#[global] Instance stuck_dec st job : Decision (stuck st job).
Proof. unfold stuck. apply _. Defined.

Definition redistribute_upto (num_threads : Z) (st : State) (n : nat) : State * Z :=
  fold_left
    (fun '(st, all_jobs_assigned) job =>
       if (scheduled_ops st).[job] <? num_operations (problem st) then
         match find_idle num_threads (thread_worked st) with
         | Some t =>
             (mkState (problem st) (scheduled_ops st) (earliest_starts st)
                (assign_job (problem st) (op_assigned st) job t)
                (assigned_count st) (iteration_count st) (thread_worked st), 0)
         | None => (st, all_jobs_assigned)
         end
       else (st, all_jobs_assigned))
    (seqZ 0 (Z.of_nat n)) (st, 1).

(** Only [op_assigned] changes in the redistribution pass. *)
Definition only_ownership (st st' : State) : Prop :=
  problem st' = problem st /\ scheduled_ops st' = scheduled_ops st
  /\ earliest_starts st' = earliest_starts st
  /\ assigned_count st' = assigned_count st
  /\ iteration_count st' = iteration_count st
  /\ thread_worked st' = thread_worked st.

(** The threads of a team have numbers below the size asked for. *)
Definition teams_in_range (num_threads : Z) (teams : Z -> list Z) : Prop :=
  forall i, Forall (fun t => 0 <= t < num_threads) (teams i).

(** The dimensions of the problem fit the static arrays, and [op_assigned]
    is the full table. *)
Definition fits_arrays (st : State) : Prop :=
  0 <= num_jobs (problem st) <= MAX_JOBS
  /\ 0 <= num_operations (problem st) <= MAX_OPERATIONS
  /\ table_shape (op_assigned st).

Definition fallback_upto (st : State) (n : nat) : option State :=
  fold_left
    (fun acc job =>
       st ← acc;
       fold_left (fun acc op => st ← acc; schedule_operation st job op)
                 (seqZ (scheduled_ops st).[job]
                       (num_operations (problem st) - (scheduled_ops st).[job]))
                 (Some st))
    (seqZ 0 (Z.of_nat n)) (Some st).



End parallel_vocabulary.

(** ** Further instances *)

(** Three jobs of one operation each, for three threads. *)
Definition three_jobs : JobShopProblem :=
  load 3 1 [[(0, 1)]; [(0, 1)]; [(0, 1)]].

(** Five jobs on five machines, and teams in which the owner of job 1 runs
    only in the first round. *)
Definition five_jobs : JobShopProblem :=
  load 5 5 (replicate 5 [(0, 1); (1, 2); (2, 3); (3, 4); (4, 5)]).

Definition shrinking_teams (i : Z) : list Z := if i =? 1 then [0; 1] else [0].

(** ** Commits *)

(** The part of a scheduler state on which both schedulers work when they
    commit an operation: the table, [scheduled_ops] and [earliest_starts]. *)
Definition Board : Type := JobShopProblem * list Z * list Z.

Definition seq_board (st : Sequential.State) : Board :=
  (Sequential.problem st, Sequential.scheduled_ops st, Sequential.earliest_starts st).

Definition par_board (st : Parallel.State) : Board :=
  (Parallel.problem st, Parallel.scheduled_ops st, Parallel.earliest_starts st).

(** One commit: the next operation of a job that has one gets the slot found
    for it.  [earliest_starts[job]] becomes the end of the slot; the
    sequential source leaves it alone when the job is thereby finished. *)
Inductive commit_step : Board -> Board -> Prop :=
  | commit_next p so es job t es' :
      0 <= job < num_jobs p -> so.[job] < num_operations p ->
      find_available_time p (Op.machine (job_op p job so.[job]))
        (Op.duration (job_op p job so.[job])) es.[job] = Some t ->
      (es' = es.[job <- t + Op.duration (job_op p job so.[job])]
       \/ (so.[job] + 1 = num_operations p /\ es' = es)) ->
      commit_step (p, so, es)
                  (set_start_time p job so.[job] t, so.[job <- so.[job] + 1], es').

(** Any number of commits. *)
Inductive commits : Board -> Board -> Prop :=
  | commits_refl b : commits b b
  | commits_snoc b1 b2 b3 : commits b1 b2 -> commit_step b2 b3 -> commits b1 b3.

(** The tables describe the same problem: dimensions, machines, durations. *)
Definition same_input (p p' : JobShopProblem) : Prop :=
  num_jobs p' = num_jobs p /\ num_machines p' = num_machines p
  /\ num_operations p' = num_operations p
  /\ forall job op, in_table p job op ->
       Op.machine (job_op p' job op) = Op.machine (job_op p job op)
       /\ Op.duration (job_op p' job op) = Op.duration (job_op p job op).

(** When operation [op] of [job] may start as far as its job is concerned:
    at 0, or at the end of the operation before it. *)
Definition ready (p : JobShopProblem) (job op : Z) : Z :=
  if op =? 0 then 0 else op_end p (job, op - 1).

(** The operation cannot start earlier: at every time from [ready] up to its
    start, its interval would meet another committed operation of its
    machine (under the test of the source). *)
Definition no_left_shift (p : JobShopProblem) (job op : Z) : Prop :=
  forall t, ready p job op <= t < Op.start_time (job_op p job op) ->
    exists job' op', in_table p job' op' /\ (job', op') <> (job, op)
      /\ conflict p (Op.machine (job_op p job op)) t
           (t + Op.duration (job_op p job op)) (job', op') = true.

(** What the greedy placement maintains. *)
Definition greedy_inv (p : JobShopProblem) (so es : list Z) : Prop :=
  (forall job op, in_table p job op -> op < so.[job] -> no_left_shift p job op)
  /\ (forall job, 0 <= job < num_jobs p -> so.[job] < num_operations p ->
        es.[job] = ready p job so.[job]).

(** The scheduled operations of the first board are those of the second. *)
Definition keeps_scheduled (b b' : Board) : Prop :=
  forall job op, in_table b.1.1 job op -> op < b.1.2.[job] ->
    job_op b'.1.1 job op = job_op b.1.1 job op /\ op < b'.1.2.[job].

(** All that the commits maintain from the input [p0] on. *)
Record board_ok (p0 : JobShopProblem) (b : Board) : Prop := {
  bo_sched : sched_inv b.1.1 b.1.2 b.2;
  bo_bound : bound_inv b.1.1 b.1.2 b.2;
  bo_greedy : greedy_inv b.1.1 b.1.2 b.2;
  bo_input : same_input p0 b.1.1
}.

(** ** Tables between repetitions *)

(** A table as [main] holds it between repetitions: a valid problem whose
    start times may still be those of the previous run. *)
Record valid_table (p : JobShopProblem) : Prop := {
  vt_wf : well_formed p;
  vt_machine : forall job op, in_table p job op ->
               0 <= Op.machine (job_op p job op) < num_machines p;
  vt_duration : forall job op, in_table p job op -> 0 <= Op.duration (job_op p job op)
}.

(** ** Problems and their files *)

(** The integers of the operations of [p] as its file lists them: job by
    job, operation by operation, machine then duration. *)
Definition body_tokens (p : JobShopProblem) : list Z :=
  c ← cells p; [Op.machine (job_op p c.1 c.2); Op.duration (job_op p c.1 c.2)].

(** The file of [p]: the two dimensions, then the operations. *)
Definition file_tokens (p : JobShopProblem) : list Z :=
  num_jobs p :: num_machines p :: body_tokens p.

(** The problems that the reader of the parallel program returns: the
    dimensions fit, there are as many operations per job as machines, the
    machines are in range and nothing is scheduled. *)
Record readable (p : JobShopProblem) : Prop := {
  rd_wf : well_formed p;
  rd_ops : num_operations p = num_machines p;
  rd_machine : forall job op, in_table p job op ->
               0 <= Op.machine (job_op p job op) < num_machines p;
  rd_fresh : forall job op, in_table p job op -> Op.start_time (job_op p job op) = -1
}.

(** ** Ownership *)

(** All operations of a job have the owner of its first operation. *)
Definition owner_uniform (st : Parallel.State) : Prop :=
  forall job op, in_table (Parallel.problem st) job op ->
    (Parallel.op_assigned st).[job].[op] = (Parallel.op_assigned st).[job].[0].

(** ** Sums within the range of [int] *)

Definition in_int (x : Z) : Prop := INT_MIN <= x <= INT_MAX.

(** End of the committed interval of a cell as the machine computes it. *)
Definition int_op_end (p : JobShopProblem) (c : Z * Z) : Z :=
  Int32.add (Op.start_time (job_op p c.1 c.2)) (Op.duration (job_op p c.1 c.2)).

(** The overlap test of the source on the machine's sums. *)
Definition int_conflict (p : JobShopProblem) (machine start_time end_time : Z)
    (c : Z * Z) : bool :=
  committed_on machine (job_op p c.1 c.2)
  && overlaps start_time end_time (Op.start_time (job_op p c.1 c.2)) (int_op_end p c).

(** Committed cells of [machine] whose machine end lies after [t]. *)
Definition int_pending (p : JobShopProblem) (machine t : Z) : nat :=
  length (List.filter
            (fun c => committed_on machine (job_op p c.1 c.2) && (t <? int_op_end p c))
            (cells p)).

(** The table in which the duration of every operation is the distance from
    its start to its machine end: on it the sums in [Z] are the machine's. *)
Definition normalize_op (o : Operation) : Operation :=
  Op.mk (Op.machine o)
        (Int32.add (Op.start_time o) (Op.duration o) - Op.start_time o)
        (Op.start_time o).

Definition normalize (p : JobShopProblem) : JobShopProblem :=
  mkProblem (num_jobs p) (num_machines p) (num_operations p)
    ((fun row : list Operation => normalize_op <$> row) <$> jobs p).

(** Every operation committed on [machine] ends, in [Z], within
    [[INT_MIN, bound]]. *)
Definition ends_within (p : JobShopProblem) (machine bound : Z) : Prop :=
  forall job op, in_table p job op ->
    committed_on machine (job_op p job op) = true ->
    INT_MIN <= op_end p (job, op) <= bound.

(** Every [start_time + duration] of the table is an [int], as a
    computation for concrete tables. *)
Definition check_ends_in_int (p : JobShopProblem) : bool :=
  forallb (fun c => (INT_MIN <=? op_end p c) && (op_end p c <=? INT_MAX)) (cells p).

(** [ends_within] as a computation, for concrete tables. *)
Definition check_ends_within (p : JobShopProblem) (machine bound : Z) : bool :=
  forallb (fun c => implb (committed_on machine (job_op p c.1 c.2))
                          ((INT_MIN <=? op_end p c) && (op_end p c <=? bound)))
          (cells p).

(** What the counters of the sequential loop satisfy, whatever the sums do. *)
Record count_inv (st : Sequential.State) : Prop := {
  ci_wf : well_formed (Sequential.problem st);
  ci_len : length (Sequential.scheduled_ops st) = Z.to_nat MAX_JOBS;
  ci_so : forall job, 0 <= job < num_jobs (Sequential.problem st) ->
          0 <= (Sequential.scheduled_ops st).[job]
               <= num_operations (Sequential.problem st);
  ci_count : Sequential.scheduled_count st
             = scheduled_total (Sequential.scheduled_ops st)
                               (num_jobs (Sequential.problem st))
}.

(** States at the head of the sequential loop during the run on [p], with
    the machine's sums. *)
Inductive int_reachable (p : JobShopProblem) : Sequential.State -> Prop :=
  | int_reach_init : int_reachable p (Sequential.init p)
  | int_reach_step st st' :
      int_reachable p st ->
      Sequential.scheduled_count st < Sequential.total_ops (Sequential.problem st) ->
      fst (Sequential.select_job st) <> -1 ->
      Int32.schedule_step st (fst (Sequential.select_job st)) = Some st' ->
      int_reachable p st'.

(** ** Heads of the coordinator's loop *)

Section loop_vocabulary.
Import Parallel.




End loop_vocabulary.

(** ** States of the coordinator within the range of [int] *)


(** * Properties *)

(** Every integer of a concrete file is within the range of [int]. *)
Ltac int_tokens := repeat constructor; unfold INT_MIN, INT_MAX; lia.

(** ** [wrap] *)

Lemma wrap_in_int x : in_int x -> wrap x = x.
Proof.
  unfold in_int, wrap, INT_MIN, INT_MAX. intros H.
  rewrite Z.mod_small by lia. lia.
Qed.

Lemma wrap_range x : in_int (wrap x).
Proof.
  unfold in_int, wrap, INT_MIN, INT_MAX.
  pose proof (Z.mod_pos_bound (x - -2147483648) (2 ^ 32) ltac:(lia)). lia.
Qed.

(** ** Arrays *)

Section arrays.
Context {A : Type} `{Inhabited A}.
Implicit Types (arr : list A) (i j : Z) (v : A).

Lemma length_aset arr i v : length (arr.[i <- v]) = length arr.
Proof. apply length_insert. Qed.

Lemma aget_aset_same arr i v :
  (Z.to_nat i < length arr)%nat -> arr.[i <- v].[i] = v.
Proof. intros Hi. unfold aget, aset. by rewrite list_lookup_total_insert_eq. Qed.

Lemma aget_aset_other arr i j v :
  0 <= i -> 0 <= j -> i <> j -> arr.[i <- v].[j] = arr.[j].
Proof.
  intros Hi Hj Hne. unfold aget, aset.
  rewrite list_lookup_total_insert_ne; [done | lia].
Qed.

Lemma aget_aset arr i j v :
  0 <= i -> 0 <= j -> (Z.to_nat i < length arr)%nat ->
  arr.[i <- v].[j] = if decide (i = j) then v else arr.[j].
Proof.
  intros Hi Hj Hlen. case_decide as Hd.
  - subst j. by apply aget_aset_same.
  - by apply aget_aset_other.
Qed.
End arrays.

(** ** The problem table *)

Lemma elem_of_cells p job op : (job, op) ∈ cells p <-> in_table p job op.
Proof.
  unfold cells, in_table. rewrite list_elem_of_bind. split.
  - intros (j & Hin & Hj). apply elem_of_seqZ in Hj.
    apply list_elem_of_fmap in Hin as (o & Heq & Ho). apply elem_of_seqZ in Ho.
    inversion Heq; subst. lia.
  - intros [Hj Ho]. exists job. split.
    + apply list_elem_of_fmap. exists op. split; [done|]. apply elem_of_seqZ. lia.
    + apply elem_of_seqZ. lia.
Qed.

Lemma fold_left_fmap {A B C} (f : A -> C -> A) (h : B -> C) (l : list B) (a : A) :
  fold_left f (h <$> l) a = fold_left (fun a x => f a (h x)) l a.
Proof. revert a. induction l as [|x l IH]; intros a; simpl; [done | apply IH]. Qed.

Lemma fold_left_bind {A B C} (f : A -> C -> A) (g : B -> list C) (l : list B) (a : A) :
  fold_left f (l ≫= g) a = fold_left (fun a x => fold_left f (g x) a) l a.
Proof.
  revert a. induction l as [|x l IH]; intros a; [done|].
  rewrite bind_cons, fold_left_app. simpl. apply IH.
Qed.

(** A double [for] loop is one fold over [cells]. *)
Lemma fold_cells {A} (body : A -> Z -> Z -> A) (p : JobShopProblem) (a : A) :
  fold_left (fun a job => fold_left (fun a op => body a job op) (seqZ 0 (num_operations p)) a)
            (seqZ 0 (num_jobs p)) a
  = fold_left (fun a '(job, op) => body a job op) (cells p) a.
Proof.
  unfold cells. rewrite fold_left_bind.
  generalize (seqZ 0 (num_jobs p)) as js. intros js. revert a.
  induction js as [|job js IH]; intros a; simpl; [done|].
  rewrite fold_left_fmap. apply IH.
Qed.

Section set_start_time.
Variables (p : JobShopProblem) (job op v : Z).

Lemma num_jobs_set : num_jobs (set_start_time p job op v) = num_jobs p.
Proof. done. Qed.
Lemma num_operations_set : num_operations (set_start_time p job op v) = num_operations p.
Proof. done. Qed.
Lemma cells_set : cells (set_start_time p job op v) = cells p.
Proof. done. Qed.

Lemma well_formed_set :
  well_formed p -> 0 <= job -> well_formed (set_start_time p job op v).
Proof.
  intros [Hj Ho Hr Hc] Hge. split; simpl; try done.
  - by rewrite length_aset.
  - intros j Hjr. destruct (decide (job = j)) as [->|Hne].
    + rewrite aget_aset_same by lia. rewrite length_aset. by apply Hc.
    + rewrite aget_aset_other by lia. by apply Hc.
Qed.

Lemma job_op_set_same :
  well_formed p -> in_table p job op ->
  job_op (set_start_time p job op v) job op
  = Op.mk (Op.machine (job_op p job op)) (Op.duration (job_op p job op)) v.
Proof.
  intros [Hj Ho Hr Hc] [Hjr Hor]. unfold job_op at 1, set_start_time. simpl.
  rewrite aget_aset_same by lia. rewrite aget_aset_same; [done|].
  rewrite Hc by done. lia.
Qed.

Lemma job_op_set_other job' op' :
  well_formed p -> in_table p job op -> 0 <= job' -> 0 <= op' ->
  (job', op') <> (job, op) ->
  job_op (set_start_time p job op v) job' op' = job_op p job' op'.
Proof.
  intros [Hj Ho Hr Hc] [Hjr Hor] Hj' Ho' Hne. unfold job_op, set_start_time. simpl.
  destruct (decide (job = job')) as [<-|Hjne].
  - rewrite aget_aset_same by lia. rewrite aget_aset_other; [done|lia|lia|].
    intros ->. by apply Hne.
  - by rewrite aget_aset_other by lia.
Qed.
End set_start_time.

(** ** [find_available_time] *)

Section find_available_time.
Variables (p : JobShopProblem) (machine : Z).

Lemma scan_cell_conflict s e can_schedule earliest_possible job op :
  scan_cell p machine s e (can_schedule, earliest_possible) job op
  = if conflict p machine s e (job, op)
    then (false, Z.max (op_end p (job, op)) earliest_possible)
    else (can_schedule, earliest_possible).
Proof.
  unfold scan_cell, conflict, op_end. simpl.
  destruct (committed_on machine (job_op p job op)); simpl; [|done].
  destruct (overlaps _ _ _ _); [|done].
  f_equal. destruct (Z.gtb_spec (Op.start_time (job_op p job op) + Op.duration (job_op p job op))
                                earliest_possible); lia.
Qed.

(** What one pass over a list of cells leaves in the accumulator. *)
Lemma scan_fold s e (l : list (Z * Z)) can_schedule earliest_possible :
  let r := fold_left (fun acc '(job, op) => scan_cell p machine s e acc job op)
                     l (can_schedule, earliest_possible) in
  earliest_possible <= r.2
  /\ r.1 = can_schedule && forallb (fun c => negb (conflict p machine s e c)) l
  /\ (forall c, c ∈ l -> conflict p machine s e c = true -> op_end p c <= r.2)
  /\ (r.2 = earliest_possible
      \/ exists c, c ∈ l /\ conflict p machine s e c = true /\ r.2 = op_end p c).
Proof.
  revert can_schedule earliest_possible.
  induction l as [|[job op] l IH]; intros cs ep; cbn [fold_left forallb].
  - simpl. repeat split; [lia | by rewrite andb_true_r | by inversion 1 | by left].
  - rewrite scan_cell_conflict.
    destruct (conflict p machine s e (job, op)) eqn:Hc; cbn [negb andb].
    + destruct (IH false (Z.max (op_end p (job, op)) ep)) as (H1 & H2 & H3 & H4).
      repeat split.
      * lia.
      * rewrite H2. by rewrite andb_false_r.
      * intros c Hin Hcc. apply elem_of_cons in Hin as [->|Hin]; [lia | by apply H3].
      * destruct H4 as [H4|(c & Hin & Hcc & H4)].
        -- destruct (Z.max_spec (op_end p (job, op)) ep) as [[_ Hm]|[_ Hm]].
           ++ by left; lia.
           ++ right. exists (job, op). split; [by left|]. split; [done | lia].
        -- right. exists c. split; [by right | done].
    + destruct (IH cs ep) as (H1 & H2 & H3 & H4). repeat split.
      * done.
      * done.
      * intros c Hin Hcc. apply elem_of_cons in Hin as [->|Hin]; [congruence | by apply H3].
      * destruct H4 as [H4|(c & Hin & Hcc & H4)]; [by left|].
        right. exists c. split; [by right | done].
Qed.

Lemma conflict_after s e c : conflict p machine s e c = true -> s < op_end p c.
Proof. unfold conflict, overlaps. intros H. repeat (apply andb_prop in H as [H ?]). lia. Qed.

(** One pass of the scan: either the slot is free, or the retry value is
    the end of a conflicting committed operation and lies strictly later. *)
Lemma scan_spec s e :
  match scan p machine s e with
  | (true, earliest_possible) =>
      earliest_possible = s
      /\ forall job op, in_table p job op -> conflict p machine s e (job, op) = false
  | (false, earliest_possible) =>
      s < earliest_possible
      /\ (exists job op, in_table p job op /\ conflict p machine s e (job, op) = true
                         /\ earliest_possible = op_end p (job, op))
      /\ forall job op, in_table p job op -> conflict p machine s e (job, op) = true ->
                        op_end p (job, op) <= earliest_possible
  end.
Proof.
  unfold scan. rewrite (fold_cells (fun acc job op => scan_cell p machine s e acc job op)).
  destruct (scan_fold s e (cells p) true s) as (H1 & H2 & H3 & H4).
  destruct (fold_left _ _ _) as [[|] ep]; simpl in *.
  - symmetry in H2. rewrite forallb_forall in H2.
    assert (Hfree : forall job op, in_table p job op -> conflict p machine s e (job, op) = false).
    { intros job op Hin. apply elem_of_cells, list_elem_of_In in Hin.
      apply H2 in Hin. by apply negb_true_iff in Hin. }
    split; [|done]. destruct H4 as [H4|([job op] & Hin & Hc & _)]; [done|].
    apply elem_of_cells in Hin. rewrite Hfree in Hc by done. done.
  - assert (Hex : exists c, c ∈ cells p /\ conflict p machine s e c = true).
    { destruct (forallb _ (cells p)) eqn:Hall; [done|].
      revert Hall. clear. induction (cells p) as [|c l IH]; simpl; [done|].
      destruct (conflict p machine s e c) eqn:Hc; simpl.
      - intros _. exists c. split; [by left | done].
      - intros Hall. destruct (IH Hall) as (c' & Hin & Hc'). exists c'. split; [by right | done]. }
    destruct Hex as (c0 & Hin0 & Hc0).
    pose proof (H3 c0 Hin0 Hc0) as Hle. pose proof (conflict_after _ _ _ Hc0) as Hlt.
    split; [lia|]. split.
    + destruct H4 as [H4|([job op] & Hin & Hc & H4)]; [lia|].
      exists job, op. by rewrite <- elem_of_cells.
    + intros job op Hin Hc. apply (H3 (job, op)); [by apply elem_of_cells | done].
Qed.
End find_available_time.

Lemma filter_length_lt {A} (f g : A -> bool) (l : list A) (x : A) :
  (forall y, y ∈ l -> g y = true -> f y = true) ->
  x ∈ l -> f x = true -> g x = false ->
  (length (List.filter g l) < length (List.filter f l))%nat.
Proof.
  intros Hsub Hin Hf Hg.
  assert (Hle : forall l', (forall y, y ∈ l' -> g y = true -> f y = true) ->
                (length (List.filter g l') <= length (List.filter f l'))%nat).
  { induction l' as [|y l' IH]; intros Hs; simpl; [lia|].
    assert (IH' := IH (fun z Hz => Hs z (list_elem_of_further _ _ _ Hz))).
    destruct (g y) eqn:Hgy.
    - rewrite (Hs y) by (done || by left). simpl. lia.
    - destruct (f y); simpl; lia. }
  induction l as [|y l IH]; [by inversion Hin|].
  simpl. apply elem_of_cons in Hin as [<-|Hin].
  - rewrite Hf, Hg. simpl.
    specialize (Hle l (fun z Hz => Hsub z (list_elem_of_further _ _ _ Hz))). lia.
  - assert (IH' := IH (fun z Hz => Hsub z (list_elem_of_further _ _ _ Hz)) Hin).
    destruct (g y) eqn:Hgy.
    + rewrite (Hsub y) by (done || by left). simpl. lia.
    + destruct (f y); simpl; lia.
Qed.

Section find_loop.
Variables (p : JobShopProblem) (machine duration : Z).

Lemma pending_bound t : (pending p machine t <= length (cells p))%nat.
Proof. unfold pending. apply List.filter_length_le. Qed.

(** Every retry strictly lowers the number of committed operations of the
    machine that end after the candidate. *)
Lemma pending_retry start_time earliest_possible :
  scan p machine start_time (start_time + duration) = (false, earliest_possible) ->
  (pending p machine earliest_possible < pending p machine start_time)%nat.
Proof.
  intros Hscan. pose proof (scan_spec p machine start_time (start_time + duration)) as Hs.
  rewrite Hscan in Hs. destruct Hs as (Hlt & (job & op & Hin & Hc & Heq) & Hmax).
  unfold pending. apply (filter_length_lt _ _ _ (job, op)).
  - intros c _ Hg. apply andb_prop in Hg as [Hcm Hg].
    rewrite Hcm. simpl. apply Z.ltb_lt in Hg. apply Z.ltb_lt. lia.
  - by apply elem_of_cells.
  - pose proof (conflict_after _ _ _ _ _ Hc) as Ha.
    unfold conflict in Hc. apply andb_prop in Hc as [-> _]. simpl. apply Z.ltb_lt. lia.
  - apply andb_false_iff. right. apply Z.ltb_ge. lia.
Qed.

Lemma find_loop_returns fuel start_time :
  (pending p machine start_time < fuel)%nat ->
  exists r, find_loop fuel p machine duration start_time = Some r.
Proof.
  revert start_time. induction fuel as [|fuel IH]; intros s Hlt; [lia|].
  simpl. destruct (scan p machine s (s + duration)) as [[|] ep] eqn:Hscan; [by eexists|].
  apply IH. apply pending_retry in Hscan. lia.
Qed.

(** The value returned is not before the earliest start, is the earliest
    start itself or the end of an operation committed on the machine, and
    its slot conflicts with no committed operation of the machine. *)
Lemma find_loop_spec fuel start_time r :
  find_loop fuel p machine duration start_time = Some r ->
  start_time <= r
  /\ (r = start_time
      \/ exists job op, in_table p job op
           /\ committed_on machine (job_op p job op) = true
           /\ r = op_end p (job, op))
  /\ forall job op, in_table p job op ->
       conflict p machine r (r + duration) (job, op) = false.
Proof.
  revert start_time. induction fuel as [|fuel IH]; intros s; simpl; [done|].
  pose proof (scan_spec p machine s (s + duration)) as Hs.
  destruct (scan p machine s (s + duration)) as [[|] ep].
  - intros [= <-]. destruct Hs as [_ Hfree]. split; [lia|]. split; [by left | done].
  - intros Hr. destruct Hs as (Hlt & (job & op & Hin & Hc & Heq) & _).
    destruct (IH _ Hr) as (Hle & Hor & Hfree). split; [lia|]. split; [|done].
    destruct Hor as [->|Hor]; [|by right].
    right. exists job, op. split; [done|]. split; [|done].
    unfold conflict in Hc. by apply andb_prop in Hc as [Hc _].
Qed.

Lemma find_available_time_returns earliest_start :
  exists r, find_available_time p machine duration earliest_start = Some r.
Proof.
  apply find_loop_returns. pose proof (pending_bound earliest_start). lia.
Qed.

(** More fuel does not change a result. *)
Lemma find_loop_fuel fuel fuel' start_time r :
  find_loop fuel p machine duration start_time = Some r -> (fuel <= fuel')%nat ->
  find_loop fuel' p machine duration start_time = Some r.
Proof.
  revert fuel' start_time. induction fuel as [|fuel IH]; intros fuel' s; simpl; [done|].
  intros Hr Hle. destruct fuel' as [|fuel']; [lia|]. simpl.
  destruct (scan p machine s (s + duration)) as [[|] ep]; [done|].
  apply IH; [done | lia].
Qed.
End find_loop.

(** ** Schedules *)

(** The test of the source is symmetric, and it is at least as strict as the
    intersection of the half-open intervals. *)
Lemma overlaps_sym s1 e1 s2 e2 : overlaps s1 e1 s2 e2 = overlaps s2 e2 s1 e1.
Proof.
  unfold overlaps.
  destruct (Z.ltb_spec s1 e2), (Z.gtb_spec e1 s2), (Z.ltb_spec s2 e1), (Z.gtb_spec e2 s1);
    simpl; try done; lia.
Qed.

Lemma overlaps_false_disjoint s1 e1 s2 e2 :
  overlaps s1 e1 s2 e2 = false -> forall t, ~ (s1 <= t < e1 /\ s2 <= t < e2).
Proof.
  unfold overlaps. intros H t [H1 H2].
  apply andb_false_iff in H as [H|H]; [apply Z.ltb_ge in H | rewrite Z.gtb_ltb in H; apply Z.ltb_ge in H]; lia.
Qed.

Lemma job_op_set p job op v job' op' :
  well_formed p -> in_table p job op -> in_table p job' op' ->
  job_op (set_start_time p job op v) job' op'
  = if decide ((job', op') = (job, op))
    then Op.mk (Op.machine (job_op p job op)) (Op.duration (job_op p job op)) v
    else job_op p job' op'.
Proof.
  intros Hwf Hin Hin'. case_decide as Hd.
  - inversion Hd; subst. by apply job_op_set_same.
  - destruct Hin' as [? ?]. apply job_op_set_other; (done || lia).
Qed.

Lemma sched_inv_init p :
  valid_problem p ->
  sched_inv p (replicate (Z.to_nat MAX_JOBS) 0) (replicate (Z.to_nat MAX_JOBS) 0).
Proof.
  intros [Hwf Hm Hd Hf].
  assert (Hz : forall job, 0 <= job < num_jobs p -> (replicate (Z.to_nat MAX_JOBS) 0).[job] = 0).
  { intros job Hj. unfold aget. apply list_lookup_total_correct, lookup_replicate_2.
    destruct Hwf. unfold MAX_JOBS in *. lia. }
  split; try done; try (by rewrite length_replicate).
  all: try (intros job Hj; rewrite Hz by done; destruct Hwf; lia).
  all: try (intros job op [Hj Ho]; rewrite Hz by done; lia).
  - intros job op Hin _. by apply Hf.
  - intros job1 op1 job2 op2 [Hj Ho] _ _. rewrite Hz by done. lia.
Qed.

(** Committing the slot found for the next operation of [job] keeps the
    invariant.  [earliest_starts] is either updated to the end of the slot or,
    when the job is thereby finished, may be left alone (the sequential
    source guards the update, the parallel source does not). *)
Lemma sched_inv_commit p so es job t es' :
  sched_inv p so es ->
  0 <= job < num_jobs p -> so.[job] < num_operations p ->
  find_available_time p (Op.machine (job_op p job so.[job]))
    (Op.duration (job_op p job so.[job])) es.[job] = Some t ->
  (es' = es.[job <- t + Op.duration (job_op p job so.[job])]
   \/ (so.[job] + 1 = num_operations p /\ es' = es)) ->
  sched_inv (set_start_time p job so.[job] t) (so.[job <- so.[job] + 1]) es'.
Proof.
  intros Hinv Hjob Hlt Hfind Hes'.
  pose proof (inv_wf _ _ _ Hinv) as Hwf.
  pose proof (inv_so _ _ _ Hinv job Hjob) as Hop0.
  set (op := so.[job]) in *.
  assert (Hin : in_table p job op) by (unfold in_table; lia).
  apply find_loop_spec in Hfind as (Hle & _ & Hfree).
  pose proof (inv_es _ _ _ Hinv job Hjob) as Hes0.
  set (d := Op.duration (job_op p job op)) in *.
  set (m := Op.machine (job_op p job op)) in *.
  pose proof (inv_dur _ _ _ Hinv job op Hin) as Hd0. fold d in Hd0.
  assert (HjM : 0 <= job < MAX_JOBS) by (destruct Hwf; lia).
  assert (Hso : forall j, 0 <= j < num_jobs p ->
            so.[job <- op + 1].[j] = if decide (job = j) then op + 1 else so.[j]).
  { intros j Hj. apply aget_aset; [lia | lia |]. rewrite (inv_len_so _ _ _ Hinv). lia. }
  assert (Hesj : forall j, 0 <= j < num_jobs p -> job <> j -> es'.[j] = es.[j]).
  { intros j Hj Hne. destruct Hes' as [->|[_ ->]]; [|done]. apply aget_aset_other; lia. }
  assert (Hop : forall j o, in_table p j o ->
            job_op (set_start_time p job op t) j o
            = if decide ((j, o) = (job, op)) then Op.mk m d t else job_op p j o).
  { intros j o Hjo. by apply job_op_set. }
  assert (Hend : forall j o, in_table p j o ->
            op_end (set_start_time p job op t) (j, o)
            = if decide ((j, o) = (job, op)) then t + d else op_end p (j, o)).
  { intros j o Hjo. unfold op_end. simpl. rewrite Hop by done. by case_decide. }
  split.
  all: change (num_operations (set_start_time p job op t)) with (num_operations p).
  all: change (num_jobs (set_start_time p job op t)) with (num_jobs p).
  all: change (in_table (set_start_time p job op t)) with (in_table p).
  - apply well_formed_set; [done | lia].
  - rewrite length_aset. apply Hinv.
  - destruct Hes' as [->|[_ ->]]; [rewrite length_aset|]; apply Hinv.
  - intros j o Hjo. rewrite Hop by done.
    destruct (decide ((j, o) = (job, op))) as [Hc|Hc]; simpl; [done | by apply Hinv].
  - intros j Hj. rewrite Hso by done.
    destruct (decide (job = j)); [lia | by apply Hinv].
  - intros j o Hjo. rewrite Hso by apply Hjo. rewrite Hop by done.
    intros Ho. destruct (decide ((j, o) = (job, op))) as [Hc|Hc]; simpl; [lia|].
    apply Hinv; [done|]. destruct (decide (job = j)) as [<-|]; [|done].
    assert (o <> op) by congruence. fold op. lia.
  - intros j o Hjo. rewrite Hso by apply Hjo. rewrite Hop by done.
    intros Ho. destruct (decide ((j, o) = (job, op))) as [Hc|Hc]; simpl.
    + inversion Hc; subst j o. rewrite decide_True in Ho by done. lia.
    + apply Hinv; [done|]. destruct (decide (job = j)) as [<-|]; [|done]. fold op. lia.
  - intros j Hj. destruct (decide (job = j)) as [<-|Hne].
    + destruct Hes' as [->|[_ ->]]; [|done].
      rewrite aget_aset_same; [lia|]. rewrite (inv_len_es _ _ _ Hinv). lia.
    + rewrite Hesj by done. by apply Hinv.
  - intros j o Hjo. rewrite Hso by apply Hjo. intros Ho.
    assert (Hjo' : in_table p j (o + 1)).
    { destruct Hjo as [Hj Ho']. split; [done|].
      pose proof (inv_so _ _ _ Hinv j Hj). destruct (decide (job = j)); lia. }
    rewrite Hend by done. rewrite Hop by done.
    destruct (decide (job = j)) as [<-|Hne].
    + rewrite decide_False by (intros [= ?]; lia).
      destruct (decide ((job, o + 1) = (job, op))) as [Hc|Hc]; simpl.
      * assert (o + 1 = op) as Ho1 by congruence.
        pose proof (inv_next _ _ _ Hinv job Hjob) as Hn. fold op in Hn.
        replace (op - 1) with o in Hn by lia. destruct Hjo. lia.
      * apply Hinv; [done|]. fold op. assert (o + 1 <> op) by congruence. lia.
    + rewrite !decide_False by congruence. by apply Hinv.
  - intros j Hj. rewrite Hso by done. destruct (decide (job = j)) as [<-|Hne].
    + intros Hr. replace (op + 1 - 1) with op by lia. rewrite Hend by done.
      rewrite decide_True by done.
      destruct Hes' as [->|[? ->]]; [|lia].
      rewrite aget_aset_same; [lia|]. rewrite (inv_len_es _ _ _ Hinv). lia.
    + intros Hr. rewrite Hesj by done.
      rewrite Hend by (unfold in_table; lia).
      rewrite decide_False by congruence. by apply Hinv.
  - intros j1 o1 j2 o2 H1 H2 Hne.
    rewrite (Hso j1) by apply H1. rewrite (Hso j2) by apply H2.
    rewrite !Hend, !Hop by done. intros Ho1 Ho2.
    assert (Hold : forall j o, in_table p j o -> (j, o) <> (job, op) ->
              o < (if decide (job = j) then op + 1 else so.[j]) -> o < so.[j]).
    { intros j o Hjo Hn. destruct (decide (job = j)) as [<-|]; [|done]. fold op.
      assert (o <> op) by congruence. lia. }
    assert (Hnew : forall j o, in_table p j o -> (j, o) <> (job, op) ->
              o < so.[j] -> Op.machine (job_op p j o) = m ->
              overlaps t (t + d) (Op.start_time (job_op p j o)) (op_end p (j, o)) = false).
    { intros j o Hjo Hn Ho Hm. specialize (Hfree j o Hjo).
      unfold conflict, committed_on in Hfree. simpl in Hfree.
      pose proof (inv_done _ _ _ Hinv j o Hjo Ho) as Hs.
      apply andb_false_iff in Hfree as [Hfree|Hfree]; [|done].
      apply andb_false_iff in Hfree as [Hfree|Hfree].
      - apply negb_false_iff, Z.eqb_eq in Hfree. lia.
      - apply Z.eqb_neq in Hfree. done. }
    destruct (decide ((j1, o1) = (job, op))) as [E1|N1];
      destruct (decide ((j2, o2) = (job, op))) as [E2|N2]; simpl.
    + congruence.
    + intros Hm. apply Hnew; try done. by apply Hold.
    + intros Hm. rewrite overlaps_sym. apply Hnew; try done. by apply Hold.
    + intros Hm. apply Hinv; try done; by apply Hold.
Qed.

(** ** Counting the scheduled operations *)

Lemma seqZ_to_nat m n : seqZ m n = seqZ m (Z.of_nat (Z.to_nat n)).
Proof. unfold seqZ. by rewrite Nat2Z.id. Qed.

Lemma Zsum_cons x l : Zsum (x :: l) = x + Zsum l.
Proof. done. Qed.

Lemma Zsum_ext {A} (f g : A -> Z) (l : list A) :
  (forall j, j ∈ l -> g j = f j) -> Zsum (g <$> l) = Zsum (f <$> l).
Proof.
  induction l as [|x l IH]; intros Heq; [done|].
  rewrite !fmap_cons, !Zsum_cons, IH, (Heq x); [done | by left |].
  intros j Hj. apply Heq. by right.
Qed.

(** Raising one summand of a sum over distinct indices. *)
Lemma Zsum_raise {A} `{EqDecision A} (f g : A -> Z) (l : list A) (k : A) (d : Z) :
  NoDup l -> k ∈ l -> g k = f k + d -> (forall j, j ∈ l -> j <> k -> g j = f j) ->
  Zsum (g <$> l) = Zsum (f <$> l) + d.
Proof.
  intros Hnd Hin Hk Hother. induction l as [|x l IH]; [by inversion Hin|].
  apply NoDup_cons in Hnd as [Hx Hnd]. rewrite !fmap_cons, !Zsum_cons.
  destruct (decide (x = k)) as [->|Hne].
  - rewrite Hk, (Zsum_ext f g l); [lia|].
    intros j Hj. apply Hother; [by right|]. intros ->. done.
  - rewrite (Hother x) by (done || by left).
    rewrite IH; [lia | done | | ].
    + apply elem_of_cons in Hin as [->|Hin]; done.
    + intros j Hj. apply Hother. by right.
Qed.

Lemma Zsum_point (f g : Z -> Z) (l : list Z) (k : Z) :
  NoDup l -> k ∈ l -> g k = f k + 1 -> (forall j, j ∈ l -> j <> k -> g j = f j) ->
  Zsum (g <$> l) = Zsum (f <$> l) + 1.
Proof. apply Zsum_raise. Qed.

Lemma Zsum_bounds (f : Z -> Z) (n : Z) (l : list Z) :
  (forall j, j ∈ l -> 0 <= f j <= n) ->
  0 <= Zsum (f <$> l) <= Z.of_nat (length l) * n
  /\ (Zsum (f <$> l) = Z.of_nat (length l) * n -> forall j, j ∈ l -> f j = n).
Proof.
  induction l as [|x l IH]; intros Hb.
  - split; [simpl; lia|]. intros _ j Hj. by inversion Hj.
  - destruct IH as [IH1 IH2]; [intros j Hj; apply Hb; by right|].
    pose proof (Hb x (list_elem_of_here _ _)) as Hx.
    rewrite fmap_cons, Zsum_cons, length_cons. split; [lia|].
    intros Heq j Hj. apply elem_of_cons in Hj as [->|Hj]; [lia|].
    apply IH2; [lia | done].
Qed.

Lemma scheduled_total_incr so nj job :
  (Z.to_nat nj <= length so)%nat -> 0 <= job < nj ->
  scheduled_total (so.[job <- so.[job] + 1]) nj = scheduled_total so nj + 1.
Proof.
  intros Hlen Hj. unfold scheduled_total.
  apply (Zsum_point (fun j => so.[j]) _ _ job).
  - apply NoDup_seqZ.
  - apply elem_of_seqZ. lia.
  - apply aget_aset_same. lia.
  - intros j Hin Hne. apply elem_of_seqZ in Hin. apply aget_aset_other; lia.
Qed.

Section scheduled_total.
Variables (so : list Z) (nj nops : Z).
Hypothesis (Hnj : 0 <= nj).
Hypothesis (Hso : forall job, 0 <= job < nj -> 0 <= so.[job] <= nops).

Lemma scheduled_total_le : 0 <= scheduled_total so nj <= nj * nops.
Proof.
  unfold scheduled_total.
  destruct (Zsum_bounds (fun j => so.[j]) nops (seqZ 0 nj)) as [Hb _].
  - intros j Hin. apply elem_of_seqZ in Hin. apply Hso. lia.
  - rewrite length_seqZ, Z2Nat.id in Hb by lia. lia.
Qed.

Lemma scheduled_total_full job :
  nj * nops <= scheduled_total so nj -> 0 <= job < nj -> so.[job] = nops.
Proof.
  intros Hfull Hj. pose proof scheduled_total_le as Hle. unfold scheduled_total in *.
  destruct (Zsum_bounds (fun j => so.[j]) nops (seqZ 0 nj)) as [_ Hb].
  - intros j Hin. apply elem_of_seqZ in Hin. apply Hso. lia.
  - rewrite length_seqZ, Z2Nat.id in Hb by lia.
    apply (Hb ltac:(lia) job). apply elem_of_seqZ. lia.
Qed.

Lemma scheduled_total_pending :
  scheduled_total so nj < nj * nops -> exists job, 0 <= job < nj /\ so.[job] < nops.
Proof.
  intros Hlt. unfold scheduled_total in Hlt.
  assert (Hex : Exists (fun j => so.[j] < nops) (seqZ 0 nj)).
  { destruct (decide (Exists (fun j => so.[j] < nops) (seqZ 0 nj))) as [|Hno]; [done|].
    exfalso. rewrite Exists_exists in Hno.
    assert (forall j, j ∈ seqZ 0 nj -> so.[j] = nops) as Heq.
    { intros j Hin. destruct (decide (so.[j] < nops)) as [Hl|Hl].
      - exfalso. apply Hno. by exists j.
      - apply elem_of_seqZ in Hin. pose proof (Hso j ltac:(lia)). lia. }
    rewrite (Zsum_ext (fun _ => nops)) in Hlt by done.
    assert (Zsum ((fun _ => nops) <$> seqZ 0 nj) = Z.of_nat (length (seqZ 0 nj)) * nops) as Hs.
    { clear. induction (seqZ 0 nj) as [|x l IH]; [done|].
      rewrite fmap_cons, Zsum_cons, length_cons, IH. lia. }
    rewrite Hs, length_seqZ, Z2Nat.id in Hlt by lia. lia. }
  apply Exists_exists in Hex as (job & Hin & Hjob). apply elem_of_seqZ in Hin.
  exists job. split; [lia | done].
Qed.
End scheduled_total.

Lemma Zsum_mono {A} (f g : A -> Z) (l : list A) :
  (forall j, j ∈ l -> f j <= g j) -> Zsum (f <$> l) <= Zsum (g <$> l).
Proof.
  induction l as [|x l IH]; intros Hle; [done|].
  rewrite !fmap_cons, !Zsum_cons.
  pose proof (Hle x ltac:(by left)). pose proof (IH (fun j Hj => Hle j ltac:(by right))). lia.
Qed.

Lemma Zsum_mono_strict {A} (f g : A -> Z) (l : list A) (k : A) :
  (forall j, j ∈ l -> f j <= g j) -> k ∈ l -> f k < g k ->
  Zsum (f <$> l) < Zsum (g <$> l).
Proof.
  induction l as [|x l IH]; intros Hle Hin Hk; [by inversion Hin|].
  rewrite !fmap_cons, !Zsum_cons.
  pose proof (Hle x ltac:(by left)) as Hx.
  pose proof (Zsum_mono f g l (fun j Hj => Hle j ltac:(by right))) as Hl.
  apply elem_of_cons in Hin as [<-|Hin]; [lia|].
  pose proof (IH (fun j Hj => Hle j ltac:(by right)) Hin Hk). lia.
Qed.

Lemma scheduled_total_lt so so' nj job :
  (forall j, 0 <= j < nj -> so.[j] <= so'.[j]) -> 0 <= job < nj -> so.[job] < so'.[job] ->
  scheduled_total so nj < scheduled_total so' nj.
Proof.
  intros Hle Hj Hlt. unfold scheduled_total.
  apply (Zsum_mono_strict (fun j => so.[j]) (fun j => so'.[j]) _ job).
  - intros j Hin. apply elem_of_seqZ in Hin. apply Hle. lia.
  - apply elem_of_seqZ. lia.
  - done.
Qed.

Lemma scheduled_total_init nj :
  0 <= nj <= MAX_JOBS -> scheduled_total (replicate (Z.to_nat MAX_JOBS) 0) nj = 0.
Proof.
  intros Hnj. unfold scheduled_total.
  assert (forall j, j ∈ seqZ 0 nj -> (replicate (Z.to_nat MAX_JOBS) 0).[j] = 0) as Hz.
  { intros j Hin. apply elem_of_seqZ in Hin. unfold aget.
    apply list_lookup_total_correct, lookup_replicate_2. lia. }
  rewrite (Zsum_ext (fun _ => 0)) by done.
  clear. induction (seqZ 0 nj) as [|x l IH]; [done|].
  by rewrite fmap_cons, Zsum_cons, IH.
Qed.

(** ** The sequential scheduler *)

Section select_job.
Import Sequential.
Variable st : State.

Lemma select_job_upto : select_job st = select_upto st (Z.to_nat (num_jobs (problem st))).
Proof. unfold select_job, select_upto. by rewrite <- seqZ_to_nat. Qed.

(** State of the scan after the first [n] jobs: nothing taken and no
    eligible job below the sentinel so far, or the first eligible job with
    the least earliest start so far. *)
Lemma select_upto_spec (n : nat) :
  let '(earliest_job, earliest_time) := select_upto st n in
  (earliest_job = -1 /\ earliest_time = 999999
   /\ forall job, 0 <= job < Z.of_nat n -> eligible st job ->
        999999 <= (earliest_starts st).[job])
  \/ (0 <= earliest_job < Z.of_nat n /\ eligible st earliest_job
      /\ earliest_time = (earliest_starts st).[earliest_job]
      /\ earliest_time < 999999
      /\ (forall job, 0 <= job < Z.of_nat n -> eligible st job ->
            (earliest_starts st).[earliest_job] <= (earliest_starts st).[job])
      /\ (forall job, 0 <= job < earliest_job -> eligible st job ->
            (earliest_starts st).[earliest_job] < (earliest_starts st).[job])).
Proof.
  induction n as [|n IH].
  - left. repeat split; try done. intros job Hj. lia.
  - unfold select_upto in *. rewrite seqZ_S, fold_left_app. simpl.
    destruct (fold_left _ (seqZ 0 (Z.of_nat n)) _) as [ej et].
    rewrite Z.add_0_l. unfold eligible in *.
    destruct (Z.ltb_spec (scheduled_ops st).[Z.of_nat n] (num_operations (problem st)))
      as [Hel|Hel];
      [destruct (Z.ltb_spec (earliest_starts st).[Z.of_nat n] et) as [Hlt|Hge]|].
    + (* job n is taken *)
      right. destruct IH as [(_ & -> & IH)|(_ & _ & -> & Hs & IH & _)].
      * repeat split; try lia; try done.
        -- intros job Hj Hjob. destruct (decide (job = Z.of_nat n)) as [->|Hne]; [lia|].
           specialize (IH job ltac:(lia) Hjob). lia.
        -- intros job Hj Hjob. specialize (IH job Hj Hjob). lia.
      * repeat split; try lia; try done.
        -- intros job Hj Hjob. destruct (decide (job = Z.of_nat n)) as [->|Hne]; [lia|].
           specialize (IH job ltac:(lia) Hjob). lia.
        -- intros job Hj Hjob. specialize (IH job Hj Hjob). lia.
    + (* job n is eligible but not earlier *)
      destruct IH as [(-> & -> & IH)|(Hr & He & -> & Hs & IH1 & IH2)].
      * left. repeat split; try done. intros job Hj Hjob.
        destruct (decide (job = Z.of_nat n)) as [->|Hne]; [lia | apply IH; [lia | done]].
      * right. repeat split; try lia; try done. intros job Hj Hjob.
        destruct (decide (job = Z.of_nat n)) as [->|Hne]; [lia | apply IH1; [lia | done]].
    + (* job n is finished *)
      destruct IH as [(-> & -> & IH)|(Hr & He & -> & Hs & IH1 & IH2)].
      * left. repeat split; try done. intros job Hj Hjob.
        destruct (decide (job = Z.of_nat n)) as [->|Hne]; [lia | apply IH; [lia | done]].
      * right. repeat split; try lia; try done. intros job Hj Hjob.
        destruct (decide (job = Z.of_nat n)) as [->|Hne]; [lia | apply IH1; [lia | done]].
Qed.

Lemma select_job_spec :
  let '(earliest_job, earliest_time) := select_job st in
  (earliest_job = -1
   /\ forall job, 0 <= job < num_jobs (problem st) -> eligible st job ->
        999999 <= (earliest_starts st).[job])
  \/ (0 <= earliest_job < num_jobs (problem st) /\ eligible st earliest_job
      /\ (forall job, 0 <= job < num_jobs (problem st) -> eligible st job ->
            (earliest_starts st).[earliest_job] <= (earliest_starts st).[job])
      /\ (forall job, 0 <= job < earliest_job -> eligible st job ->
            (earliest_starts st).[earliest_job] < (earliest_starts st).[job])).
Proof.
  rewrite select_job_upto.
  pose proof (select_upto_spec (Z.to_nat (num_jobs (problem st)))) as H.
  destruct (select_upto st _) as [ej et].
  destruct H as [(-> & _ & H)|(Hr & He & _ & _ & H1 & H2)].
  - left. split; [done|]. intros job Hj. apply H. lia.
  - right. repeat split; try lia; try done. intros job Hj. apply H1. lia.
Qed.
End select_job.

Lemma sched_inv_complete p so es :
  sched_inv p so es ->
  (forall job, 0 <= job < num_jobs p -> so.[job] = num_operations p) ->
  schedule_ok p.
Proof.
  intros Hinv Hall. split; [|split].
  - intros job op Hin. apply (inv_done _ _ _ Hinv); [done|].
    rewrite Hall by apply Hin. apply Hin.
  - intros job op Hin Hin'. apply (inv_prec _ _ _ Hinv); [done|].
    rewrite Hall by apply Hin. apply Hin'.
  - intros job1 op1 job2 op2 H1 H2 Hne Hm. apply (inv_excl _ _ _ Hinv); try done.
    + rewrite Hall by apply H1. apply H1.
    + rewrite Hall by apply H2. apply H2.
Qed.

Section sched_inv_count.
Variables (p : JobShopProblem) (so es : list Z).
Hypothesis Hinv : sched_inv p so es.

Lemma num_jobs_nonneg : 0 <= num_jobs p <= MAX_JOBS.
Proof. apply (inv_wf _ _ _ Hinv). Qed.

Lemma num_operations_nonneg : 0 <= num_operations p <= MAX_OPERATIONS.
Proof. apply (inv_wf _ _ _ Hinv). Qed.

Lemma sched_total_le :
  0 <= scheduled_total so (num_jobs p) <= num_jobs p * num_operations p.
Proof. apply scheduled_total_le; [apply num_jobs_nonneg | apply (inv_so _ _ _ Hinv)]. Qed.

Lemma sched_total_full job :
  num_jobs p * num_operations p <= scheduled_total so (num_jobs p) ->
  0 <= job < num_jobs p -> so.[job] = num_operations p.
Proof. apply scheduled_total_full; [apply num_jobs_nonneg | apply (inv_so _ _ _ Hinv)]. Qed.

Lemma sched_total_pending :
  scheduled_total so (num_jobs p) < num_jobs p * num_operations p ->
  exists job, 0 <= job < num_jobs p /\ so.[job] < num_operations p.
Proof. apply scheduled_total_pending; [apply num_jobs_nonneg | apply (inv_so _ _ _ Hinv)]. Qed.

Lemma sched_total_incr job :
  0 <= job < num_jobs p ->
  scheduled_total (so.[job <- so.[job] + 1]) (num_jobs p)
  = scheduled_total so (num_jobs p) + 1.
Proof.
  intros Hj. apply scheduled_total_incr; [|done].
  rewrite (inv_len_so _ _ _ Hinv). pose proof num_jobs_nonneg. lia.
Qed.
End sched_inv_count.

Section sequential.
Import Sequential.

Lemma seq_inv_init p : valid_problem p -> seq_inv (init p).
Proof.
  intros Hv. split; simpl.
  - by apply sched_inv_init.
  - symmetry. apply scheduled_total_init. apply Hv.
Qed.

(** One pass of the loop body on an eligible job. *)
Lemma schedule_step_inv st job :
  seq_inv st -> 0 <= job < num_jobs (problem st) -> eligible st job ->
  exists st', schedule_step st job = Some st' /\ seq_inv st'
    /\ scheduled_count st' = scheduled_count st + 1
    /\ num_jobs (problem st') = num_jobs (problem st)
    /\ num_operations (problem st') = num_operations (problem st).
Proof.
  intros [Hinv Hcount] Hjob Hel. unfold eligible in Hel. unfold schedule_step.
  destruct (find_available_time_returns (problem st)
              (Op.machine (job_op (problem st) job (scheduled_ops st).[job]))
              (Op.duration (job_op (problem st) job (scheduled_ops st).[job]))
              (earliest_starts st).[job]) as [t Ht].
  rewrite Ht. simpl. eexists. split; [done|].
  pose proof (inv_wf _ _ _ Hinv) as Hwf.
  assert (Hlen : (Z.to_nat job < length (scheduled_ops st))%nat).
  { rewrite (inv_len_so _ _ _ Hinv). destruct Hwf. lia. }
  split; [split|]; simpl.
  - eapply sched_inv_commit; try done.
    rewrite aget_aset_same by done.
    destruct (Z.ltb_spec ((scheduled_ops st).[job] + 1) (num_operations (problem st)));
      [by left | right; split; [lia | done]].
  - rewrite (sched_total_incr _ _ _ Hinv) by done. lia.
  - done.
Qed.

(** The loop returns with the fuel [total_ops - scheduled_count]; it ends
    with everything scheduled or by the [break]. *)
Lemma schedule_loop_returns fuel st :
  seq_inv st -> total_ops (problem st) - scheduled_count st <= Z.of_nat fuel ->
  exists st', schedule_loop fuel st = Some st' /\ seq_inv st'
    /\ num_jobs (problem st') = num_jobs (problem st)
    /\ num_operations (problem st') = num_operations (problem st)
    /\ (completed st' \/ stopped_early st').
Proof.
  revert st. induction fuel as [|fuel IH]; intros st Hinv Hfuel.
  - simpl. pose proof (sched_total_le _ _ _ (si_sched _ Hinv)) as Hle.
    pose proof (si_count _ Hinv) as Hc.
    destruct (Z.ltb_spec (scheduled_count st) (total_ops (problem st))); [lia|].
    exists st. split_and!; try done. left. unfold completed, total_ops in *. lia.
  - simpl. destruct (Z.ltb_spec (scheduled_count st) (total_ops (problem st))) as [Hlt|Hge].
    + pose proof (select_job_spec st) as Hsel.
      destruct (select_job st) as [ej et] eqn:Hsj. simpl.
      destruct Hsel as [(-> & Hnone)|(Hr & He & _)].
      * simpl. exists st. split_and!; try done. right.
        split; [done|]. by rewrite Hsj.
      * destruct (Z.eqb_spec ej (-1)) as [->|_]; [lia|].
        destruct (schedule_step_inv st ej Hinv Hr He) as (st1 & Hstep & Hinv1 & Hc1 & Hj1 & Ho1).
        rewrite Hstep. simpl.
        destruct (IH st1 Hinv1) as (st' & Hloop & Hinv' & Hj' & Ho' & Hend).
        { unfold total_ops in *. rewrite Hj1, Ho1. lia. }
        exists st'. split_and!; try done; congruence.
    + pose proof (sched_total_le _ _ _ (si_sched _ Hinv)) as Hle.
      pose proof (si_count _ Hinv) as Hc.
      exists st. split_and!; try done. left. unfold completed, total_ops in *. lia.
Qed.

(** Once everything is counted as scheduled, the schedule is complete and valid. *)
Lemma completed_schedule_ok st :
  seq_inv st -> completed st -> schedule_ok (problem st).
Proof.
  intros [Hs Hc] Hdone. apply (sched_inv_complete _ _ _ Hs).
  intros job Hj. apply (sched_total_full _ _ _ Hs); [|done].
  unfold completed, total_ops in Hdone. lia.
Qed.

(** The run of the scheduler on a valid problem returns. *)
Lemma schedule_jobs_sequential_returns p :
  valid_problem p ->
  exists st, schedule_jobs_sequential p = Some st /\ seq_inv st
    /\ num_jobs (problem st) = num_jobs p
    /\ num_operations (problem st) = num_operations p
    /\ (completed st \/ stopped_early st).
Proof.
  intros Hv. apply (schedule_loop_returns _ (init p)).
  - by apply seq_inv_init.
  - simpl. destruct (vp_wf _ Hv). unfold total_ops. lia.
Qed.

Lemma reachable_inv p st : valid_problem p -> reachable p st -> seq_inv st.
Proof.
  intros Hv Hr. induction Hr as [|st st' Hr IH Hlt Hsel Hstep]; [by apply seq_inv_init|].
  pose proof (select_job_spec st) as Hspec.
  destruct (select_job st) as [ej et]. simpl in *.
  destruct Hspec as [(-> & _)|(Hrange & Hel & _)]; [done|].
  destruct (schedule_step_inv st ej IH Hrange Hel) as (st1 & Hstep1 & Hinv1 & _).
  congruence.
Qed.

End sequential.

(** ** The thread-coordinated scheduler *)

Section assign_job.
Variables (p : JobShopProblem) (job thread : Z).
Hypothesis (Hjob : 0 <= job < MAX_JOBS) (Hops : num_operations p <= MAX_OPERATIONS).

Lemma assign_ops_spec (ops : list Z) (a : list (list Z)) :
  table_shape a -> (forall op, op ∈ ops -> 0 <= op < MAX_OPERATIONS) ->
  let a' := fold_left (fun a op => a.[job <- a.[job].[op <- thread]]) ops a in
  table_shape a'
  /\ forall job' op', 0 <= job' < MAX_JOBS -> 0 <= op' < MAX_OPERATIONS ->
       a'.[job'].[op'] = if decide (job' = job /\ op' ∈ ops) then thread else a.[job'].[op'].
Proof.
  revert a. induction ops as [|op ops IH]; intros a Hshape Hrange; cbn [fold_left].
  - split; [done|]. intros job' op' _ _. rewrite decide_False; [done|].
    intros [_ Hin]. by inversion Hin.
  - assert (Hop : 0 <= op < MAX_OPERATIONS) by (apply Hrange; by left).
    destruct Hshape as [Hlen Hrows].
    assert (Hshape1 : table_shape (a.[job <- a.[job].[op <- thread]])).
    { split; [by rewrite length_aset|]. intros j Hj.
      destruct (decide (job = j)) as [<-|Hne].
      - rewrite aget_aset_same by lia. rewrite length_aset. by apply Hrows.
      - rewrite aget_aset_other by lia. by apply Hrows. }
    destruct (IH _ Hshape1) as [Hshape' Hval]; [intros o Ho; apply Hrange; by right|].
    split; [done|]. intros job' op' Hj' Ho'. rewrite Hval by done.
    destruct (decide (job' = job)) as [->|Hne].
    + rewrite aget_aset_same by lia.
      destruct (decide (op' = op)) as [->|Hne'].
      * rewrite aget_aset_same by (rewrite Hrows by done; lia).
        rewrite (decide_True (P := job = job /\ op ∈ op :: ops)) by (split; [done | by left]).
        by destruct (decide _).
      * rewrite aget_aset_other by lia.
        destruct (decide (job = job /\ op' ∈ ops)) as [[_ Hin]|Hn].
        -- rewrite decide_True; [done|]. split; [done | by right].
        -- rewrite decide_False; [done|]. intros [_ Hin].
           apply elem_of_cons in Hin as [?|?]; [done|]. by apply Hn.
    + rewrite aget_aset_other by lia.
      rewrite !decide_False; [done | by intros [? _] | by intros [? _]].
Qed.

Lemma assign_job_spec (a : list (list Z)) :
  table_shape a ->
  table_shape (Parallel.assign_job p a job thread)
  /\ forall job' op', 0 <= job' < MAX_JOBS -> 0 <= op' < MAX_OPERATIONS ->
       (Parallel.assign_job p a job thread).[job'].[op']
       = if decide (job' = job /\ 0 <= op' < num_operations p)
         then thread else a.[job'].[op'].
Proof.
  intros Hshape. unfold Parallel.assign_job.
  destruct (assign_ops_spec (seqZ 0 (num_operations p)) a Hshape) as [Hs Hv].
  { intros op Hin. apply elem_of_seqZ in Hin. lia. }
  split; [done|]. intros job' op' Hj' Ho'. rewrite Hv by done.
  destruct (decide (job' = job /\ op' ∈ seqZ 0 (num_operations p))) as [[? Hin]|Hn].
  - apply elem_of_seqZ in Hin. rewrite decide_True; [done | lia].
  - rewrite decide_False; [done|]. intros [? ?]. apply Hn. split; [done|].
    apply elem_of_seqZ. lia.
Qed.
End assign_job.

Section parallel.
Import Parallel.

Lemma table_shape_init :
  table_shape (replicate (Z.to_nat MAX_JOBS) (replicate (Z.to_nat MAX_OPERATIONS) 0)).
Proof.
  split; [by rewrite length_replicate|]. intros job Hj. unfold aget.
  erewrite list_lookup_total_correct; [|apply lookup_replicate_2; lia].
  by rewrite length_replicate.
Qed.

(** The assignment loop gives job [j] to thread [j % num_threads]. *)
Lemma init_owner num_threads p (n : nat) :
  well_formed p -> Z.of_nat n <= num_jobs p ->
  let a := fold_left (fun a job => assign_job p a job (Z.rem job num_threads))
             (seqZ 0 (Z.of_nat n))
             (replicate (Z.to_nat MAX_JOBS) (replicate (Z.to_nat MAX_OPERATIONS) 0)) in
  table_shape a
  /\ forall job op, 0 <= job < Z.of_nat n -> 0 <= op < num_operations p ->
       a.[job].[op] = Z.rem job num_threads.
Proof.
  intros Hwf. induction n as [|n IH]; intros Hn.
  - split; [apply table_shape_init | intros; lia].
  - rewrite seqZ_S, fold_left_app. cbn [fold_left]. rewrite Z.add_0_l.
    destruct IH as [Hshape Hval]; [lia|].
    destruct (assign_job_spec p (Z.of_nat n) (Z.rem (Z.of_nat n) num_threads)
                ltac:(destruct Hwf; lia) ltac:(destruct Hwf; lia) _ Hshape) as [Hs' Hv'].
    split; [done|]. intros job op Hj Ho. destruct Hwf as [Hnj Hno _ _].
    cbv zeta. rewrite Hv' by lia.
    destruct (decide (job = Z.of_nat n)) as [->|Hne].
    + rewrite decide_True; [done | lia].
    + rewrite decide_False by (intros [? _]; done). apply Hval; lia.
Qed.

Lemma par_inv_init num_threads p :
  valid_problem p -> 1 <= num_threads -> par_inv num_threads (init num_threads p).
Proof.
  intros Hv HT. pose proof (vp_wf _ Hv) as Hwf.
  destruct (init_owner num_threads p (Z.to_nat (num_jobs p)) Hwf) as [Hshape Hval].
  { destruct Hwf. lia. }
  rewrite <- seqZ_to_nat in Hshape, Hval.
  split; simpl.
  - by apply sched_inv_init.
  - symmetry. apply scheduled_total_init. apply Hwf.
  - done.
  - intros job Hj Hops. rewrite Hval by lia.
    pose proof (Z.rem_bound_pos job num_threads). lia.
Qed.

Lemma same_frame_refl st : same_frame st st.
Proof. by repeat split. Qed.

Lemma same_frame_trans st1 st2 st3 :
  same_frame st1 st2 -> same_frame st2 st3 -> same_frame st1 st3.
Proof. intros (?&?&?&?) (?&?&?&?). repeat split; congruence. Qed.

Lemma par_inv_frame num_threads st st' :
  par_inv num_threads st ->
  problem st' = problem st -> scheduled_ops st' = scheduled_ops st ->
  earliest_starts st' = earliest_starts st -> op_assigned st' = op_assigned st ->
  assigned_count st' = assigned_count st ->
  par_inv num_threads st'.
Proof. intros [? ? ? ?] Hp Hso Hes Hoa Hac. split; rewrite ?Hp, ?Hso, ?Hes, ?Hoa, ?Hac; done. Qed.

(** Scheduling the next operation of a job that has one. *)
Lemma schedule_operation_inv num_threads st job :
  par_inv num_threads st -> 0 <= job < num_jobs (problem st) ->
  (scheduled_ops st).[job] < num_operations (problem st) ->
  exists st', schedule_operation st job (scheduled_ops st).[job] = Some st'
    /\ par_inv num_threads st' /\ same_frame st st'
    /\ thread_worked st' = thread_worked st
    /\ scheduled_ops st' = (scheduled_ops st).[job <- (scheduled_ops st).[job] + 1]
    /\ assigned_count st' = assigned_count st + 1.
Proof.
  intros [Hinv Hcount Hshape Howner] Hjob Hlt. unfold schedule_operation.
  destruct (find_available_time_returns (problem st)
              (Op.machine (job_op (problem st) job (scheduled_ops st).[job]))
              (Op.duration (job_op (problem st) job (scheduled_ops st).[job]))
              (earliest_starts st).[job]) as [t Ht].
  rewrite Ht. simpl. eexists. split; [done|]. split_and!; try done.
  split; simpl; try done.
  - eapply sched_inv_commit; try done. by left.
  - rewrite (sched_total_incr _ _ _ Hinv) by done. lia.
Qed.

(** The value of [scheduled_ops[job]] after an update at [k]. *)
Lemma scheduled_ops_after num_threads st k job :
  par_inv num_threads st -> 0 <= k < num_jobs (problem st) ->
  0 <= job < num_jobs (problem st) ->
  (scheduled_ops st).[k <- (scheduled_ops st).[k] + 1].[job]
  = (scheduled_ops st).[job] + (if decide (job = k) then 1 else 0).
Proof.
  intros Hinv Hk Hjob. rewrite aget_aset; [| lia | lia |].
  - destruct (decide (k = job)) as [->|Hne].
    + by rewrite decide_True.
    + rewrite decide_False by done. lia.
  - rewrite (inv_len_so _ _ _ (pi_sched _ _ Hinv)).
    pose proof (num_jobs_nonneg _ _ _ (pi_sched _ _ Hinv)). lia.
Qed.

Lemma critical_section_upto thread_id st :
  critical_section thread_id st
  = critical_upto thread_id st (Z.to_nat (num_jobs (problem st))).
Proof. unfold critical_section, critical_upto. by rewrite <- seqZ_to_nat. Qed.

(** The critical section after the first [n] jobs: every job of the thread
    that had an operation left has advanced by exactly one. *)
Lemma critical_upto_spec num_threads thread_id st (n : nat) :
  par_inv num_threads st -> Z.of_nat n <= num_jobs (problem st) ->
  exists st' thread_scheduled c,
    critical_upto thread_id st n = Some (st', thread_scheduled, c)
    /\ par_inv num_threads st' /\ same_frame st st'
    /\ thread_worked st' = thread_worked st
    /\ (forall job, 0 <= job < num_jobs (problem st) ->
          (scheduled_ops st').[job]
          = (scheduled_ops st).[job]
            + (if decide (job < Z.of_nat n /\ advances st thread_id job) then 1 else 0))
    /\ assigned_count st' = assigned_count st + c
    /\ ((thread_scheduled = 0 /\ c = 0) \/ (thread_scheduled = 1 /\ 0 < c)).
Proof.
  intros Hinv. induction n as [|n IH]; intros Hn.
  - exists st, 0, 0. split_and!; try done; try apply same_frame_refl; try lia; try (by left).
    intros job Hj. rewrite decide_False by lia. lia.
  - destruct IH as (st1 & ts & c & Hrun & Hinv1 & Hfr & Htw & Hso & Hac & Hts); [lia|].
    unfold critical_upto in *. rewrite seqZ_S, fold_left_app, Hrun. cbn [fold_left mbind option_bind].
    rewrite Z.add_0_l. destruct Hfr as (Hoa & Hit & Hnj & Hno).
    assert (Hjn : 0 <= Z.of_nat n < num_jobs (problem st)) by lia.
    assert (Hson : (scheduled_ops st1).[Z.of_nat n] = (scheduled_ops st).[Z.of_nat n]).
    { rewrite Hso by done. rewrite decide_False by lia. lia. }
    rewrite Hoa, Hno, Hson.
    destruct (Z.eqb_spec (op_assigned st).[Z.of_nat n].[0] thread_id) as [Hown|Hown];
      [destruct (Z.ltb_spec (scheduled_ops st).[Z.of_nat n] (num_operations (problem st)))
         as [Hlt|Hge]|].
    + (* the thread owns job n and schedules its next operation *)
      destruct (schedule_operation_inv num_threads st1 (Z.of_nat n) Hinv1)
        as (st2 & Hop & Hinv2 & (Hoa2 & Hit2 & Hnj2 & Hno2) & Htw2 & Hso2 & Hac2);
        [lia | lia |].
      rewrite Hson in Hop. rewrite Hop. simpl.
      exists st2, 1, (c + 1).
      split_and!; try done; try congruence; try (unfold same_frame; split_and!; congruence).
      * intros job Hj. rewrite Hso2.
        rewrite (scheduled_ops_after num_threads) by (done || lia).
        rewrite Hso by done.
        destruct (decide (job = Z.of_nat n)) as [->|Hne].
        -- rewrite decide_False by lia. rewrite decide_True; [lia|].
           split; [lia | by split].
        -- destruct (decide (job < Z.of_nat n /\ advances st thread_id job)) as [[? ?]|Hno'].
           ++ rewrite decide_True; [lia|]. split; [lia | done].
           ++ rewrite decide_False; [lia|]. intros [? ?]. apply Hno'. split; [lia | done].
      * lia.
      * right. split; [done|]. destruct Hts as [[_ ->]|[_ ?]]; lia.
    + (* job n of the thread is finished *)
      exists st1, ts, c.
      split_and!; try done; try (unfold same_frame; split_and!; congruence).
      intros job Hj. rewrite Hso by done.
      destruct (decide (job < Z.of_nat n /\ advances st thread_id job)) as [[? ?]|Hno'].
      * rewrite decide_True; [lia|]. split; [lia | done].
      * rewrite decide_False; [lia|]. intros [? [? ?]]. apply Hno'.
        split; [|by split]. destruct (decide (job = Z.of_nat n)) as [->|]; lia.
    + (* job n belongs to another thread *)
      exists st1, ts, c.
      split_and!; try done; try (unfold same_frame; split_and!; congruence).
      intros job Hj. rewrite Hso by done.
      destruct (decide (job < Z.of_nat n /\ advances st thread_id job)) as [[? ?]|Hno'].
      * rewrite decide_True; [lia|]. split; [lia | done].
      * rewrite decide_False; [lia|]. intros [? [? ?]]. apply Hno'.
        split; [|by split]. destruct (decide (job = Z.of_nat n)) as [->|]; [done | lia].
Qed.

Lemma critical_section_spec num_threads thread_id st :
  par_inv num_threads st ->
  exists st' thread_scheduled c,
    critical_section thread_id st = Some (st', thread_scheduled, c)
    /\ par_inv num_threads st' /\ same_frame st st'
    /\ thread_worked st' = thread_worked st
    /\ (forall job, 0 <= job < num_jobs (problem st) ->
          (scheduled_ops st').[job]
          = (scheduled_ops st).[job]
            + (if decide (advances st thread_id job) then 1 else 0))
    /\ assigned_count st' = assigned_count st + c
    /\ ((thread_scheduled = 0 /\ c = 0) \/ (thread_scheduled = 1 /\ 0 < c)).
Proof.
  intros Hinv. rewrite critical_section_upto.
  pose proof (num_jobs_nonneg _ _ _ (pi_sched _ _ Hinv)) as Hnj.
  destruct (critical_upto_spec num_threads thread_id st
              (Z.to_nat (num_jobs (problem st))) Hinv ltac:(lia))
    as (st' & ts & c & Hrun & Hinv' & Hfr & Htw & Hso & Hac & Hts).
  exists st', ts, c. split_and!; try done.
  intros job Hj. rewrite Hso by done.
  destruct (decide (advances st thread_id job)) as [Ha|Ha].
  - rewrite decide_True; [done|]. split; [lia | done].
  - rewrite decide_False; [done|]. by intros [_ ?].
Qed.

(** One parallel region, from any value of the reduction variable. *)
Lemma parallel_region_from num_threads (team : list Z) st c0 :
  par_inv num_threads st ->
  exists st' n,
    fold_left
      (fun acc thread_id =>
         '(st, scheduled_this_iteration) ← acc;
         '(st', thread_scheduled, n) ← critical_section thread_id st;
         let worked :=
           if thread_scheduled =? 0 then thread_worked st'
           else (thread_worked st').[thread_id <- 1] in
         Some (mkState (problem st') (scheduled_ops st') (earliest_starts st')
                 (op_assigned st') (assigned_count st') (iteration_count st') worked,
               scheduled_this_iteration + n))
      team (Some (st, c0)) = Some (st', n)
    /\ par_inv num_threads st' /\ same_frame st st'
    /\ (forall job, 0 <= job < num_jobs (problem st) ->
          (scheduled_ops st).[job] <= (scheduled_ops st').[job])
    /\ (forall job, 0 <= job < num_jobs (problem st) ->
          (scheduled_ops st).[job] < num_operations (problem st) ->
          (op_assigned st).[job].[0] ∈ team ->
          (scheduled_ops st).[job] < (scheduled_ops st').[job])
    /\ n = c0 + (assigned_count st' - assigned_count st).
Proof.
  revert st c0. induction team as [|t team IH]; intros st c0 Hinv; cbn [fold_left].
  - exists st, c0. split_and!; try done; try apply same_frame_refl; try lia.
    intros job _ _ Hin. by inversion Hin.
  - destruct (critical_section_spec num_threads t st Hinv)
      as (st1 & ts & c & Hcs & Hinv1 & Hfr1 & Htw1 & Hso1 & Hac1 & Hts).
    cbn [mbind option_bind]. rewrite Hcs. cbn [mbind option_bind].
    set (st1' := mkState (problem st1) (scheduled_ops st1) (earliest_starts st1)
                   (op_assigned st1) (assigned_count st1) (iteration_count st1)
                   (if ts =? 0 then thread_worked st1 else (thread_worked st1).[t <- 1])).
    assert (Hinv1' : par_inv num_threads st1') by (by apply (par_inv_frame _ st1)).
    destruct (IH st1' (c0 + c) Hinv1') as (st' & n & Hrun & Hinv' & Hfr' & Hmono & Hstrict & Hn).
    exists st', n. split; [done|]. destruct Hfr1 as (Hoa1 & Hit1 & Hnj1 & Hno1).
    assert (Hfr : same_frame st st').
    { apply (same_frame_trans _ st1'); [|done]. by repeat split. }
    assert (Hstep : forall job, 0 <= job < num_jobs (problem st) ->
              (scheduled_ops st).[job] <= (scheduled_ops st1).[job]).
    { intros job Hj. rewrite Hso1 by done. destruct (decide _); lia. }
    split_and!; try done.
    + intros job Hj. specialize (Hmono job). simpl in Hmono.
      specialize (Hmono ltac:(lia)). specialize (Hstep job Hj). lia.
    + intros job Hj Hlt Hin. specialize (Hmono job). simpl in Hmono.
      specialize (Hmono ltac:(lia)).
      destruct (decide ((op_assigned st).[job].[0] = t)) as [Ht|Ht].
      * specialize (Hso1 job Hj). rewrite decide_True in Hso1 by by split. lia.
      * apply elem_of_cons in Hin as [?|Hin]; [done|].
        destruct (decide ((scheduled_ops st1).[job] < num_operations (problem st1))) as [Hl|Hl].
        -- specialize (Hstrict job). simpl in Hstrict. rewrite Hoa1 in Hstrict.
           specialize (Hstrict ltac:(lia) Hl Hin). specialize (Hstep job Hj). lia.
        -- lia.
    + simpl in Hn. lia.
Qed.

Lemma parallel_region_spec num_threads (team : list Z) st :
  par_inv num_threads st ->
  exists st' n, parallel_region team st = Some (st', n)
    /\ par_inv num_threads st' /\ same_frame st st'
    /\ n = assigned_count st' - assigned_count st
    /\ 0 <= n
    /\ (forall job, 0 <= job < num_jobs (problem st) ->
          (scheduled_ops st).[job] < num_operations (problem st) ->
          (op_assigned st).[job].[0] ∈ team -> 0 < n).
Proof.
  intros Hinv.
  destruct (parallel_region_from num_threads team st 0 Hinv)
    as (st' & n & Hrun & Hinv' & Hfr & Hmono & Hstrict & Hn).
  exists st', n. split; [done|]. split_and!; try done; try lia.
  - rewrite (pi_count _ _ Hinv), (pi_count _ _ Hinv') in Hn.
    destruct Hfr as (_ & _ & Hnj & _). rewrite Hnj in Hn.
    assert (scheduled_total (scheduled_ops st) (num_jobs (problem st))
            <= scheduled_total (scheduled_ops st') (num_jobs (problem st))); [|lia].
    unfold scheduled_total. apply Zsum_mono. intros j Hin.
    apply elem_of_seqZ in Hin. apply Hmono. lia.
  - intros job Hj Hlt Hin. specialize (Hstrict job Hj Hlt Hin).
    rewrite (pi_count _ _ Hinv), (pi_count _ _ Hinv') in Hn.
    destruct Hfr as (_ & _ & Hnj & _). rewrite Hnj in Hn.
    pose proof (scheduled_total_lt _ _ _ job Hmono Hj Hstrict). lia.
Qed.

Lemma find_snoc {A} (f : A -> bool) (l : list A) (x : A) :
  List.find f (l ++ [x])
  = match List.find f l with
    | Some y => Some y
    | None => if f x then Some x else None
    end.
Proof. induction l as [|y l IH]; simpl; [done|]. by destruct (f y). Qed.

(** [find_idle] yields the idle thread with the least number. *)
Lemma find_idle_spec num_threads (worked : list Z) :
  match find_idle num_threads worked with
  | Some t => 0 <= t < num_threads /\ worked.[t] = 0
              /\ forall t', 0 <= t' < t -> worked.[t'] <> 0
  | None => forall t', 0 <= t' < num_threads -> worked.[t'] <> 0
  end.
Proof.
  assert (Hpre : forall n : nat,
            match List.find (fun t => worked.[t] =? 0) (seqZ 0 (Z.of_nat n)) with
            | Some t => 0 <= t < Z.of_nat n /\ worked.[t] = 0
                        /\ forall t', 0 <= t' < t -> worked.[t'] <> 0
            | None => forall t', 0 <= t' < Z.of_nat n -> worked.[t'] <> 0
            end).
  { induction n as [|n IH].
    - simpl. intros t' Ht'. lia.
    - rewrite seqZ_S, find_snoc, Z.add_0_l.
      destruct (List.find _ (seqZ 0 (Z.of_nat n))) as [t|].
      + destruct IH as (Ht & Hw & Hmin). split_and!; try done; lia.
      + destruct (Z.eqb_spec worked.[Z.of_nat n] 0) as [Hz|Hnz].
        * split_and!; try done; try lia.
        * intros t' Ht'. destruct (decide (t' = Z.of_nat n)) as [->|Hne]; [done|].
          apply IH. lia. }
  unfold find_idle. rewrite seqZ_to_nat. specialize (Hpre (Z.to_nat num_threads)).
  destruct (List.find _ _) as [t|].
  - destruct Hpre as (Ht & Hw & Hmin). split_and!; try done; lia.
  - intros t' Ht'. apply Hpre. lia.
Qed.

Lemma redistribute_as_upto num_threads st :
  redistribute num_threads st
  = redistribute_upto num_threads st (Z.to_nat (num_jobs (problem st))).
Proof. unfold redistribute, redistribute_upto. by rewrite <- seqZ_to_nat. Qed.

Lemma par_inv_fits num_threads st : par_inv num_threads st -> fits_arrays st.
Proof.
  intros Hinv. split_and!; try apply (num_jobs_nonneg _ _ _ (pi_sched _ _ Hinv));
    try apply (num_operations_nonneg _ _ _ (pi_sched _ _ Hinv)); apply Hinv.
Qed.

Lemma redistribute_upto_spec num_threads st (n : nat) :
  fits_arrays st -> Z.of_nat n <= num_jobs (problem st) ->
  let '(st', all_jobs_assigned) := redistribute_upto num_threads st n in
  only_ownership st st' /\ table_shape (op_assigned st')
  /\ match find_idle num_threads (thread_worked st) with
     | None => op_assigned st' = op_assigned st /\ all_jobs_assigned = 1
     | Some t =>
         (forall job op, 0 <= job < MAX_JOBS -> 0 <= op < MAX_OPERATIONS ->
            (op_assigned st').[job].[op]
            = if decide (job < Z.of_nat n /\ stuck st job /\ op < num_operations (problem st))
              then t else (op_assigned st).[job].[op])
         /\ ((all_jobs_assigned = 0 /\ exists job, 0 <= job < Z.of_nat n /\ stuck st job)
             \/ (all_jobs_assigned = 1 /\ forall job, 0 <= job < Z.of_nat n -> ~ stuck st job))
     end.
Proof.
  intros (Hnj & Hno & Hshape0).
  induction n as [|n IH]; intros Hn.
  - simpl. split_and!; try done.
    destruct (find_idle _ _); [|done]. split.
    + intros job op Hj Ho. rewrite decide_False; [done | lia].
    + right. split; [done|]. intros; lia.
  - unfold redistribute_upto in *. rewrite seqZ_S, fold_left_app. cbn [fold_left].
    rewrite Z.add_0_l. specialize (IH ltac:(lia)).
    destruct (fold_left _ (seqZ 0 (Z.of_nat n)) _) as [st1 flag1].
    destruct IH as ((Hp & Hso & Hes & Hac & Hit & Htw) & Hshape & IH).
    rewrite Hp, Hso, Htw. unfold stuck in *.
    destruct (Z.ltb_spec (scheduled_ops st).[Z.of_nat n] (num_operations (problem st)))
      as [Hstuck|Hdone].
    + destruct (find_idle num_threads (thread_worked st)) as [t|].
      * destruct IH as [Hval Hflag].
        destruct (assign_job_spec (problem st) (Z.of_nat n) t ltac:(lia) ltac:(lia)
                    (op_assigned st1) Hshape) as [Hshape' Hval'].
        split_and!; try done; simpl.
        -- intros job op Hj Ho. rewrite Hval' by done. rewrite Hval by done.
           destruct (decide (job = Z.of_nat n /\ 0 <= op < num_operations (problem st)))
             as [[-> ?]|Hn1].
           ++ rewrite decide_True; [done | lia].
           ++ destruct (decide (job < Z.of_nat n /\ _)) as [(?&?&?)|Hn2].
              ** rewrite decide_True; [done | lia].
              ** rewrite decide_False; [done|]. intros (?&?&?).
                 destruct (decide (job = Z.of_nat n)) as [->|?]; [apply Hn1 | apply Hn2]; lia.
        -- left. split; [done|]. exists (Z.of_nat n). lia.
      * destruct IH as [Hoa Hflag]. split_and!; try done.
    + split_and!; try done. destruct (find_idle num_threads (thread_worked st)) as [t|]; [|done].
      destruct IH as [Hval Hflag]. split.
      * intros job op Hj Ho. rewrite Hval by done.
        destruct (decide (job < Z.of_nat n /\ _)) as [(?&?&?)|Hn2].
        -- rewrite decide_True; [done | lia].
        -- rewrite decide_False; [done|]. intros (?&?&?).
           destruct (decide (job = Z.of_nat n)) as [->|?]; [lia | apply Hn2; lia].
      * destruct Hflag as [[-> (job & Hj & Hst)]|[-> Hall]].
        -- left. split; [done|]. exists job. lia.
        -- right. split; [done|]. intros job Hj.
           destruct (decide (job = Z.of_nat n)) as [->|?]; [lia | apply Hall; lia].
Qed.

(** The whole pass: every stuck job goes to the first idle thread. *)
Lemma redistribute_fits num_threads st :
  fits_arrays st ->
  let '(st', all_jobs_assigned) := redistribute num_threads st in
  only_ownership st st' /\ table_shape (op_assigned st')
  /\ match find_idle num_threads (thread_worked st) with
     | None => op_assigned st' = op_assigned st /\ all_jobs_assigned = 1
     | Some t =>
         (forall job op, 0 <= job < num_jobs (problem st) ->
            0 <= op < MAX_OPERATIONS ->
            (op_assigned st').[job].[op]
            = if decide (stuck st job /\ op < num_operations (problem st))
              then t else (op_assigned st).[job].[op])
         /\ ((all_jobs_assigned = 0
              /\ exists job, 0 <= job < num_jobs (problem st) /\ stuck st job)
             \/ (all_jobs_assigned = 1
                 /\ forall job, 0 <= job < num_jobs (problem st) -> ~ stuck st job))
     end.
Proof.
  intros Hfits. rewrite redistribute_as_upto. pose proof Hfits as (Hnj & Hno & _).
  pose proof (redistribute_upto_spec num_threads st
                (Z.to_nat (num_jobs (problem st))) Hfits ltac:(lia)) as H.
  destruct (redistribute_upto _ _ _) as [st' flag].
  destruct H as (Honly & Hshape & H). rewrite Z2Nat.id in H by lia.
  split; [done|]. split; [done|].
  destruct (find_idle _ _) as [t|]; [|done]. destruct H as [H Hflag]. split; [|done].
  intros job op Hj Ho. rewrite H by lia.
  destruct (decide (stuck st job /\ _)) as [[? ?]|Hn].
  - rewrite decide_True; [done|]. split_and!; (done || lia).
  - rewrite decide_False; [done|]. intros (?&?&?). by apply Hn.
Qed.

Lemma redistribute_spec num_threads st :
  par_inv num_threads st ->
  let '(st', all_jobs_assigned) := redistribute num_threads st in
  only_ownership st st' /\ par_inv num_threads st'.
Proof.
  intros Hinv. pose proof (redistribute_fits num_threads st (par_inv_fits _ _ Hinv)) as H.
  pose proof (find_idle_spec num_threads (thread_worked st)) as Hidle.
  destruct (redistribute num_threads st) as [st' flag].
  destruct H as (Honly & Hshape & H). split; [done|].
  destruct Honly as (Hp & Hso & Hes & Hac & Hit & Htw).
  split; rewrite ?Hp, ?Hso, ?Hes, ?Hac; try apply Hinv; [done|].
  intros job Hj Hops. destruct (find_idle _ _) as [t|].
  - destruct H as [Hval _]. rewrite Hval by (unfold MAX_OPERATIONS; lia).
    destruct (decide _); [lia | by apply Hinv].
  - destruct H as [-> _]. by apply Hinv.
Qed.

(** The inner loop of the fallback completes one job. *)
Lemma fallback_job num_threads job (k : nat) st :
  par_inv num_threads st -> 0 <= job < num_jobs (problem st) ->
  (scheduled_ops st).[job] + Z.of_nat k = num_operations (problem st) ->
  exists st',
    fold_left (fun acc op => st ← acc; schedule_operation st job op)
              (seqZ (scheduled_ops st).[job] (Z.of_nat k)) (Some st) = Some st'
    /\ par_inv num_threads st' /\ same_frame st st'
    /\ (forall job', 0 <= job' < num_jobs (problem st) ->
          (scheduled_ops st').[job']
          = if decide (job' = job) then num_operations (problem st)
            else (scheduled_ops st).[job']).
Proof.
  revert st. induction k as [|k IH]; intros st Hinv Hjob Hk.
  - exists st. split_and!; try done; try apply same_frame_refl.
    intros job' Hj'. destruct (decide (job' = job)) as [->|]; [lia | done].
  - rewrite seqZ_cons by lia. cbn [fold_left mbind option_bind].
    destruct (schedule_operation_inv num_threads st job Hinv Hjob ltac:(lia))
      as (st1 & Hop & Hinv1 & Hfr1 & Htw1 & Hso1 & Hac1).
    rewrite Hop. pose proof Hfr1 as (Hoa & Hit & Hnj & Hno).
    assert (Hso1j : (scheduled_ops st1).[job] = (scheduled_ops st).[job] + 1).
    { rewrite Hso1, (scheduled_ops_after num_threads) by done.
      rewrite decide_True by done. lia. }
    destruct (IH st1 Hinv1 ltac:(lia) ltac:(lia)) as (st' & Hrun & Hinv' & Hfr' & Hso').
    replace (Z.succ (scheduled_ops st).[job]) with (scheduled_ops st1).[job] by lia.
    replace (Z.pred (Z.of_nat (S k))) with (Z.of_nat k) by lia.
    exists st'. split_and!; try done; try (by apply (same_frame_trans _ st1)).
    intros job' Hj'. rewrite Hso' by lia. rewrite Hno.
    destruct (decide (job' = job)) as [->|Hne]; [done|].
    rewrite Hso1, (scheduled_ops_after num_threads) by done.
    rewrite decide_False by done. lia.
Qed.

Lemma fallback_upto_spec num_threads st (n : nat) :
  par_inv num_threads st -> Z.of_nat n <= num_jobs (problem st) ->
  exists st', fallback_upto st n = Some st'
    /\ par_inv num_threads st' /\ same_frame st st'
    /\ (forall job, 0 <= job < num_jobs (problem st) ->
          (scheduled_ops st').[job]
          = if decide (job < Z.of_nat n) then num_operations (problem st)
            else (scheduled_ops st).[job]).
Proof.
  intros Hinv. induction n as [|n IH]; intros Hn.
  - exists st. split_and!; try done; try apply same_frame_refl.
    intros job Hj. rewrite decide_False; [done | lia].
  - destruct IH as (st1 & Hrun & Hinv1 & Hfr1 & Hso1); [lia|].
    unfold fallback_upto in *. rewrite seqZ_S, fold_left_app, Hrun.
    cbn [fold_left mbind option_bind]. rewrite Z.add_0_l.
    pose proof Hfr1 as (Hoa & Hit & Hnj & Hno).
    pose proof (inv_so _ _ _ (pi_sched _ _ Hinv1) (Z.of_nat n) ltac:(lia)) as Hb.
    rewrite seqZ_to_nat.
    destruct (fallback_job num_threads (Z.of_nat n)
                (Z.to_nat (num_operations (problem st1) - (scheduled_ops st1).[Z.of_nat n]))
                st1 Hinv1 ltac:(lia) ltac:(lia))
      as (st' & Hjobrun & Hinv' & Hfr' & Hso').
    rewrite Hjobrun. exists st'.
    split_and!; try done; try (by apply (same_frame_trans _ st1)).
    intros job Hj. rewrite Hso' by lia. rewrite Hno.
    destruct (decide (job = Z.of_nat n)) as [->|Hne].
    + rewrite decide_True; [done | lia].
    + rewrite Hso1 by done.
      destruct (decide (job < Z.of_nat n)).
      * rewrite decide_True; [done | lia].
      * rewrite decide_False; [done | lia].
Qed.

(** The fallback schedules everything that is left. *)
Lemma fallback_spec num_threads st :
  par_inv num_threads st ->
  exists st', fallback st = Some st'
    /\ par_inv num_threads st' /\ same_frame st st'
    /\ assigned_count st' = total_ops (problem st').
Proof.
  intros Hinv. pose proof (num_jobs_nonneg _ _ _ (pi_sched _ _ Hinv)) as Hnj.
  destruct (fallback_upto_spec num_threads st (Z.to_nat (num_jobs (problem st)))
              Hinv ltac:(lia)) as (st' & Hrun & Hinv' & Hfr & Hso).
  exists st'. split.
  { unfold fallback. rewrite seqZ_to_nat. exact Hrun. }
  split_and!; try done.
  rewrite (pi_count _ _ Hinv'). destruct Hfr as (_ & _ & Hnj' & Hno').
  unfold total_ops, scheduled_total. rewrite Hnj', Hno'.
  rewrite (Zsum_ext (fun _ => num_operations (problem st))).
  - generalize (num_operations (problem st)) as m. intros m.
    rewrite (seqZ_to_nat 0 (num_jobs (problem st))).
    replace (num_jobs (problem st)) with (Z.of_nat (Z.to_nat (num_jobs (problem st)))) at 2 by lia.
    generalize (Z.to_nat (num_jobs (problem st))) as k. intros k.
    induction k as [|k IH]; [done|].
    rewrite seqZ_S, fmap_app. unfold Zsum in *. rewrite foldr_app. simpl.
    assert (forall (l : list Z) a, foldr Z.add a l = foldr Z.add 0 l + a) as Hacc.
    { induction l as [|x l IHl]; intros a; simpl; [lia|]. rewrite IHl. lia. }
    rewrite Hacc, IH. lia.
  - intros j Hin. apply elem_of_seqZ in Hin. rewrite Hso by lia.
    rewrite decide_True; [done | lia].
Qed.

Lemma par_inv_next_iteration num_threads st :
  par_inv num_threads st -> par_inv num_threads (next_iteration st).
Proof. intros Hinv. by apply (par_inv_frame _ st). Qed.

Lemma assigned_count_le num_threads st :
  par_inv num_threads st -> 0 <= assigned_count st <= total_ops (problem st).
Proof.
  intros Hinv. rewrite (pi_count _ _ Hinv). apply (sched_total_le _ _ _ (pi_sched _ _ Hinv)).
Qed.

(** The main loop returns, whatever the teams; after the deadlock warning
    every operation is scheduled. *)
Lemma coordinate_returns num_threads teams fuel st :
  par_inv num_threads st ->
  max_iterations (problem st) - iteration_count st <= Z.of_nat fuel ->
  exists st' warning,
    coordinate fuel teams num_threads st = Some (st', warning)
    /\ par_inv num_threads st'
    /\ num_jobs (problem st') = num_jobs (problem st)
    /\ num_operations (problem st') = num_operations (problem st)
    /\ (warning = true ->
          assigned_count st' = total_ops (problem st')
          /\ exists st0, par_inv num_threads st0 /\ fallback st0 = Some st').
Proof.
  revert st. induction fuel as [|fuel IH]; intros st Hinv Hfuel; cbn [coordinate].
  - destruct (Z.ltb_spec (assigned_count st) (total_ops (problem st)));
      destruct (Z.ltb_spec (iteration_count st) (max_iterations (problem st)));
      cbn [andb]; try lia; exists st, false; by split_and!.
  - destruct ((assigned_count st <? total_ops (problem st))
              && (iteration_count st <? max_iterations (problem st))) eqn:Hguard;
      [|exists st, false; by split_and!].
    pose proof (par_inv_next_iteration _ _ Hinv) as Hinv0.
    destruct (parallel_region_spec num_threads
                (teams (iteration_count (next_iteration st))) _ Hinv0)
      as (st1 & n & Hreg & Hinv1 & (Hoa1 & Hit1 & Hnj1 & Hno1) & Hn & Hn0 & _).
    rewrite Hreg. cbn [mbind option_bind]. simpl in Hit1, Hnj1, Hno1.
    assert (Hmax1 : max_iterations (problem st1) = max_iterations (problem st)).
    { unfold max_iterations, total_ops. by rewrite Hnj1, Hno1. }
    destruct (n =? 0).
    + pose proof (redistribute_spec num_threads st1 Hinv1) as Hred.
      destruct (redistribute num_threads st1) as [st2 flag].
      destruct Hred as ((Hp2 & Hso2 & Hes2 & Hac2 & Hit2 & Htw2) & Hinv2).
      destruct (flag =? 0).
      * destruct (IH st2 Hinv2) as (st' & w & Hrun & Hinv' & Hnj' & Hno' & Hw).
        { rewrite Hp2, Hit2, Hmax1, Hit1. lia. }
        exists st', w. rewrite Hp2 in Hnj', Hno'. split_and!; try done; congruence.
      * destruct (fallback_spec num_threads st2 Hinv2)
          as (st3 & Hfb & Hinv3 & (_ & _ & Hnj3 & Hno3) & Hall).
        rewrite Hfb. cbn [mbind option_bind]. exists st3, true.
        rewrite Hp2 in Hnj3, Hno3. split_and!; try done; try congruence.
        intros _. split; [done|]. by exists st2.
    + destruct (IH st1 Hinv1) as (st' & w & Hrun & Hinv' & Hnj' & Hno' & Hw).
      { rewrite Hmax1, Hit1. lia. }
      exists st', w. split_and!; try done; congruence.
Qed.

(** With every thread in every team, each round makes progress and the loop
    ends with everything scheduled, without the fallback. *)
Lemma coordinate_full num_threads teams fuel st :
  (forall i, full_team num_threads (teams i)) ->
  par_inv num_threads st ->
  max_iterations (problem st) - iteration_count st <= Z.of_nat fuel ->
  total_ops (problem st) - assigned_count st
    <= max_iterations (problem st) - iteration_count st ->
  exists st',
    coordinate fuel teams num_threads st = Some (st', false)
    /\ par_inv num_threads st'
    /\ num_jobs (problem st') = num_jobs (problem st)
    /\ num_operations (problem st') = num_operations (problem st)
    /\ assigned_count st' = total_ops (problem st').
Proof.
  intros Hfull. revert st. induction fuel as [|fuel IH]; intros st Hinv Hfuel Hleft;
    cbn [coordinate]; pose proof (assigned_count_le _ _ Hinv) as Hle.
  - destruct (Z.ltb_spec (assigned_count st) (total_ops (problem st)));
      destruct (Z.ltb_spec (iteration_count st) (max_iterations (problem st)));
      cbn [andb]; try lia; exists st; split_and!; try done; lia.
  - destruct (Z.ltb_spec (assigned_count st) (total_ops (problem st))) as [Hlt|Hge];
      [destruct (Z.ltb_spec (iteration_count st) (max_iterations (problem st))) as [Hit|Hit]|];
      cbn [andb]; try (exists st; split_and!; try done; lia).
    pose proof (par_inv_next_iteration _ _ Hinv) as Hinv0.
    destruct (parallel_region_spec num_threads
                (teams (iteration_count (next_iteration st))) _ Hinv0)
      as (st1 & n & Hreg & Hinv1 & (Hoa1 & Hit1 & Hnj1 & Hno1) & Hn & Hn0 & Hprog).
    rewrite Hreg. cbn [mbind option_bind]. simpl in Hit1, Hnj1, Hno1, Hn, Hprog.
    assert (Hmax1 : max_iterations (problem st1) = max_iterations (problem st)).
    { unfold max_iterations, total_ops. by rewrite Hnj1, Hno1. }
    assert (Htot1 : total_ops (problem st1) = total_ops (problem st)).
    { unfold total_ops. by rewrite Hnj1, Hno1. }
    assert (Hpos : 0 < n).
    { destruct (sched_total_pending _ _ _ (pi_sched _ _ Hinv)) as (job & Hj & Hjob).
      { rewrite <- (pi_count _ _ Hinv). exact Hlt. }
      pose proof (inv_so _ _ _ (pi_sched _ _ Hinv) job Hj) as Hb.
      apply (Hprog job Hj Hjob).
      pose proof (pi_owner _ _ Hinv job Hj ltac:(lia)) as Hown.
      specialize (Hfull (iteration_count st + 1)). unfold full_team in Hfull.
      rewrite Hfull. apply elem_of_seqZ. lia. }
    destruct (Z.eqb_spec n 0) as [->|_]; [lia|].
    destruct (IH st1 Hinv1) as (st' & Hrun & Hinv' & Hnj' & Hno' & Hall).
    { rewrite Hmax1, Hit1. lia. }
    { rewrite Hmax1, Htot1, Hit1. lia. }
    exists st'. split_and!; try done; congruence.
Qed.



Lemma all_assigned_schedule_ok num_threads st :
  par_inv num_threads st -> assigned_count st = total_ops (problem st) ->
  schedule_ok (problem st).
Proof.
  intros Hinv Hall. apply (sched_inv_complete _ _ _ (pi_sched _ _ Hinv)).
  intros job Hj. apply (sched_total_full _ _ _ (pi_sched _ _ Hinv)); [|done].
  rewrite <- (pi_count _ _ Hinv). unfold total_ops in Hall. lia.
Qed.

(** The call returns for every sequence of teams. *)
Lemma schedule_with_strict_division_returns teams num_threads p :
  valid_problem p -> 1 <= num_threads ->
  exists r, schedule_with_strict_division teams num_threads p = Some r
    /\ par_inv num_threads (final r)
    /\ (status r = 1 <-> assigned_count (final r) = total_ops (problem (final r)))
    /\ (status r = 1 \/ status r = 0)
    /\ (deadlock_warning r = true -> status r = 1)
    /\ (deadlock_warning r = true ->
          exists st0, par_inv num_threads st0 /\ fallback st0 = Some (final r)).
Proof.
  intros Hv HT. unfold schedule_with_strict_division.
  destruct (coordinate_returns num_threads teams (Z.to_nat (max_iterations p))
              (init num_threads p) (par_inv_init num_threads p Hv HT))
    as (st & w & Hrun & Hinv & _ & _ & Hw).
  { simpl. lia. }
  rewrite Hrun. cbn [mbind option_bind]. eexists. split; [done|]. simpl.
  destruct (Z.eqb_spec (assigned_count st) (total_ops (problem st))) as [Heq|Hne].
  - split_and!; try done; [by left|].
    intros ->. by destruct (Hw eq_refl) as [_ ?].
  - split_and!; try done.
    + by right.
    + intros ->. by destruct (Hw eq_refl).
    + intros ->. by destruct (Hw eq_refl).
Qed.

(** With all threads in every team the call succeeds without the fallback. *)
Lemma schedule_with_strict_division_full teams num_threads p :
  valid_problem p -> 1 <= num_threads ->
  (forall i, full_team num_threads (teams i)) ->
  exists r, schedule_with_strict_division teams num_threads p = Some r
    /\ status r = 1 /\ deadlock_warning r = false
    /\ schedule_ok (problem (final r)).
Proof.
  intros Hv HT Hfull. unfold schedule_with_strict_division.
  pose proof (par_inv_init num_threads p Hv HT) as Hinit.
  pose proof (assigned_count_le _ _ Hinit) as Hle. simpl in Hle.
  destruct (coordinate_full num_threads teams (Z.to_nat (max_iterations p))
              (init num_threads p) Hfull Hinit)
    as (st & Hrun & Hinv & _ & _ & Hall).
  { simpl. lia. }
  { simpl. unfold max_iterations. lia. }
  rewrite Hrun. cbn [mbind option_bind]. eexists. split; [done|]. simpl.
  rewrite Hall, Z.eqb_refl. split_and!; try done.
  by apply (all_assigned_schedule_ok num_threads).
Qed.

End parallel.

(** ** How late the sequential scheduler can get *)

Lemma NoDup_cells p : NoDup (cells p).
Proof.
  unfold cells. apply NoDup_bind.
  - intros j1 j2 [j o] _ _ H1 H2.
    apply list_elem_of_fmap in H1 as (? & [= -> ->] & _).
    apply list_elem_of_fmap in H2 as (? & [= -> ->] & _). done.
  - intros j _. apply NoDup_fmap_2; [|apply NoDup_seqZ]. by intros ? ? [= ->].
  - apply NoDup_seqZ.
Qed.

Lemma work_done_le p so es :
  sched_inv p so es -> 0 <= work_done p so <= total_work p.
Proof.
  intros Hinv. unfold work_done, total_work. split.
  - etransitivity; [|apply (Zsum_mono (fun _ => 0))].
    + induction (cells p) as [|c l IH]; [done|]. rewrite fmap_cons, Zsum_cons. lia.
    + intros [j o] Hin. apply elem_of_cells in Hin. simpl.
      pose proof (inv_dur _ _ _ Hinv j o Hin). destruct (o <? so.[j]); lia.
  - apply Zsum_mono. intros [j o] Hin. apply elem_of_cells in Hin. simpl.
    pose proof (inv_dur _ _ _ Hinv j o Hin). destruct (o <? so.[j]); lia.
Qed.

Lemma bound_inv_init p :
  valid_problem p ->
  bound_inv p (replicate (Z.to_nat MAX_JOBS) 0) (replicate (Z.to_nat MAX_JOBS) 0).
Proof.
  intros Hv. pose proof (sched_inv_init p Hv) as Hinv.
  pose proof (work_done_le _ _ _ Hinv) as Hw.
  assert (Hz : forall job, 0 <= job < num_jobs p -> (replicate (Z.to_nat MAX_JOBS) 0).[job] = 0).
  { intros job Hj. unfold aget. apply list_lookup_total_correct, lookup_replicate_2.
    destruct (vp_wf _ Hv). unfold MAX_JOBS in *. lia. }
  split.
  - intros job op [Hj Ho]. rewrite Hz by done. lia.
  - intros job Hj. rewrite Hz by done. lia.
Qed.

Lemma bound_inv_commit p so es job t es' :
  sched_inv p so es -> bound_inv p so es ->
  0 <= job < num_jobs p -> so.[job] < num_operations p ->
  find_available_time p (Op.machine (job_op p job so.[job]))
    (Op.duration (job_op p job so.[job])) es.[job] = Some t ->
  (es' = es.[job <- t + Op.duration (job_op p job so.[job])]
   \/ (so.[job] + 1 = num_operations p /\ es' = es)) ->
  bound_inv (set_start_time p job so.[job] t) (so.[job <- so.[job] + 1]) es'.
Proof.
  intros Hinv [Hends Hes] Hjob Hlt Hfind Hes'.
  pose proof (inv_wf _ _ _ Hinv) as Hwf.
  pose proof (inv_so _ _ _ Hinv job Hjob) as Hop0.
  set (op := so.[job]) in *.
  assert (Hin : in_table p job op) by (unfold in_table; lia).
  set (d := Op.duration (job_op p job op)) in *.
  pose proof (inv_dur _ _ _ Hinv job op Hin) as Hd0. fold d in Hd0.
  assert (HjM : 0 <= job < MAX_JOBS) by (destruct Hwf; lia).
  assert (Hso : forall j, 0 <= j < num_jobs p ->
            so.[job <- op + 1].[j] = if decide (job = j) then op + 1 else so.[j]).
  { intros j Hj. apply aget_aset; [lia | lia |]. rewrite (inv_len_so _ _ _ Hinv). lia. }
  assert (Hop : forall j o, in_table p j o ->
            job_op (set_start_time p job op t) j o
            = if decide ((j, o) = (job, op))
              then Op.mk (Op.machine (job_op p job op)) d t else job_op p j o).
  { intros j o Hjo. by apply job_op_set. }
  (* the slot does not start after the work done so far *)
  assert (Ht : t <= work_done p so).
  { apply find_loop_spec in Hfind as (_ & [->|(j & o & Hjo & Hc & ->)] & _).
    - by apply Hes.
    - apply Hends; [done|]. unfold committed_on in Hc. apply andb_prop in Hc as [Hc _].
      apply negb_true_iff, Z.eqb_neq in Hc.
      destruct (decide (o < so.[j])) as [|Hge]; [done|].
      rewrite (inv_todo _ _ _ Hinv j o Hjo) in Hc; [done | lia]. }
  (* the work done grows by the duration of the operation *)
  assert (Hwork : work_done (set_start_time p job op t) (so.[job <- op + 1])
                  = work_done p so + d).
  { unfold work_done. rewrite cells_set.
    apply (Zsum_raise _ _ _ (job, op)).
    - apply NoDup_cells.
    - by apply elem_of_cells.
    - simpl. rewrite Hso, Hop by done. rewrite !decide_True by done. simpl. fold op.
      destruct (Z.ltb_spec op (op + 1)); [|lia]. destruct (Z.ltb_spec op op); lia.
    - intros [j o] Hjo Hne. apply elem_of_cells in Hjo. simpl.
      rewrite Hso by apply Hjo. rewrite Hop by done. rewrite (decide_False (P := (j, o) = _)) by done.
      destruct (decide (job = j)) as [<-|]; [|done]. fold op.
      assert (o <> op) by congruence.
      destruct (Z.ltb_spec o (op + 1)), (Z.ltb_spec o op); try done; lia. }
  unfold bound_inv.
  change (in_table (set_start_time p job op t)) with (in_table p).
  change (num_jobs (set_start_time p job op t)) with (num_jobs p).
  rewrite Hwork. split.
  - intros j o Hjo. rewrite Hso by apply Hjo. unfold op_end. simpl. rewrite Hop by done.
    destruct (decide ((j, o) = (job, op))) as [_|Hne]; simpl; [lia|].
    intros Ho. assert (o < so.[j]) as Ho'.
    { destruct (decide (job = j)) as [<-|]; [|done]. fold op.
      assert (o <> op) by congruence. lia. }
    specialize (Hends j o Hjo Ho'). unfold op_end in Hends. simpl in Hends. lia.
  - intros j Hj. destruct (decide (job = j)) as [<-|Hne].
    + destruct Hes' as [->|[_ ->]].
      * rewrite aget_aset_same; [lia|]. rewrite (inv_len_es _ _ _ Hinv). lia.
      * specialize (Hes job Hjob). lia.
    + assert (es'.[j] = es.[j]) as ->.
      { destruct Hes' as [->|[_ ->]]; [|done]. apply aget_aset_other; lia. }
      specialize (Hes j Hj). lia.
Qed.

(** At every head of the sequential loop no earliest start exceeds the total work. *)
Lemma reachable_bound p st :
  valid_problem p -> reachable p st ->
  bound_inv (Sequential.problem st) (Sequential.scheduled_ops st)
            (Sequential.earliest_starts st)
  /\ total_work (Sequential.problem st) = total_work p
  /\ num_jobs (Sequential.problem st) = num_jobs p.
Proof.
  intros Hv Hr. induction Hr as [|st st' Hr IH Hlt Hsel Hstep].
  - split_and!; try done. by apply bound_inv_init.
  - destruct IH as (Hb & Hw & Hnj).
    pose proof (reachable_inv p st Hv Hr) as [Hs Hc].
    pose proof (select_job_spec st) as Hspec.
    destruct (Sequential.select_job st) as [ej et]. simpl in *.
    destruct Hspec as [(-> & _)|(Hrange & Hel & _)]; [done|].
    unfold eligible in Hel. unfold Sequential.schedule_step in Hstep.
    destruct (find_available_time _ _ _ _) as [t|] eqn:Hfind; [|done].
    simpl in Hstep. injection Hstep as <-. simpl.
    pose proof (inv_wf _ _ _ Hs) as Hwf.
    split_and!; try done.
    + eapply bound_inv_commit; try done.
      rewrite aget_aset_same.
      * destruct (Z.ltb_spec ((Sequential.scheduled_ops st).[ej] + 1)
                    (num_operations (Sequential.problem st)));
          [by left | right; split; [lia | done]].
      * rewrite (inv_len_so _ _ _ Hs). destruct Hwf. lia.
    + rewrite <- Hw. unfold total_work. rewrite cells_set.
      apply Zsum_ext. intros [j o] Hin. apply elem_of_cells in Hin. simpl.
      rewrite job_op_set; [|done | split; [done | pose proof (inv_so _ _ _ Hs ej Hrange); lia] | done].
      destruct (decide _) as [[= -> ->]|]; done.
Qed.

(** ** Checking a concrete problem *)

Lemma check_valid_sound p : check_valid p = true -> valid_problem p.
Proof.
  unfold check_valid. rewrite !andb_true_iff, !forallb_forall.
  intros [[[[[[H1 H2] H3] H4] H5] H6] H7].
  assert (Hcell : forall job op, in_table p job op ->
            0 <= Op.machine (job_op p job op) < num_machines p
            /\ 0 <= Op.duration (job_op p job op)
            /\ Op.start_time (job_op p job op) = -1).
  { intros job op Hin. apply elem_of_cells, list_elem_of_In, H7 in Hin. simpl in Hin.
    rewrite !andb_true_iff in Hin. destruct Hin as [[[? ?] ?] ?]. lia. }
  split; [split|..]; try lia.
  - by apply Nat.eqb_eq.
  - intros job Hj. apply Nat.eqb_eq, H6, list_elem_of_In, elem_of_seqZ. lia.
  - intros job op Hin. by apply Hcell.
  - intros job op Hin. by apply Hcell.
  - intros job op Hin. by apply Hcell.
Qed.

(** The state in which the loop is left is a state at the head of the loop. *)
Lemma schedule_loop_reachable p fuel st st' :
  reachable p st -> Sequential.schedule_loop fuel st = Some st' -> reachable p st'.
Proof.
  revert st. induction fuel as [|fuel IH]; intros st Hr; simpl.
  - destruct (Z.ltb_spec (Sequential.scheduled_count st)
                (Sequential.total_ops (Sequential.problem st))); [done|].
    by intros [= <-].
  - destruct (Z.ltb_spec (Sequential.scheduled_count st)
                (Sequential.total_ops (Sequential.problem st))) as [Hlt|]; [|by intros [= <-]].
    destruct (Z.eqb_spec (Sequential.select_job st).1 (-1)) as [|Hsel]; [by intros [= <-]|].
    destruct (Sequential.schedule_step st (Sequential.select_job st).1) as [st1|] eqn:Hstep;
      [|done].
    simpl. apply IH. by apply (reach_step p st st1).
Qed.

(** While operations remain and the jobs that have some are below the
    sentinel, the scan takes a job. *)
Lemma scan_takes_a_job p st :
  valid_problem p -> reachable p st ->
  Sequential.scheduled_count st < Sequential.total_ops (Sequential.problem st) ->
  (forall job, 0 <= job < num_jobs (Sequential.problem st) -> eligible st job ->
     (Sequential.earliest_starts st).[job] < 999999) ->
  fst (Sequential.select_job st) <> -1.
Proof.
  intros Hv Hr Hlt Hbound.
  pose proof (reachable_inv p st Hv Hr) as [Hs Hc].
  destruct (sched_total_pending _ _ _ Hs) as (job & Hj & Hjob).
  { rewrite <- Hc. exact Hlt. }
  pose proof (select_job_spec st) as Hsel.
  destruct (Sequential.select_job st) as [ej et]. simpl.
  destruct Hsel as [(-> & Hnone)|(Hrange & _)]; [|lia].
  specialize (Hnone job Hj Hjob). specialize (Hbound job Hj Hjob). lia.
Qed.

(** If the bound holds at every head of the loop, the run is complete. *)
Lemma run_completes_below_sentinel p :
  valid_problem p ->
  (forall st job, reachable p st ->
     0 <= job < num_jobs (Sequential.problem st) -> eligible st job ->
     (Sequential.earliest_starts st).[job] < 999999) ->
  exists st, Sequential.schedule_jobs_sequential p = Some st
    /\ completed st /\ schedule_ok (Sequential.problem st).
Proof.
  intros Hv Hbound.
  destruct (schedule_jobs_sequential_returns p Hv) as (st & Hrun & Hinv & _ & _ & Hend).
  exists st. split; [done|].
  assert (Hr : reachable p st).
  { eapply (schedule_loop_reachable p _ (Sequential.init p)); [constructor | exact Hrun]. }
  destruct Hend as [Hdone|[Hlt Hsel]].
  - split; [done | by apply completed_schedule_ok].
  - exfalso. apply (scan_takes_a_job p st Hv Hr Hlt); [|done].
    intros job Hj Hjob. by apply (Hbound st).
Qed.

(** A total work below the sentinel keeps every earliest start below it. *)
Lemma below_sentinel_throughout p :
  valid_problem p -> total_work p < 999999 ->
  forall st job, reachable p st ->
    0 <= job < num_jobs (Sequential.problem st) -> eligible st job ->
    (Sequential.earliest_starts st).[job] < 999999.
Proof.
  intros Hv Hwork st job Hr Hj _.
  destruct (reachable_bound p st Hv Hr) as ((_ & Hes) & Hw & _).
  pose proof (reachable_inv p st Hv Hr) as [Hs _].
  pose proof (work_done_le _ _ _ Hs). specialize (Hes job Hj). lia.
Qed.

Lemma sentinel_problem_valid : valid_problem sentinel_problem.
Proof. apply check_valid_sound. reflexivity. Qed.

Lemma example_problem_valid : valid_problem example_problem.
Proof. apply check_valid_sound. reflexivity. Qed.

(** * The claims *)

(** Below the sentinel the sequential scheduler yields a complete, valid
    schedule: start times are not negative, every operation ends before its
    successor in the job starts, and no two operations of a machine overlap. *)
Theorem sequential_schedule_ok (p : JobShopProblem) :
  valid_problem p -> total_work p < 999999 ->
  exists st, Sequential.schedule_jobs_sequential p = Some st
    /\ completed st /\ schedule_ok (Sequential.problem st).
Proof.
  intros Hv Hwork. apply run_completes_below_sentinel; [done|].
  by apply below_sentinel_throughout.
Qed.

(** With every thread in every team the coordinated scheduler yields a
    complete, valid schedule for every thread count from 1 to [MAX_THREADS]. *)
Theorem parallel_schedule_ok (teams : Z -> list Z) (num_threads : Z) (p : JobShopProblem) :
  valid_problem p -> 1 <= num_threads <= MAX_THREADS ->
  (forall i, Parallel.full_team num_threads (teams i)) ->
  exists r, Parallel.schedule_with_strict_division teams num_threads p = Some r
    /\ Parallel.status r = 1
    /\ schedule_ok (Parallel.problem (Parallel.final r)).
Proof.
  intros Hv [HT _] Hfull.
  destruct (schedule_with_strict_division_full teams num_threads p Hv HT Hfull)
    as (r & Hr & Hs & _ & Hok).
  by exists r.
Qed.

(** A valid schedule keeps the half-open intervals of a machine disjoint. *)
Lemma machines_ok_disjoint p job1 op1 job2 op2 t :
  machines_ok p -> in_table p job1 op1 -> in_table p job2 op2 ->
  (job1, op1) <> (job2, op2) ->
  Op.machine (job_op p job1 op1) = Op.machine (job_op p job2 op2) ->
  ~ (Op.start_time (job_op p job1 op1) <= t < op_end p (job1, op1)
     /\ Op.start_time (job_op p job2 op2) <= t < op_end p (job2, op2)).
Proof.
  intros Hok H1 H2 Hne Hm. apply overlaps_false_disjoint. by apply Hok.
Qed.

(** C1 fails on the sequential scheduler: on a valid problem whose first
    operation ends at the sentinel 999999 the scheduler returns with the
    second operation still at -1, so not every start time is >= 0. *)
Theorem sequential_leaves_operation_unscheduled :
  valid_problem sentinel_problem
  /\ 1 <= Sequential.total_ops sentinel_problem
  /\ exists st, Sequential.schedule_jobs_sequential sentinel_problem = Some st
       /\ output_rows (Sequential.problem st) = [[(0, 999999); (-1, 1)]]
       /\ in_table (Sequential.problem st) 0 1
       /\ Op.start_time (job_op (Sequential.problem st) 0 1) = -1
       /\ ~ schedule_ok (Sequential.problem st).
Proof.
  split; [apply sentinel_problem_valid|]. split; [by vm_compute|].
  destruct (Sequential.schedule_jobs_sequential sentinel_problem) as [st|] eqn:Hrun;
    [|by vm_compute in Hrun].
  exists st. split; [done|]. vm_compute in Hrun. injection Hrun as <-.
  split_and!.
  - by vm_compute.
  - unfold in_table. simpl. lia.
  - by vm_compute.
  - intros (Hstart & _). specialize (Hstart 0 1). unfold in_table in Hstart.
    simpl in Hstart. specialize (Hstart ltac:(lia)). vm_compute in Hstart. by apply Hstart.
Qed.


(** C4: on the 2x2 instance the sequential scheduler assigns the start times
    0, 3 (job 0) and 0, 3 (job 1), and the written makespan is 7. *)
Theorem sequential_example_schedule :
  (output_rows ∘ Sequential.problem) <$> Sequential.schedule_jobs_sequential example_problem
    = Some [[(0, 3); (3, 2)]; [(0, 2); (3, 4)]]
  /\ (makespan_all ∘ Sequential.problem) <$> Sequential.schedule_jobs_sequential example_problem
    = Some 7
  /\ Sequential.main example_problem = Some (7, [[(0, 3); (3, 2)]; [(0, 2); (3, 4)]]).
Proof. split_and!; vm_compute; reflexivity. Qed.

(** C5: in every pass of the sequential main loop the job selected to
    advance has operations left, its recorded earliest start is minimal among
    the jobs with operations left, every such job with a lower index has a
    strictly later earliest start, and the pass advances exactly that job. *)
Theorem select_job_earliest_lowest_index (st : Sequential.State) :
  let job := fst (Sequential.select_job st) in
  job <> -1 ->
  0 <= job < num_jobs (Sequential.problem st)
  /\ eligible st job
  /\ (forall j, 0 <= j < num_jobs (Sequential.problem st) -> eligible st j ->
        (Sequential.earliest_starts st).[job] <= (Sequential.earliest_starts st).[j])
  /\ (forall j, 0 <= j < job -> eligible st j ->
        (Sequential.earliest_starts st).[job] < (Sequential.earliest_starts st).[j])
  /\ (forall fuel,
        Sequential.scheduled_count st < Sequential.total_ops (Sequential.problem st) ->
        Sequential.schedule_loop (S fuel) st
        = Sequential.schedule_step st job ≫= Sequential.schedule_loop fuel).
Proof.
  intros job Hjob. subst job. pose proof (select_job_spec st) as Hsel.
  destruct (Sequential.select_job st) as [ej et] eqn:Hsj. simpl in *.
  destruct Hsel as [(-> & _)|(Hr & He & Hmin & Hfirst)]; [done|].
  split_and!; try done; try lia.
  intros fuel Hlt. simpl. rewrite Hsj. simpl.
  destruct (Z.ltb_spec (Sequential.scheduled_count st)
              (Sequential.total_ops (Sequential.problem st))); [|lia].
  destruct (Z.eqb_spec ej (-1)); [lia | done].
Qed.

Lemma select_job_earliest_lowest_index_witness :
  eligible (Sequential.init example_problem) 0
  /\ forall j, 0 <= j < 2 -> eligible (Sequential.init example_problem) j ->
       (Sequential.earliest_starts (Sequential.init example_problem)).[0]
       <= (Sequential.earliest_starts (Sequential.init example_problem)).[j].
Proof.
  destruct (select_job_earliest_lowest_index (Sequential.init example_problem))
    as (_ & He & Hmin & _).
  - vm_compute. discriminate.
  - split; [exact He | exact Hmin].
Defined.

(** C6 fails on both programs: the violation does not stop the run.  The
    sequential scheduler leaves its loop by the [break] with an operation
    unscheduled and [main] writes the schedule with the start time -1; the
    coordinated scheduler, run with a team that lacks the owner of a job,
    reaches the iteration cap and returns 0, which [main] drops before it
    writes the schedule with start times -1. *)
Theorem violation_still_writes_partial_schedule :
  (exists st, Sequential.schedule_jobs_sequential sentinel_problem = Some st
     /\ stopped_early st)
  /\ Sequential.main sentinel_problem = Some (999999, [[(0, 999999); (-1, 1)]])
  /\ (fun r => (Parallel.status r, Parallel.iteration_count (Parallel.final r)))
       <$> Parallel.schedule_with_strict_division (fun _ => [0]) 2 example_problem
     = Some (0, Parallel.max_iterations example_problem)
  /\ Parallel.main (fun _ _ => [0]) 2 example_problem
     = Some (Parallel.Written 5 [[(0, 3); (3, 2)]; [(-1, 2); (-1, 4)]]).
Proof.
  split_and!.
  - destruct (Sequential.schedule_jobs_sequential sentinel_problem) as [st|] eqn:Hrun;
      [|by vm_compute in Hrun].
    exists st. split; [done|]. vm_compute in Hrun. injection Hrun as <-.
    split; by vm_compute.
  - by vm_compute.
  - by vm_compute.
  - by vm_compute.
Qed.

(** C7, as stated, fails: with three threads of which only thread 0 runs, the
    first round schedules job 0, the second round schedules nothing, jobs 1
    and 2 still hold their operation, threads 1 and 2 are both idle, and the
    redistribution pass gives both jobs to thread 1. *)
Lemma redistribution_counterexample :
  exists st1 st2,
    Parallel.parallel_region [0] (Parallel.next_iteration (Parallel.init 3 three_jobs))
      = Some (st1, 1)
    /\ Parallel.parallel_region [0] (Parallel.next_iteration st1) = Some (st2, 0)
    /\ stuck st2 1 /\ stuck st2 2
    /\ (Parallel.thread_worked st2).[1] = 0 /\ (Parallel.thread_worked st2).[2] = 0
    /\ (Parallel.op_assigned (Parallel.redistribute 3 st2).1).[1].[0] = 1
    /\ (Parallel.op_assigned (Parallel.redistribute 3 st2).1).[2].[0] = 1
    /\ ~ ((Parallel.op_assigned (Parallel.redistribute 3 st2).1).[1].[0]
          <> (Parallel.op_assigned (Parallel.redistribute 3 st2).1).[2].[0]).
Proof.
  destruct (Parallel.parallel_region [0]
              (Parallel.next_iteration (Parallel.init 3 three_jobs)))
    as [[st1 n1]|] eqn:H1; [|by vm_compute in H1].
  destruct (Parallel.parallel_region [0] (Parallel.next_iteration st1))
    as [[st2 n2]|] eqn:H2;
    [|vm_compute in H1; injection H1 as <- <-; by vm_compute in H2].
  vm_compute in H1. injection H1 as <- <-.
  vm_compute in H2. injection H2 as <- <-.
  eexists _, _. split; [reflexivity|]. split; [by vm_compute|].
  split_and!; by vm_compute.
Qed.

(** C7, amended: in the redistribution pass after a round without progress,
    if some thread has its flag still at 0 then every job that still holds
    unscheduled operations gets all its operations assigned to the idle
    thread with the least number, the same thread for all these jobs, and
    [all_jobs_assigned] becomes 0; the other jobs keep their owner; if no
    thread is idle nothing changes and [all_jobs_assigned] stays 1.  Nothing
    but [op_assigned] is touched. *)
Theorem redistribute_to_first_idle (num_threads : Z) (st : Parallel.State) :
  fits_arrays st -> 1 <= num_threads <= MAX_THREADS ->
  let st' := (Parallel.redistribute num_threads st).1 in
  let all_jobs_assigned := (Parallel.redistribute num_threads st).2 in
  only_ownership st st'
  /\ match Parallel.find_idle num_threads (Parallel.thread_worked st) with
     | Some t =>
         0 <= t < num_threads /\ (Parallel.thread_worked st).[t] = 0
         /\ (forall t', 0 <= t' < t -> (Parallel.thread_worked st).[t'] <> 0)
         /\ (forall job op, 0 <= job < num_jobs (Parallel.problem st) ->
               0 <= op < num_operations (Parallel.problem st) ->
               (Parallel.op_assigned st').[job].[op]
               = if decide (stuck st job) then t else (Parallel.op_assigned st).[job].[op])
         /\ ((all_jobs_assigned = 0
              /\ exists job, 0 <= job < num_jobs (Parallel.problem st) /\ stuck st job)
             \/ (all_jobs_assigned = 1
                 /\ forall job, 0 <= job < num_jobs (Parallel.problem st) -> ~ stuck st job))
     | None =>
         (forall t', 0 <= t' < num_threads -> (Parallel.thread_worked st).[t'] <> 0)
         /\ Parallel.op_assigned st' = Parallel.op_assigned st /\ all_jobs_assigned = 1
     end.
Proof.
  intros Hfits _. pose proof (redistribute_fits num_threads st Hfits) as H.
  pose proof (find_idle_spec num_threads (Parallel.thread_worked st)) as Hidle.
  pose proof Hfits as (_ & Hno & _).
  destruct (Parallel.redistribute num_threads st) as [st' flag]. simpl.
  destruct H as (Honly & _ & H). split; [done|].
  destruct (Parallel.find_idle _ _) as [t|].
  - destruct Hidle as (Ht & Hw & Hmin). destruct H as [Hval Hflag].
    split_and!; try done; try lia.
    intros job op Hj Ho. rewrite Hval by lia.
    destruct (decide (stuck st job)).
    + rewrite decide_True; [done|]. split; [done | lia].
    + rewrite decide_False; [done|]. by intros [? _].
  - by split.
Qed.

Lemma redistribute_to_first_idle_witness :
  (Parallel.op_assigned (Parallel.redistribute 3 (Parallel.init 3 three_jobs)).1).[1].[0] = 0
  /\ (Parallel.op_assigned (Parallel.redistribute 3 (Parallel.init 3 three_jobs)).1).[2].[0] = 0.
Proof.
  pose proof (redistribute_to_first_idle 3 (Parallel.init 3 three_jobs)) as H.
  assert (Hfits : fits_arrays (Parallel.init 3 three_jobs)).
  { apply (par_inv_fits 3), par_inv_init; [|lia]. apply check_valid_sound. reflexivity. }
  specialize (H Hfits ltac:(unfold MAX_THREADS; lia)). cbv zeta in H. destruct H as [_ H].
  assert (Hidle : Parallel.find_idle 3 (Parallel.thread_worked (Parallel.init 3 three_jobs))
                  = Some 0) by reflexivity.
  rewrite Hidle in H. destruct H as (_ & _ & _ & Hval & _).
  split.
  - rewrite (Hval 1 0); [| simpl; lia | simpl; lia].
    rewrite decide_True; [done|]. unfold stuck. vm_compute. reflexivity.
  - rewrite (Hval 2 0); [| simpl; lia | simpl; lia].
    rewrite decide_True; [done|]. unfold stuck. vm_compute. reflexivity.
Defined.

(** The request of 10 threads for five jobs runs with 8 threads and writes a
    complete schedule. *)
Example five_jobs_ten_threads :
  Parallel.effective_num_threads 10 (Parallel.total_ops five_jobs) = 8
  /\ Parallel.main (fun _ _ => seqZ 0 8) 10 five_jobs
     = Some (Parallel.Written 35
               [[(0, 1); (1, 2); (3, 3); (6, 4); (10, 5)];
                [(1, 1); (3, 2); (6, 3); (10, 4); (15, 5)];
                [(2, 1); (5, 2); (9, 3); (14, 4); (20, 5)];
                [(3, 1); (7, 2); (12, 3); (18, 4); (25, 5)];
                [(4, 1); (9, 2); (15, 3); (22, 4); (30, 5)]]).
Proof. split; by vm_compute. Qed.

(** C9, as stated, fails: a loaded problem without operations (a file that
    starts with [0 0]) gets 1 effective thread for 0 operations. *)
Lemma effective_threads_counterexample :
  1 <= 4
  /\ ~ (Parallel.effective_num_threads 4 (Parallel.total_ops (load 0 0 []))
        <= Parallel.total_ops (load 0 0 [])).
Proof. split; [lia|]. vm_compute. intros H. by apply H. Qed.

(** C9, amended: for every requested thread count >= 1 and every problem
    with at least one operation the effective thread count is at most the
    number of operations; in every case it is at least 1, at most the
    larger of 1 and the number of operations, never above the request, and
    at most 8 when there are fewer than 100 operations. *)
Theorem effective_threads_clamped (num_threads total_ops : Z) :
  1 <= num_threads ->
  let e := Parallel.effective_num_threads num_threads total_ops in
  1 <= e
  /\ e <= num_threads
  /\ e <= Z.max 1 total_ops
  /\ (1 <= total_ops -> e <= total_ops)
  /\ (total_ops < 100 -> e <= 8).
Proof.
  intros Hn e. subst e. unfold Parallel.effective_num_threads. cbv zeta.
  destruct (Z.gtb_spec num_threads total_ops) as [H1|H1].
  - destruct (Z.gtb_spec total_ops 8) as [H2|H2];
      destruct (Z.ltb_spec total_ops 100) as [H3|H3]; cbn [andb].
    all: try (destruct (Z.ltb_spec 8 1); try lia).
    all: try (destruct (Z.ltb_spec total_ops 1); try lia).
  - destruct (Z.gtb_spec num_threads 8) as [H2|H2];
      destruct (Z.ltb_spec total_ops 100) as [H3|H3]; cbn [andb].
    all: try (destruct (Z.ltb_spec 8 1); try lia).
    all: try (destruct (Z.ltb_spec num_threads 1); try lia).
Qed.

Lemma effective_threads_clamped_witness :
  Parallel.effective_num_threads 10 25 <= 25 /\ Parallel.effective_num_threads 10 25 <= 8.
Proof.
  destruct (effective_threads_clamped 10 25) as (_ & _ & _ & H1 & H2); [lia|].
  split; [apply H1 | apply H2]; lia.
Defined.

(** * Further properties of the code *)

(** ** [find_available_time]: the slot is the earliest one *)

(** Every candidate that a retry skips conflicts with a committed operation. *)
Lemma scan_skips_only_conflicts p machine duration s earliest_possible t :
  scan p machine s (s + duration) = (false, earliest_possible) ->
  s <= t < earliest_possible ->
  exists job op, in_table p job op /\ conflict p machine t (t + duration) (job, op) = true.
Proof.
  intros Hscan Ht. pose proof (scan_spec p machine s (s + duration)) as Hs.
  rewrite Hscan in Hs. destruct Hs as (_ & (job & op & Hin & Hc & ->) & _).
  exists job, op. split; [done|]. unfold conflict, overlaps, op_end in *.
  cbn [fst snd] in *.
  apply andb_prop in Hc as [Hcm Hov]. apply andb_prop in Hov as [H1 H2].
  rewrite Hcm. cbn [andb]. apply andb_true_intro.
  rewrite Z.gtb_ltb in *. apply Z.ltb_lt in H2. split; apply Z.ltb_lt; lia.
Qed.

Lemma find_loop_earliest p machine duration fuel start_time r t :
  find_loop fuel p machine duration start_time = Some r ->
  start_time <= t < r ->
  exists job op, in_table p job op /\ conflict p machine t (t + duration) (job, op) = true.
Proof.
  revert start_time. induction fuel as [|fuel IH]; intros s; simpl; [done|].
  destruct (scan p machine s (s + duration)) as [[|] ep] eqn:Hscan.
  - intros [= <-] Ht. lia.
  - intros Hr Ht. destruct (decide (t < ep)) as [Hlt|Hge].
    + apply (scan_skips_only_conflicts p machine duration s ep); [done | lia].
    + apply (IH ep); [done | lia].
Qed.

(** A free start is a fixed point of the search. *)
Lemma find_loop_free p machine duration fuel s :
  (forall job op, in_table p job op -> conflict p machine s (s + duration) (job, op) = false) ->
  find_loop (S fuel) p machine duration s = Some s.
Proof.
  intros Hfree. simpl. pose proof (scan_spec p machine s (s + duration)) as Hs.
  destruct (scan p machine s (s + duration)) as [[|] ep]; [done|].
  destruct Hs as (_ & (job & op & Hin & Hc & _) & _). rewrite Hfree in Hc by done. done.
Qed.

Lemma find_available_time_least (p : JobShopProblem)
    (machine duration earliest_start r : Z) :
  find_available_time p machine duration earliest_start = Some r ->
  earliest_start <= r
  /\ (forall job op, in_table p job op ->
        conflict p machine r (r + duration) (job, op) = false)
  /\ (forall t, earliest_start <= t < r ->
        exists job op, in_table p job op
          /\ conflict p machine t (t + duration) (job, op) = true).
Proof.
  intros Hr. destruct (find_loop_spec _ _ _ _ _ _ Hr) as (Hle & _ & Hfree).
  split_and!; try done. intros t Ht. by eapply find_loop_earliest.
Qed.

(** Asking later never yields an earlier slot, and asking again from the
    slot that was returned yields that slot. *)
Lemma find_available_time_order (p : JobShopProblem)
    (machine duration e1 e2 r1 r2 : Z) :
  e1 <= e2 ->
  find_available_time p machine duration e1 = Some r1 ->
  find_available_time p machine duration e2 = Some r2 ->
  r1 <= r2 /\ find_available_time p machine duration r1 = Some r1.
Proof.
  intros He H1 H2.
  destruct (find_available_time_least _ _ _ _ _ H1) as (Hle1 & Hfree1 & Hskip1).
  destruct (find_available_time_least _ _ _ _ _ H2) as (Hle2 & Hfree2 & _).
  split.
  - destruct (decide (r1 <= r2)) as [|Hgt]; [done|].
    destruct (Hskip1 r2 ltac:(lia)) as (job & op & Hin & Hc).
    rewrite Hfree2 in Hc by done. done.
  - by apply find_loop_free.
Qed.

(** ** [find_available_time]: only the machine's committed operations count *)

Lemma fold_left_ext_in {A B} (f g : A -> B -> A) (l : list B) (a : A) :
  (forall a x, x ∈ l -> f a x = g a x) -> fold_left f l a = fold_left g l a.
Proof.
  revert a. induction l as [|x l IH]; intros a Hfg; simpl; [done|].
  rewrite Hfg by left. apply IH. intros a' y Hy. apply Hfg. by right.
Qed.

(** Two tables of the same dimensions that agree on the operations committed
    on [machine] give the same scan. *)
Lemma scan_ext p p' machine s e :
  num_jobs p' = num_jobs p -> num_operations p' = num_operations p ->
  (forall job op, in_table p job op ->
     committed_on machine (job_op p' job op) = committed_on machine (job_op p job op)
     /\ (committed_on machine (job_op p job op) = true ->
         job_op p' job op = job_op p job op)) ->
  scan p' machine s e = scan p machine s e.
Proof.
  intros Hnj Hno Hagree. unfold scan.
  rewrite (fold_cells (fun acc job op => scan_cell p' machine s e acc job op)).
  rewrite (fold_cells (fun acc job op => scan_cell p machine s e acc job op)).
  assert (Hcells : cells p' = cells p) by (unfold cells; by rewrite Hnj, Hno).
  rewrite Hcells. apply fold_left_ext_in. intros [c ep] [job op] Hin.
  apply elem_of_cells in Hin. destruct (Hagree job op Hin) as [Hc Heq].
  unfold scan_cell. rewrite Hc.
  destruct (committed_on machine (job_op p job op)); [|done].
  by rewrite Heq.
Qed.

Lemma find_loop_ext p p' machine duration fuel s :
  num_jobs p' = num_jobs p -> num_operations p' = num_operations p ->
  (forall job op, in_table p job op ->
     committed_on machine (job_op p' job op) = committed_on machine (job_op p job op)
     /\ (committed_on machine (job_op p job op) = true ->
         job_op p' job op = job_op p job op)) ->
  find_loop fuel p' machine duration s = find_loop fuel p machine duration s.
Proof.
  intros Hnj Hno Hagree. revert s. induction fuel as [|fuel IH]; intros s; simpl; [done|].
  rewrite (scan_ext p p') by done.
  destruct (scan p machine s (s + duration)) as [[|] ep]; [done|]. apply IH.
Qed.

(** Writing the start time of an operation of another machine (committing
    it, moving it or resetting it) does not change the slot found on
    [machine]. *)
Theorem find_available_time_other_machine (p : JobShopProblem)
    (job op v machine duration earliest_start : Z) :
  well_formed p -> in_table p job op ->
  Op.machine (job_op p job op) <> machine ->
  find_available_time (set_start_time p job op v) machine duration earliest_start
  = find_available_time p machine duration earliest_start.
Proof.
  intros Hwf Hin Hm. unfold find_available_time. rewrite cells_set.
  apply find_loop_ext; [done | done |]. intros job' op' Hin'.
  rewrite (job_op_set p job op v job' op') by done.
  case_decide as Hd; [|done]. inversion Hd; subst job' op'.
  assert (Hoff : forall t o, Op.machine o <> machine ->
            committed_on machine (Op.mk (Op.machine o) (Op.duration o) t) = false
            /\ committed_on machine o = false).
  { intros t o Ho. unfold committed_on. simpl.
    assert ((Op.machine o =? machine) = false) as -> by (apply Z.eqb_neq; done).
    by rewrite !andb_false_r. }
  destruct (Hoff v _ Hm) as [-> ->]. done.
Qed.

Lemma find_available_time_other_machine_witness :
  find_available_time (set_start_time example_problem 0 1 3) 0 4 0
  = find_available_time example_problem 0 4 0.
Proof.
  apply find_available_time_other_machine.
  - apply example_problem_valid.
  - unfold in_table. simpl. lia.
  - simpl. lia.
Defined.

(** An unscheduled operation is invisible to the search, whatever its
    machine: resetting a start time to -1 on a table where it is -1 already,
    or scheduling into a table without committed operations on [machine],
    is decided by the committed operations alone.  In particular the first
    operation placed on a machine starts at its earliest start. *)
Lemma find_available_time_empty_machine (p : JobShopProblem)
    (machine duration earliest_start : Z) :
  (forall job op, in_table p job op ->
     Op.machine (job_op p job op) = machine -> Op.start_time (job_op p job op) = -1) ->
  find_available_time p machine duration earliest_start = Some earliest_start.
Proof.
  intros Hnone. apply find_loop_free. intros job op Hin.
  unfold conflict, committed_on. cbn [fst snd].
  destruct (Z.eqb_spec (Op.machine (job_op p job op)) machine) as [Hm|Hm].
  - rewrite (Hnone job op Hin Hm). done.
  - by rewrite andb_false_r.
Qed.

Lemma find_available_time_empty_machine_witness :
  find_available_time example_problem 1 2 7 = Some 7.
Proof.
  apply find_available_time_empty_machine.
  intros job op [Hj Ho] _.
  change (num_jobs example_problem) with 2 in Hj.
  change (num_operations example_problem) with 2 in Ho.
  assert (Hc : (job = 0 \/ job = 1) /\ (op = 0 \/ op = 1)) by lia.
  destruct Hc as [[-> | ->] [-> | ->]]; reflexivity.
Defined.

(** ** The makespan of [write_output_file] *)

Lemma check_ends_in_int_sound p job op :
  check_ends_in_int p = true -> in_table p job op -> in_int (op_end p (job, op)).
Proof.
  unfold check_ends_in_int. rewrite forallb_forall. intros H Hin.
  apply elem_of_cells, list_elem_of_In, H in Hin.
  apply andb_prop in Hin as [H1 H2]. unfold in_int. lia.
Qed.

(** The running maximum of the two makespan loops: [val c] is the end time
    that cell [c] contributes, if it contributes. *)
Lemma fold_max_spec {C} (val : C -> option Z) (l : list C) (m0 : Z) :
  let M := fold_left (fun m c => match val c with
                                 | Some v => if v >? m then v else m
                                 | None => m
                                 end) l m0 in
  m0 <= M
  /\ (forall c v, c ∈ l -> val c = Some v -> v <= M)
  /\ (M = m0 \/ exists c, c ∈ l /\ val c = Some M).
Proof.
  revert m0. induction l as [|c l IH]; intros m0; simpl.
  - split; [lia|]. split; [|by left]. intros c v Hin. by apply elem_of_nil in Hin.
  - set (m1 := match val c with Some v => if v >? m0 then v else m0 | None => m0 end).
    destruct (IH m1) as (Hle & Hub & Hatt).
    assert (Hm1 : m0 <= m1 /\ (forall v, val c = Some v -> v <= m1)
                  /\ (m1 = m0 \/ val c = Some m1)).
    { subst m1. destruct (val c) as [v|]; [|split; [lia|]; split; [done|by left]].
      rewrite Z.gtb_ltb. destruct (Z.ltb_spec m0 v).
      - split; [lia|]. split; [intros ? [= <-]; lia | by right].
      - split; [lia|]. split; [intros ? [= <-]; lia | by left]. }
    destruct Hm1 as (H0 & H1 & H2). split; [lia|]. split.
    + intros c' v Hin Hv. apply elem_of_cons in Hin as [->|Hin].
      * specialize (H1 v Hv). lia.
      * by apply (Hub c').
    + destruct Hatt as [Heq|(c' & Hin & Hv)].
      * destruct H2 as [H2|H2].
        -- left. lia.
        -- right. exists c. split; [left|]. by rewrite Heq.
      * right. exists c'. split; [by right | done].
Qed.

Lemma makespan_all_as_max p :
  makespan_all p
  = fold_left (fun m c => match Some (op_end p c) with
                          | Some v => if v >? m then v else m
                          | None => m
                          end) (cells p) 0.
Proof. unfold makespan_all. apply fold_left_ext_in. by intros m [job op] _. Qed.

Lemma makespan_scheduled_as_max p :
  makespan_scheduled p
  = fold_left (fun m c =>
                 match (if negb (Op.start_time (job_op p c.1 c.2) =? -1)
                        then Some (op_end p c) else None) with
                 | Some v => if v >? m then v else m
                 | None => m
                 end) (cells p) 0.
Proof.
  unfold makespan_scheduled. apply fold_left_ext_in. intros m [job op] _.
  cbn [fst snd]. by destruct (negb _).
Qed.

Lemma makespan_all_spec (p : JobShopProblem) :
  0 <= makespan_all p
  /\ (forall job op, in_table p job op -> op_end p (job, op) <= makespan_all p)
  /\ (makespan_all p = 0
      \/ exists job op, in_table p job op /\ op_end p (job, op) = makespan_all p).
Proof.
  rewrite makespan_all_as_max.
  destruct (fold_max_spec (fun c => Some (op_end p c)) (cells p) 0) as (H0 & Hub & Hatt).
  split; [done|]. split.
  - intros job op Hin. apply (Hub (job, op)); [by apply elem_of_cells | done].
  - destruct Hatt as [Heq|([job op] & Hin & [= Hv])]; [by left|].
    right. exists job, op. split; [by apply elem_of_cells | done].
Qed.

(** Where every end is an [int], the makespan loops form the sums of [Z]. *)
Lemma int_makespan_all_exact (p : JobShopProblem) :
  (forall job op, in_table p job op -> in_int (op_end p (job, op))) ->
  Int32.makespan_all p = makespan_all p.
Proof.
  intros Hint. unfold Int32.makespan_all, makespan_all.
  apply fold_left_ext_in. intros m [job op] Hin. apply elem_of_cells in Hin.
  unfold Int32.add. rewrite wrap_in_int; [done|]. apply (Hint job op Hin).
Qed.

Lemma int_makespan_scheduled_exact (p : JobShopProblem) :
  (forall job op, in_table p job op -> Op.start_time (job_op p job op) <> -1 ->
     in_int (op_end p (job, op))) ->
  Int32.makespan_scheduled p = makespan_scheduled p.
Proof.
  intros Hint. unfold Int32.makespan_scheduled, makespan_scheduled.
  apply fold_left_ext_in. intros m [job op] Hin. apply elem_of_cells in Hin.
  destruct (Z.eqb_spec (Op.start_time (job_op p job op)) (-1)) as [|Hne]; [done|].
  cbn [negb]. unfold Int32.add. rewrite wrap_in_int; [done|]. by apply (Hint job op Hin).
Qed.

(** On a table in which every [start_time + duration] is an [int], the
    makespan written by the sequential program is the largest value of
    [start_time + duration] over the whole table, and 0 when none is
    positive; operations still at -1 are counted with end [duration - 1]. *)
Theorem makespan_all_is_max (p : JobShopProblem) :
  (forall job op, in_table p job op -> in_int (op_end p (job, op))) ->
  Int32.makespan_all p = makespan_all p
  /\ 0 <= makespan_all p
  /\ (forall job op, in_table p job op -> op_end p (job, op) <= makespan_all p)
  /\ (makespan_all p = 0
      \/ exists job op, in_table p job op /\ op_end p (job, op) = makespan_all p).
Proof.
  intros Hint. split; [by apply int_makespan_all_exact | apply makespan_all_spec].
Qed.

Lemma makespan_all_is_max_witness :
  Int32.makespan_all (set_start_time example_problem 0 0 4) = 7
  /\ op_end (set_start_time example_problem 0 0 4) (0, 0) <= 7.
Proof.
  destruct (makespan_all_is_max (set_start_time example_problem 0 0 4))
    as (Heq & _ & Hub & _).
  - intros job op Hin. apply check_ends_in_int_sound; [reflexivity | done].
  - split; [by rewrite Heq|].
    apply (Hub 0 0). unfold in_table. simpl. lia.
Defined.

Lemma makespan_scheduled_spec (p : JobShopProblem) :
  0 <= makespan_scheduled p
  /\ (forall job op, in_table p job op -> Op.start_time (job_op p job op) <> -1 ->
        op_end p (job, op) <= makespan_scheduled p)
  /\ (makespan_scheduled p = 0
      \/ exists job op, in_table p job op /\ Op.start_time (job_op p job op) <> -1
                        /\ op_end p (job, op) = makespan_scheduled p).
Proof.
  rewrite makespan_scheduled_as_max.
  destruct (fold_max_spec
              (fun c => if negb (Op.start_time (job_op p c.1 c.2) =? -1)
                        then Some (op_end p c) else None) (cells p) 0)
    as (H0 & Hub & Hatt).
  split; [done|]. split.
  - intros job op Hin Hs. apply (Hub (job, op)); [by apply elem_of_cells|].
    cbn [fst snd]. by destruct (Z.eqb_spec (Op.start_time (job_op p job op)) (-1)).
  - destruct Hatt as [Heq|([job op] & Hin & Hv)]; [by left|].
    right. exists job, op. cbn [fst snd] in Hv.
    destruct (Z.eqb_spec (Op.start_time (job_op p job op)) (-1)) as [|Hne];
      simpl in Hv; [done|].
    injection Hv as Hv. split; [by apply elem_of_cells | done].
Qed.

(** On a table in which the end of every scheduled operation is an [int],
    the makespan written by the parallel program is the largest end time of
    the scheduled operations, and 0 when none is positive. *)
Theorem makespan_scheduled_is_max (p : JobShopProblem) :
  (forall job op, in_table p job op -> Op.start_time (job_op p job op) <> -1 ->
     in_int (op_end p (job, op))) ->
  Int32.makespan_scheduled p = makespan_scheduled p
  /\ 0 <= makespan_scheduled p
  /\ (forall job op, in_table p job op -> Op.start_time (job_op p job op) <> -1 ->
        op_end p (job, op) <= makespan_scheduled p)
  /\ (makespan_scheduled p = 0
      \/ exists job op, in_table p job op /\ Op.start_time (job_op p job op) <> -1
                        /\ op_end p (job, op) = makespan_scheduled p).
Proof.
  intros Hint.
  split; [by apply int_makespan_scheduled_exact | apply makespan_scheduled_spec].
Qed.

Lemma makespan_scheduled_is_max_witness :
  Int32.makespan_scheduled (set_start_time example_problem 0 0 4) = 7.
Proof.
  destruct (makespan_scheduled_is_max (set_start_time example_problem 0 0 4))
    as (Heq & _).
  - intros job op Hin _. apply check_ends_in_int_sound; [reflexivity | done].
  - by rewrite Heq.
Defined.

(** The two programs compute the makespan differently, but the parallel one
    never reports more than the sequential one, and they agree on every
    table in which all operations are scheduled. *)
Theorem makespans_agree_when_complete (p : JobShopProblem) :
  makespan_scheduled p <= makespan_all p
  /\ ((forall job op, in_table p job op -> Op.start_time (job_op p job op) <> -1) ->
      makespan_scheduled p = makespan_all p).
Proof.
  destruct (makespan_all_spec p) as (Ha0 & Haub & Haatt).
  destruct (makespan_scheduled_spec p) as (Hs0 & Hsub & Hsatt).
  split.
  - destruct Hsatt as [->|(job & op & Hin & _ & <-)]; [done | by apply Haub].
  - intros Hall.
    assert (makespan_scheduled p <= makespan_all p).
    { destruct Hsatt as [->|(job & op & Hin & _ & <-)]; [done | by apply Haub]. }
    assert (makespan_all p <= makespan_scheduled p); [|lia].
    destruct Haatt as [->|(job & op & Hin & <-)]; [done|].
    apply Hsub; [done | by apply Hall].
Qed.

Lemma makespans_agree_when_complete_witness :
  makespan_scheduled (set_start_time (load 1 1 [[(0, 5)]]) 0 0 2)
  = makespan_all (set_start_time (load 1 1 [[(0, 5)]]) 0 0 2).
Proof.
  apply (makespans_agree_when_complete (set_start_time (load 1 1 [[(0, 5)]]) 0 0 2)).
  intros job op [Hj Ho]. simpl in Hj, Ho.
  assert (job = 0 /\ op = 0) as [-> ->] by lia. simpl. lia.
Defined.

(** ** Commits: what both schedulers maintain *)

Section commit.
Variables (p : JobShopProblem) (so es : list Z) (job t : Z) (es' : list Z).
Hypothesis Hinv : sched_inv p so es.
Hypothesis Hjob : 0 <= job < num_jobs p.
Hypothesis Hlt : so.[job] < num_operations p.
Hypothesis Hfind :
  find_available_time p (Op.machine (job_op p job so.[job]))
    (Op.duration (job_op p job so.[job])) es.[job] = Some t.
Hypothesis Hes' :
  es' = es.[job <- t + Op.duration (job_op p job so.[job])]
  \/ (so.[job] + 1 = num_operations p /\ es' = es).

Let p' := set_start_time p job so.[job] t.
Let so' := so.[job <- so.[job] + 1].

Lemma commit_in_table : in_table p job so.[job].
Proof. pose proof (inv_so _ _ _ Hinv job Hjob). unfold in_table. lia. Qed.

Lemma commit_cell j o :
  in_table p j o ->
  job_op p' j o
  = if decide ((j, o) = (job, so.[job]))
    then Op.mk (Op.machine (job_op p job so.[job])) (Op.duration (job_op p job so.[job])) t
    else job_op p j o.
Proof.
  intros Hin. apply job_op_set; [apply Hinv | apply commit_in_table | done].
Qed.

Lemma commit_counter j :
  0 <= j < num_jobs p -> so'.[j] = so.[j] + (if decide (j = job) then 1 else 0).
Proof.
  intros Hj. subst so'. rewrite aget_aset; [| lia | lia |].
  - destruct (decide (job = j)) as [->|Hne].
    + by rewrite decide_True.
    + rewrite decide_False by done. lia.
  - rewrite (inv_len_so _ _ _ Hinv). destruct (inv_wf _ _ _ Hinv). lia.
Qed.

Lemma commit_other_start j :
  0 <= j < num_jobs p -> j <> job -> es'.[j] = es.[j].
Proof.
  intros Hj Hne. destruct Hes' as [->|[_ ->]]; [|done]. apply aget_aset_other; lia.
Qed.

(** A scheduled operation is not the one being committed. *)
Lemma commit_scheduled_other j o :
  in_table p j o -> Op.start_time (job_op p j o) <> -1 -> (j, o) <> (job, so.[job]).
Proof.
  intros Hin Hs [= -> ->]. apply Hs. apply (inv_todo _ _ _ Hinv); [done | lia].
Qed.

Lemma commit_scheduled_cell j o :
  in_table p j o -> o < so.[j] ->
  job_op p' j o = job_op p j o /\ (j, o) <> (job, so.[job]).
Proof.
  intros Hin Ho. assert (Hne : (j, o) <> (job, so.[job])) by (intros [= -> ->]; lia).
  split; [|done]. rewrite commit_cell by done. by rewrite decide_False.
Qed.

Lemma commit_conflict machine s e j o :
  in_table p j o -> conflict p machine s e (j, o) = true ->
  conflict p' machine s e (j, o) = true /\ (j, o) <> (job, so.[job]).
Proof.
  intros Hin Hc.
  assert (Hne : (j, o) <> (job, so.[job])).
  { apply commit_scheduled_other; [done|]. unfold conflict, committed_on in Hc.
    cbn [fst snd] in Hc. intros Heq. rewrite Heq in Hc. done. }
  split; [|done]. unfold conflict, op_end in *. cbn [fst snd] in *.
  rewrite commit_cell by done. by rewrite decide_False.
Qed.

Lemma commit_ready j o :
  in_table p j o -> o <= so.[j] -> ready p' j o = ready p j o.
Proof.
  intros [Hj Ho] Hle. unfold ready. destruct (Z.eqb_spec o 0); [done|].
  unfold op_end. cbn [fst snd].
  destruct (commit_scheduled_cell j (o - 1)) as [-> _]; [unfold in_table; lia | lia | done].
Qed.

Lemma same_input_commit : same_input p p'.
Proof.
  split_and!; try done. intros j o Hin. rewrite commit_cell by done.
  case_decide as Hd; [|done]. by inversion Hd; subst.
Qed.

Lemma keeps_scheduled_commit : keeps_scheduled (p, so, es) (p', so', es').
Proof.
  intros j o Hin Ho. cbn [fst snd] in *.
  destruct (commit_scheduled_cell j o Hin Ho) as [-> _]. split; [done|].
  destruct Hin as [Hj _]. rewrite commit_counter by done. destruct (decide _); lia.
Qed.

Lemma greedy_inv_commit : greedy_inv p so es -> greedy_inv p' so' es'.
Proof.
  intros [Hg1 Hg2]. pose proof commit_in_table as Hin0.
  pose proof (inv_so _ _ _ Hinv job Hjob) as Hop0. split.
  - intros j o Hin Ho. change (in_table p j o) in Hin.
    rewrite commit_counter in Ho by apply Hin.
    unfold no_left_shift. rewrite commit_ready; [|done|destruct (decide _); lia].
    rewrite commit_cell by done.
    destruct (decide ((j, o) = (job, so.[job]))) as [Heq|Hne].
    + inversion Heq; subst j o. cbn [Op.start_time Op.machine Op.duration].
      intros t0 Ht0. rewrite <- Hg2 in Ht0 by done.
      destruct (find_available_time_least _ _ _ _ _ Hfind) as (_ & _ & Hskip).
      destruct (Hskip t0 Ht0) as (j' & o' & Hin' & Hc).
      destruct (commit_conflict _ _ _ _ _ Hin' Hc) as [Hc' Hne'].
      by exists j', o'.
    + assert (Hold : o < so.[j]).
      { destruct (decide (j = job)) as [->|]; [|lia].
        assert (o <> so.[job]) by (intros ->; done). lia. }
      intros t0 Ht0. destruct (Hg1 j o Hin Hold t0 Ht0) as (j' & o' & Hin' & Hne' & Hc).
      destruct (commit_conflict _ _ _ _ _ Hin' Hc) as [Hc' _].
      by exists j', o'.
  - intros j Hj Hnext. change (0 <= j < num_jobs p) in Hj.
    change (num_operations p') with (num_operations p) in Hnext.
    rewrite commit_counter in * by done.
    destruct (decide (j = job)) as [->|Hne].
    + destruct Hes' as [->|[? _]]; [|lia].
      rewrite aget_aset_same.
      2:{ rewrite (inv_len_es _ _ _ Hinv). destruct (inv_wf _ _ _ Hinv). lia. }
      unfold ready. destruct (Z.eqb_spec (so.[job] + 1) 0); [lia|].
      unfold op_end. cbn [fst snd]. replace (so.[job] + 1 - 1) with so.[job] by lia.
      rewrite commit_cell by done. by rewrite decide_True.
    + rewrite Z.add_0_r in *. rewrite commit_other_start by done.
      rewrite commit_ready; [by apply Hg2 | | lia].
      pose proof (inv_so _ _ _ Hinv j Hj). unfold in_table. lia.
Qed.

End commit.

Lemma same_input_refl p : same_input p p.
Proof. by split_and!. Qed.

Lemma same_input_in_table p p' job op :
  same_input p p' -> in_table p' job op <-> in_table p job op.
Proof. intros (Hj & _ & Ho & _). unfold in_table. by rewrite Hj, Ho. Qed.

Lemma same_input_trans p1 p2 p3 :
  same_input p1 p2 -> same_input p2 p3 -> same_input p1 p3.
Proof.
  intros H12 H23. pose proof H12 as (Hj & Hm & Ho & Hc). pose proof H23 as (Hj' & Hm' & Ho' & Hc').
  split_and!; try congruence. intros job op Hin.
  destruct (Hc job op Hin) as [<- <-]. apply Hc'. by apply (same_input_in_table p1 p2).
Qed.

(** The durations add up to the same total. *)
Lemma same_input_total_work p p' : same_input p p' -> total_work p' = total_work p.
Proof.
  intros (Hj & _ & Ho & Hc). unfold total_work.
  assert (cells p' = cells p) as -> by (unfold cells; by rewrite Hj, Ho).
  apply Zsum_ext. intros [j o] Hin. apply elem_of_cells in Hin. apply (Hc j o Hin).
Qed.

Lemma commits_cons b1 b2 b3 : commit_step b1 b2 -> commits b2 b3 -> commits b1 b3.
Proof.
  intros Hstep Hrest. induction Hrest as [b|b2 b3 b4 _ IH Hlast].
  - by apply (commits_snoc b1 b1); [apply commits_refl|].
  - apply (commits_snoc b1 b3); [by apply IH | done].
Qed.

Lemma commits_trans b1 b2 b3 : commits b1 b2 -> commits b2 b3 -> commits b1 b3.
Proof.
  intros H12 H23. induction H23 as [b|b2 b3 b4 _ IH Hlast]; [done|].
  apply (commits_snoc b1 b3); [by apply IH | done].
Qed.

Lemma board_ok_init p :
  valid_problem p ->
  board_ok p (p, replicate (Z.to_nat MAX_JOBS) 0, replicate (Z.to_nat MAX_JOBS) 0).
Proof.
  intros Hv.
  assert (Hz : forall job, 0 <= job < num_jobs p -> (replicate (Z.to_nat MAX_JOBS) 0).[job] = 0).
  { intros job Hj. unfold aget. apply list_lookup_total_correct, lookup_replicate_2.
    destruct (vp_wf _ Hv). unfold MAX_JOBS in *. lia. }
  split; cbn [fst snd].
  - by apply sched_inv_init.
  - by apply bound_inv_init.
  - split.
    + intros job op [Hj Ho]. rewrite Hz by done. lia.
    + intros job Hj _. by rewrite !Hz.
  - apply same_input_refl.
Qed.

Lemma commit_step_ok p0 b b' :
  board_ok p0 b -> commit_step b b' ->
  board_ok p0 b' /\ keeps_scheduled b b'.
Proof.
  intros [Hs Hb Hg Hi] Hstep. destruct Hstep as [p so es job t es' Hjob Hlt Hfind Hes'].
  cbn [fst snd] in *. split; [split; cbn [fst snd]|].
  - by apply (sched_inv_commit p so es).
  - by apply (bound_inv_commit p so es).
  - by apply (greedy_inv_commit p so es).
  - apply (same_input_trans _ p); [done|]. by apply (same_input_commit p so es).
  - by apply keeps_scheduled_commit.
Qed.

Lemma commits_ok p0 b b' :
  board_ok p0 b -> commits b b' -> board_ok p0 b' /\ keeps_scheduled b b'.
Proof.
  intros Hok Hc. induction Hc as [b|b1 b2 b3 _ IH Hlast].
  - split; [done|]. by intros job op Hin Ho.
  - destruct (IH Hok) as [Hok2 Hk12].
    destruct (commit_step_ok p0 b2 b3 Hok2 Hlast) as [Hok3 Hk23].
    split; [done|]. intros job op Hin Ho.
    destruct (Hk12 job op Hin Ho) as [Heq Ho2].
    destruct (Hk23 job op) as [Heq3 Ho3]; [|done|split; [congruence | done]].
    apply (same_input_in_table p0) in Hin; [|apply Hok].
    apply (same_input_in_table p0); [apply Hok2 | done].
Qed.

(** Every end time on a board is within the total work of the input. *)
Lemma board_ok_ends p0 b job op :
  valid_problem p0 -> board_ok p0 b -> in_table b.1.1 job op ->
  op_end b.1.1 (job, op) <= total_work p0.
Proof.
  intros Hv [Hs Hb Hg Hi] Hin. destruct b as [[p so] es]. cbn [fst snd] in *.
  rewrite <- (same_input_total_work p0 p Hi).
  pose proof (work_done_le _ _ _ Hs) as Hw.
  destruct (decide (op < so.[job])) as [Hdone|Htodo].
  - destruct Hb as [Hends _]. specialize (Hends job op Hin Hdone). lia.
  - unfold op_end. cbn [fst snd]. rewrite (inv_todo _ _ _ Hs job op Hin) by lia.
    assert (Op.duration (job_op p job op) <= total_work p); [|lia].
    unfold total_work.
    assert (Hpt : Zsum ((fun c => if decide (c = (job, op))
                                  then Op.duration (job_op p job op) else 0) <$> cells p)
                  = Zsum ((fun _ => 0) <$> cells p) + Op.duration (job_op p job op)).
    { apply (Zsum_raise _ _ _ (job, op)); [apply NoDup_cells | by apply elem_of_cells | |].
      - by rewrite decide_True.
      - intros c _ Hne. by rewrite decide_False. }
    assert (Hz : Zsum ((fun _ : Z * Z => 0) <$> cells p) = 0).
    { clear. induction (cells p) as [|c l IH]; [done|]. rewrite fmap_cons, Zsum_cons. lia. }
    rewrite Hz in Hpt. rewrite <- (Z.add_0_l (Op.duration _)), <- Hpt.
    apply Zsum_mono. intros [j o] Hc. apply elem_of_cells in Hc.
    case_decide as Hd; [by inversion Hd; subst|].
    apply (inv_dur _ _ _ Hs j o Hc).
Qed.

(** ** The sequential scheduler as a sequence of commits *)

Lemma schedule_step_commit st job st' :
  seq_inv st -> 0 <= job < num_jobs (Sequential.problem st) -> eligible st job ->
  Sequential.schedule_step st job = Some st' ->
  commit_step (seq_board st) (seq_board st').
Proof.
  intros [Hinv Hcount] Hjob Hel. unfold eligible in Hel. unfold Sequential.schedule_step.
  destruct (find_available_time _ _ _ _) as [t|] eqn:Hfind; [|done].
  simpl. intros [= <-]. unfold seq_board. simpl.
  apply commit_next; try done.
  rewrite aget_aset_same.
  - destruct (Z.ltb_spec ((Sequential.scheduled_ops st).[job] + 1)
                (num_operations (Sequential.problem st)));
      [by left | right; split; [lia | done]].
  - rewrite (inv_len_so _ _ _ Hinv). destruct (inv_wf _ _ _ Hinv). lia.
Qed.

Lemma schedule_loop_commits fuel st st' :
  seq_inv st -> Sequential.schedule_loop fuel st = Some st' ->
  commits (seq_board st) (seq_board st').
Proof.
  revert st. induction fuel as [|fuel IH]; intros st Hinv; simpl.
  - destruct (_ <? _); [done|]. intros [= <-]. apply commits_refl.
  - destruct (_ <? _); [|intros [= <-]; apply commits_refl].
    pose proof (select_job_spec st) as Hsel.
    destruct (Sequential.select_job st) as [ej et]. simpl.
    destruct Hsel as [(-> & _)|(Hr & He & _)].
    + simpl. intros [= <-]. apply commits_refl.
    + destruct (Z.eqb_spec ej (-1)) as [->|_]; [lia|].
      destruct (schedule_step_inv st ej Hinv Hr He) as (st1 & Hstep & Hinv1 & _).
      rewrite Hstep. simpl. intros Hloop.
      apply (commits_cons _ (seq_board st1)); [by apply (schedule_step_commit st ej) | by apply IH].
Qed.

Lemma sequential_board p st :
  valid_problem p -> Sequential.schedule_jobs_sequential p = Some st ->
  board_ok p (seq_board st).
Proof.
  intros Hv Hrun. apply (schedule_loop_commits _ (Sequential.init p)) in Hrun;
    [|by apply seq_inv_init].
  by apply (commits_ok p _ _ (board_ok_init p Hv)) in Hrun as [Hok _].
Qed.

(** ** The coordinator as a sequence of commits *)

Section parallel_commits.
Import Parallel.

Lemma schedule_operation_commit num_threads st job st' :
  par_inv num_threads st -> 0 <= job < num_jobs (problem st) ->
  (scheduled_ops st).[job] < num_operations (problem st) ->
  schedule_operation st job (scheduled_ops st).[job] = Some st' ->
  commit_step (par_board st) (par_board st').
Proof.
  intros Hinv Hjob Hlt. unfold schedule_operation.
  destruct (find_available_time _ _ _ _) as [t|] eqn:Hfind; [|done].
  simpl. intros [= <-]. unfold par_board. simpl.
  apply commit_next; try done. by left.
Qed.

Lemma critical_upto_commits num_threads thread_id st (n : nat) :
  par_inv num_threads st -> Z.of_nat n <= num_jobs (problem st) ->
  forall st' ts c, critical_upto thread_id st n = Some (st', ts, c) ->
  commits (par_board st) (par_board st').
Proof.
  intros Hinv. induction n as [|n IH]; intros Hn st' ts' c'.
  - intros [= <- _ _]. apply commits_refl.
  - destruct (critical_upto_spec num_threads thread_id st n Hinv ltac:(lia))
      as (st1 & ts & c & Hrun & Hinv1 & (Hoa & Hit & Hnj & Hno) & _).
    specialize (IH ltac:(lia) _ _ _ Hrun).
    unfold critical_upto in *. rewrite seqZ_S, fold_left_app, Hrun.
    cbn [fold_left mbind option_bind]. rewrite Z.add_0_l.
    destruct (_ =? thread_id); [|by intros [= <- _ _]].
    destruct (Z.ltb_spec (scheduled_ops st1).[Z.of_nat n] (num_operations (problem st1)))
      as [Hlt|_]; [|by intros [= <- _ _]].
    destruct (schedule_operation st1 _ _) as [st2|] eqn:Hop; [|done].
    simpl. intros [= <- _ _]. apply (commits_snoc _ (par_board st1)); [done|].
    apply (schedule_operation_commit num_threads _ (Z.of_nat n)); [done | lia | done | done].
Qed.

Lemma critical_section_commits num_threads thread_id st st' ts c :
  par_inv num_threads st -> critical_section thread_id st = Some (st', ts, c) ->
  commits (par_board st) (par_board st').
Proof.
  intros Hinv. rewrite critical_section_upto.
  apply (critical_upto_commits num_threads); [done|].
  pose proof (num_jobs_nonneg _ _ _ (pi_sched _ _ Hinv)). lia.
Qed.

(** One parallel region: its commits and, when no thread is listed twice,
    the exact progress of every job. *)
Lemma parallel_region_commits num_threads (team : list Z) st c0 st' n :
  par_inv num_threads st ->
  fold_left
    (fun acc thread_id =>
       '(st, scheduled_this_iteration) ← acc;
       '(st', thread_scheduled, n) ← critical_section thread_id st;
       let worked :=
         if thread_scheduled =? 0 then thread_worked st'
         else (thread_worked st').[thread_id <- 1] in
       Some (mkState (problem st') (scheduled_ops st') (earliest_starts st')
               (op_assigned st') (assigned_count st') (iteration_count st') worked,
             scheduled_this_iteration + n))
    team (Some (st, c0)) = Some (st', n) ->
  commits (par_board st) (par_board st')
  /\ (NoDup team ->
      forall job, 0 <= job < num_jobs (problem st) ->
        ((op_assigned st).[job].[0] ∈ team ->
         (scheduled_ops st).[job] < num_operations (problem st) ->
         (scheduled_ops st').[job] = (scheduled_ops st).[job] + 1)
        /\ ((op_assigned st).[job].[0] ∉ team
            \/ num_operations (problem st) <= (scheduled_ops st).[job] ->
            (scheduled_ops st').[job] = (scheduled_ops st).[job])).
Proof.
  revert st c0. induction team as [|t team IH]; intros st c0 Hinv; cbn [fold_left].
  - intros [= <- _]. split; [apply commits_refl|]. intros _ job Hj.
    split; [|done]. intros Hin. by inversion Hin.
  - destruct (critical_section_spec num_threads t st Hinv)
      as (st1 & ts & c & Hcs & Hinv1 & Hfr1 & Htw1 & Hso1 & Hac1 & Hts).
    cbn [mbind option_bind]. rewrite Hcs. cbn [mbind option_bind].
    set (st1' := mkState (problem st1) (scheduled_ops st1) (earliest_starts st1)
                   (op_assigned st1) (assigned_count st1) (iteration_count st1)
                   (if ts =? 0 then thread_worked st1 else (thread_worked st1).[t <- 1])).
    assert (Hinv1' : par_inv num_threads st1') by (by apply (par_inv_frame _ st1)).
    intros Hrun. destruct (IH st1' _ Hinv1' Hrun) as [Hc Hexact].
    destruct Hfr1 as (Hoa1 & Hit1 & Hnj1 & Hno1). split.
    + apply (commits_trans _ (par_board st1)); [|exact Hc].
      by apply (critical_section_commits num_threads t st st1 ts c).
    + intros Hnd job Hj. apply NoDup_cons in Hnd as [Hnotin Hnd].
      destruct (Hexact Hnd job) as [Hadv Hstay]; [simpl; lia|].
      unfold st1' in Hadv, Hstay. simpl in Hadv, Hstay.
      rewrite Hoa1, Hno1 in Hadv, Hstay.
      specialize (Hso1 job Hj). unfold advances in Hso1.
      destruct (decide ((op_assigned st).[job].[0] = t
                        /\ (scheduled_ops st).[job] < num_operations (problem st)))
        as [[Ht Hl]|Hna].
      * assert (Hout : (op_assigned st).[job].[0] ∉ team) by (by rewrite Ht).
        split; [intros _ _; rewrite Hstay by (by left); lia|].
        intros [Hn|Hn]; [|lia]. exfalso. apply Hn. rewrite Ht. left.
      * rewrite Z.add_0_r in Hso1. rewrite Hso1 in Hadv, Hstay.
        split.
        -- intros Hin Hl. apply Hadv; [|done].
           apply elem_of_cons in Hin as [Ht|Hin]; [|done]. exfalso. by apply Hna.
        -- intros [Hn|Hn]; apply Hstay; [left | by right].
           intros Hin. apply Hn. by right.
Qed.

Lemma parallel_region_exact num_threads (team : list Z) st st' n :
  par_inv num_threads st -> parallel_region team st = Some (st', n) ->
  commits (par_board st) (par_board st')
  /\ (NoDup team ->
      forall job, 0 <= job < num_jobs (problem st) ->
        ((op_assigned st).[job].[0] ∈ team ->
         (scheduled_ops st).[job] < num_operations (problem st) ->
         (scheduled_ops st').[job] = (scheduled_ops st).[job] + 1)
        /\ ((op_assigned st).[job].[0] ∉ team
            \/ num_operations (problem st) <= (scheduled_ops st).[job] ->
            (scheduled_ops st').[job] = (scheduled_ops st).[job])).
Proof. intros Hinv. by apply (parallel_region_commits num_threads). Qed.

Lemma only_ownership_board st st' : only_ownership st st' -> par_board st' = par_board st.
Proof. intros (Hp & Hso & Hes & _). unfold par_board. by rewrite Hp, Hso, Hes. Qed.

Lemma fallback_job_commits num_threads job (k : nat) st st' :
  par_inv num_threads st -> 0 <= job < num_jobs (problem st) ->
  (scheduled_ops st).[job] + Z.of_nat k = num_operations (problem st) ->
  fold_left (fun acc op => st ← acc; schedule_operation st job op)
            (seqZ (scheduled_ops st).[job] (Z.of_nat k)) (Some st) = Some st' ->
  commits (par_board st) (par_board st').
Proof.
  revert st. induction k as [|k IH]; intros st Hinv Hjob Hk.
  - intros [= <-]. apply commits_refl.
  - rewrite seqZ_cons by lia. cbn [fold_left mbind option_bind].
    destruct (schedule_operation_inv num_threads st job Hinv Hjob ltac:(lia))
      as (st1 & Hop & Hinv1 & (Hoa & Hit & Hnj & Hno) & Htw1 & Hso1 & Hac1).
    rewrite Hop.
    assert (Hso1j : (scheduled_ops st1).[job] = (scheduled_ops st).[job] + 1).
    { rewrite Hso1, (scheduled_ops_after num_threads) by done.
      rewrite decide_True by done. lia. }
    replace (Z.succ (scheduled_ops st).[job]) with (scheduled_ops st1).[job] by lia.
    replace (Z.pred (Z.of_nat (S k))) with (Z.of_nat k) by lia.
    intros Hrun. apply (commits_cons _ (par_board st1)).
    + apply (schedule_operation_commit num_threads _ job); [done | done | lia | done].
    + apply IH; [done | lia | lia | done].
Qed.

Lemma fallback_upto_commits num_threads st (n : nat) st' :
  par_inv num_threads st -> Z.of_nat n <= num_jobs (problem st) ->
  fallback_upto st n = Some st' -> commits (par_board st) (par_board st').
Proof.
  intros Hinv. revert st'. induction n as [|n IH]; intros st' Hn.
  - intros [= <-]. apply commits_refl.
  - destruct (fallback_upto_spec num_threads st n Hinv ltac:(lia))
      as (st1 & Hrun & Hinv1 & (Hoa & Hit & Hnj & Hno) & Hso1).
    specialize (IH _ ltac:(lia) Hrun).
    unfold fallback_upto in *. rewrite seqZ_S, fold_left_app, Hrun.
    cbn [fold_left mbind option_bind]. rewrite Z.add_0_l.
    pose proof (inv_so _ _ _ (pi_sched _ _ Hinv1) (Z.of_nat n) ltac:(lia)) as Hb.
    rewrite seqZ_to_nat. intros Hjob.
    apply (commits_trans _ (par_board st1)); [done|].
    apply (fallback_job_commits num_threads (Z.of_nat n)
             (Z.to_nat (num_operations (problem st1) - (scheduled_ops st1).[Z.of_nat n])));
      [done | lia | lia | done].
Qed.

Lemma fallback_commits num_threads st st' :
  par_inv num_threads st -> fallback st = Some st' ->
  commits (par_board st) (par_board st').
Proof.
  intros Hinv Hfb. pose proof (num_jobs_nonneg _ _ _ (pi_sched _ _ Hinv)) as Hnj.
  apply (fallback_upto_commits num_threads st (Z.to_nat (num_jobs (problem st))));
    [done | lia |].
  unfold fallback in Hfb. rewrite seqZ_to_nat in Hfb. exact Hfb.
Qed.

Lemma coordinate_commits num_threads teams fuel st st' warning :
  par_inv num_threads st ->
  coordinate fuel teams num_threads st = Some (st', warning) ->
  commits (par_board st) (par_board st').
Proof.
  revert st. induction fuel as [|fuel IH]; intros st Hinv; cbn [coordinate].
  - destruct (_ && _); [done|]. intros [= <- _]. apply commits_refl.
  - destruct (_ && _); [|intros [= <- _]; apply commits_refl].
    pose proof (par_inv_next_iteration _ _ Hinv) as Hinv0.
    destruct (parallel_region_spec num_threads
                (teams (iteration_count (next_iteration st))) _ Hinv0)
      as (st1 & n & Hreg & Hinv1 & _).
    rewrite Hreg. cbn [mbind option_bind].
    destruct (parallel_region_exact num_threads _ _ _ _ Hinv0 Hreg) as [Hc1 _].
    change (par_board (next_iteration st)) with (par_board st) in Hc1.
    destruct (n =? 0).
    + pose proof (redistribute_spec num_threads st1 Hinv1) as Hred.
      destruct (redistribute num_threads st1) as [st2 flag].
      destruct Hred as (Honly & Hinv2). apply only_ownership_board in Honly.
      destruct (flag =? 0).
      * intros Hrun. apply (commits_trans _ (par_board st1)); [done|].
        rewrite <- Honly. by apply IH.
      * destruct (fallback st2) as [st3|] eqn:Hfb; [|done].
        cbn [mbind option_bind]. intros [= <- _].
        apply (commits_trans _ (par_board st1)); [done|].
        rewrite <- Honly. by apply (fallback_commits num_threads).
    + intros Hrun. apply (commits_trans _ (par_board st1)); [done | by apply IH].
Qed.

Lemma parallel_board teams num_threads p r :
  valid_problem p -> 1 <= num_threads ->
  schedule_with_strict_division teams num_threads p = Some r ->
  board_ok p (par_board (final r)).
Proof.
  intros Hv HT. unfold schedule_with_strict_division.
  destruct (coordinate _ _ _ _) as [[st w]|] eqn:Hrun; [|done].
  cbn [mbind option_bind]. intros [= <-]. simpl.
  apply (coordinate_commits num_threads) in Hrun; [|by apply par_inv_init].
  by apply (commits_ok p _ _ (board_ok_init p Hv)) in Hrun as [Hok _].
Qed.

End parallel_commits.

Lemma commits_keep b b' :
  sched_inv b.1.1 b.1.2 b.2 -> commits b b' ->
  sched_inv b'.1.1 b'.1.2 b'.2 /\ same_input b.1.1 b'.1.1 /\ keeps_scheduled b b'.
Proof.
  intros Hs Hc. induction Hc as [b|b1 b2 b3 _ IH Hlast].
  - split; [done|]. split; [apply same_input_refl|]. by intros job op Hin Ho.
  - destruct (IH Hs) as (Hs2 & Hi12 & Hk12).
    destruct Hlast as [p so es job t es' Hjob Hlt Hfind Hes']. cbn [fst snd] in *.
    split; [by apply (sched_inv_commit p so es)|].
    pose proof (same_input_commit p so es job t Hs2 Hjob Hlt) as Hi23.
    split; [by apply (same_input_trans _ p)|].
    intros j o Hin Ho. destruct (Hk12 j o Hin Ho) as [Heq Ho2]. cbn [fst snd] in *.
    destruct (keeps_scheduled_commit p so es job t es' Hs2 Hjob Hlt Hfind Hes' j o)
      as [Heq3 Ho3]; cbn [fst snd]; [by apply (same_input_in_table b1.1.1 p) | done |].
    cbn [fst snd] in *. split; [congruence | done].
Qed.

(** An operation with a start time is one that the counters have passed. *)
Lemma scheduled_below_counter p so es job op :
  sched_inv p so es -> in_table p job op ->
  Op.start_time (job_op p job op) <> -1 -> op < so.[job].
Proof.
  intros Hs Hin Hne. destruct (decide (op < so.[job])) as [|Hge]; [done|].
  exfalso. apply Hne. apply (inv_todo _ _ _ Hs); [done | lia].
Qed.

(** ** The sequential scheduler: what a run does to the table *)

(** The sequential scheduler writes start times only: after the run the
    table has the dimensions, machines and durations of the input. *)
Theorem sequential_keeps_input (p : JobShopProblem) (st : Sequential.State) :
  valid_problem p -> Sequential.schedule_jobs_sequential p = Some st ->
  same_input p (Sequential.problem st).
Proof. intros Hv Hrun. apply (sequential_board p st Hv Hrun). Qed.

Lemma sequential_keeps_input_witness :
  exists st, Sequential.schedule_jobs_sequential example_problem = Some st
    /\ same_input example_problem (Sequential.problem st).
Proof.
  eexists. split; [vm_compute; reflexivity|].
  apply sequential_keeps_input; [apply example_problem_valid | vm_compute; reflexivity].
Defined.

(** Whether the sequential run completes or leaves the loop early, every
    end time in the table, and so the makespan that [write_output_file]
    computes from it, is at most the sum of all durations of the input. *)
Theorem sequential_makespan_bound (p : JobShopProblem) (st : Sequential.State) :
  valid_problem p -> Sequential.schedule_jobs_sequential p = Some st ->
  (forall job op, in_table p job op ->
     op_end (Sequential.problem st) (job, op) <= total_work p)
  /\ makespan_all (Sequential.problem st) <= total_work p.
Proof.
  intros Hv Hrun. pose proof (sequential_board p st Hv Hrun) as Hok.
  assert (Hends : forall job op, in_table (Sequential.problem st) job op ->
            op_end (Sequential.problem st) (job, op) <= total_work p).
  { intros job op Hin. by apply (board_ok_ends p (seq_board st)). }
  split.
  - intros job op Hin. apply Hends. by apply (same_input_in_table p); [apply Hok|].
  - destruct (makespan_all_spec (Sequential.problem st)) as (_ & _ & [->|Hatt]).
    + pose proof (work_done_le _ _ _ (bo_sched _ _ Hok)) as Hw.
      pose proof (same_input_total_work p _ (bo_input _ _ Hok)) as Ht.
      cbn [seq_board fst snd] in Hw, Ht. lia.
    + destruct Hatt as (job & op & Hin & <-). by apply Hends.
Qed.

Lemma sequential_makespan_bound_witness :
  exists st, Sequential.schedule_jobs_sequential sentinel_problem = Some st
    /\ makespan_all (Sequential.problem st) <= total_work sentinel_problem.
Proof.
  eexists. split; [vm_compute; reflexivity|].
  apply sequential_makespan_bound; [apply sentinel_problem_valid | vm_compute; reflexivity].
Defined.

(** The sequential placement is greedy: no scheduled operation could start
    earlier.  At every time from the end of the operation before it in its
    job (0 for the first one) up to its start, its interval would meet
    another scheduled operation of the same machine. *)
Theorem sequential_no_left_shift (p : JobShopProblem) (st : Sequential.State)
    (job op : Z) :
  valid_problem p -> Sequential.schedule_jobs_sequential p = Some st ->
  in_table p job op ->
  Op.start_time (job_op (Sequential.problem st) job op) <> -1 ->
  no_left_shift (Sequential.problem st) job op.
Proof.
  intros Hv Hrun Hin Hs. pose proof (sequential_board p st Hv Hrun) as [Hsch _ Hg Hi].
  cbn [seq_board fst snd] in *.
  apply (same_input_in_table p _ job op Hi) in Hin.
  apply Hg; [done|]. by apply (scheduled_below_counter _ _ _ _ _ Hsch).
Qed.

Lemma sequential_no_left_shift_witness :
  exists st, Sequential.schedule_jobs_sequential example_problem = Some st
    /\ no_left_shift (Sequential.problem st) 1 1.
Proof.
  eexists. split; [vm_compute; reflexivity|].
  apply (sequential_no_left_shift example_problem).
  - apply example_problem_valid.
  - vm_compute; reflexivity.
  - unfold in_table. simpl. lia.
  - simpl. lia.
Defined.

(** From any head of the sequential loop on, the rest of the run leaves the
    operations that are scheduled as they are. *)
Theorem sequential_keeps_scheduled (fuel : nat) (st st' : Sequential.State)
    (job op : Z) :
  seq_inv st -> Sequential.schedule_loop fuel st = Some st' ->
  in_table (Sequential.problem st) job op ->
  Op.start_time (job_op (Sequential.problem st) job op) <> -1 ->
  job_op (Sequential.problem st') job op = job_op (Sequential.problem st) job op.
Proof.
  intros Hinv Hrun Hin Hs. pose proof (si_sched _ Hinv) as Hsch.
  apply schedule_loop_commits in Hrun; [|done].
  apply commits_keep in Hrun as (_ & _ & Hk); [|done].
  apply (Hk job op Hin). by apply (scheduled_below_counter _ _ _ _ _ Hsch).
Qed.

Lemma sequential_keeps_scheduled_witness :
  exists st1 st',
    Sequential.schedule_step (Sequential.init example_problem) 0 = Some st1
    /\ Sequential.schedule_loop 3 st1 = Some st'
    /\ job_op (Sequential.problem st') 0 0 = job_op (Sequential.problem st1) 0 0.
Proof.
  destruct (schedule_step_inv (Sequential.init example_problem) 0) as (st1 & Hstep & Hinv1 & _).
  - apply seq_inv_init, example_problem_valid.
  - simpl. lia.
  - vm_compute. reflexivity.
  - pose proof Hstep as Hc. vm_compute in Hc. injection Hc as <-.
    eexists _, _. split; [exact Hstep|]. split; [vm_compute; reflexivity|].
    apply (sequential_keeps_scheduled 3); [exact Hinv1 | vm_compute; reflexivity | |].
    + unfold in_table. simpl. lia.
    + simpl. lia.
Defined.


(** ** The coordinator: what a run does to the table *)

(** The coordinated scheduler writes start times only, whatever teams the
    runtime delivers and whether or not redistribution or the fallback ran:
    after the call the table has the dimensions, machines and durations of
    the input. *)
Theorem parallel_keeps_input (teams : Z -> list Z) (num_threads : Z)
    (p : JobShopProblem) (r : Parallel.Result) :
  valid_problem p -> 1 <= num_threads <= MAX_THREADS ->
  teams_in_range num_threads teams ->
  Parallel.schedule_with_strict_division teams num_threads p = Some r ->
  same_input p (Parallel.problem (Parallel.final r)).
Proof.
  intros Hv [HT _] _ Hrun. apply (parallel_board teams num_threads p r Hv HT Hrun).
Qed.

Lemma parallel_keeps_input_witness :
  exists r,
    Parallel.schedule_with_strict_division shrinking_teams 2 example_problem = Some r
    /\ same_input example_problem (Parallel.problem (Parallel.final r)).
Proof.
  eexists. split; [vm_compute; reflexivity|].
  apply (parallel_keeps_input shrinking_teams 2).
  - apply example_problem_valid.
  - unfold MAX_THREADS. lia.
  - intros i. unfold shrinking_teams. destruct (i =? 1); repeat constructor; lia.
  - vm_compute; reflexivity.
Defined.

(** Whatever the teams, and also when the call gives up at the iteration
    cap, every scheduled operation ends within the sum of all durations of
    the input, and so does the makespan that [write_output_file] computes. *)
Theorem parallel_makespan_bound (teams : Z -> list Z) (num_threads : Z)
    (p : JobShopProblem) (r : Parallel.Result) :
  valid_problem p -> 1 <= num_threads <= MAX_THREADS ->
  teams_in_range num_threads teams ->
  Parallel.schedule_with_strict_division teams num_threads p = Some r ->
  (forall job op, in_table p job op ->
     op_end (Parallel.problem (Parallel.final r)) (job, op) <= total_work p)
  /\ 0 <= makespan_scheduled (Parallel.problem (Parallel.final r)) <= total_work p.
Proof.
  intros Hv [HT _] _ Hrun. pose proof (parallel_board teams num_threads p r Hv HT Hrun) as Hok.
  assert (Hends : forall job op, in_table (Parallel.problem (Parallel.final r)) job op ->
            op_end (Parallel.problem (Parallel.final r)) (job, op) <= total_work p).
  { intros job op Hin. by apply (board_ok_ends p (par_board (Parallel.final r))). }
  split.
  - intros job op Hin. apply Hends. by apply (same_input_in_table p); [apply Hok|].
  - destruct (makespan_scheduled_spec (Parallel.problem (Parallel.final r)))
      as (H0 & _ & [Hz|Hatt]).
    + pose proof (work_done_le _ _ _ (bo_sched _ _ Hok)) as Hw.
      pose proof (same_input_total_work p _ (bo_input _ _ Hok)) as Ht.
      cbn [par_board fst snd] in Hw, Ht. lia.
    + destruct Hatt as (job & op & Hin & _ & Heq). specialize (Hends job op Hin). lia.
Qed.

Lemma parallel_makespan_bound_witness :
  exists r,
    Parallel.schedule_with_strict_division (fun _ => [0]) 2 example_problem = Some r
    /\ Parallel.status r = 0
    /\ 0 <= makespan_scheduled (Parallel.problem (Parallel.final r))
       <= total_work example_problem.
Proof.
  eexists. split; [vm_compute; reflexivity|]. split; [vm_compute; reflexivity|].
  apply (parallel_makespan_bound (fun _ => [0]) 2).
  - apply example_problem_valid.
  - unfold MAX_THREADS. lia.
  - intros i. repeat constructor; lia.
  - vm_compute; reflexivity.
Defined.

(** The coordinated placement is greedy as well: no scheduled operation
    could start at an earlier time from the end of the operation before it
    in its job on, whichever thread or the fallback placed it. *)
Theorem parallel_no_left_shift (teams : Z -> list Z) (num_threads : Z)
    (p : JobShopProblem) (r : Parallel.Result) (job op : Z) :
  valid_problem p -> 1 <= num_threads <= MAX_THREADS ->
  teams_in_range num_threads teams ->
  Parallel.schedule_with_strict_division teams num_threads p = Some r ->
  in_table p job op ->
  Op.start_time (job_op (Parallel.problem (Parallel.final r)) job op) <> -1 ->
  no_left_shift (Parallel.problem (Parallel.final r)) job op.
Proof.
  intros Hv [HT _] _ Hrun Hin Hs.
  pose proof (parallel_board teams num_threads p r Hv HT Hrun) as [Hsch _ Hg Hi].
  cbn [par_board fst snd] in *.
  apply (same_input_in_table p _ job op Hi) in Hin.
  apply Hg; [done|]. by apply (scheduled_below_counter _ _ _ _ _ Hsch).
Qed.

Lemma parallel_no_left_shift_witness :
  exists r,
    Parallel.schedule_with_strict_division (fun _ => seqZ 0 2) 2 example_problem = Some r
    /\ no_left_shift (Parallel.problem (Parallel.final r)) 1 1.
Proof.
  eexists. split; [vm_compute; reflexivity|].
  apply (parallel_no_left_shift (fun _ => seqZ 0 2) 2 example_problem).
  - apply example_problem_valid.
  - unfold MAX_THREADS. lia.
  - intros i. apply Forall_seqZ. lia.
  - vm_compute; reflexivity.
  - unfold in_table. simpl. lia.
  - vm_compute. discriminate.
Defined.

(** From any state of the main loop on, the rest of the call (rounds,
    redistribution and fallback) leaves the scheduled operations as they
    are. *)
Theorem parallel_keeps_scheduled (teams : Z -> list Z) (num_threads : Z) (fuel : nat)
    (st st' : Parallel.State) (warning : bool) (job op : Z) :
  par_inv num_threads st ->
  Parallel.coordinate fuel teams num_threads st = Some (st', warning) ->
  in_table (Parallel.problem st) job op ->
  Op.start_time (job_op (Parallel.problem st) job op) <> -1 ->
  job_op (Parallel.problem st') job op = job_op (Parallel.problem st) job op.
Proof.
  intros Hinv Hrun Hin Hs. pose proof (pi_sched _ _ Hinv) as Hsch.
  apply (coordinate_commits num_threads) in Hrun; [|done].
  apply commits_keep in Hrun as (_ & _ & Hk); [|done].
  apply (Hk job op Hin). by apply (scheduled_below_counter _ _ _ _ _ Hsch).
Qed.

Lemma parallel_keeps_scheduled_witness :
  exists st1 st' warning,
    Parallel.schedule_operation (Parallel.init 2 example_problem) 0 0 = Some st1
    /\ Parallel.coordinate 10 (fun _ => seqZ 0 2) 2 st1 = Some (st', warning)
    /\ job_op (Parallel.problem st') 0 0 = job_op (Parallel.problem st1) 0 0.
Proof.
  destruct (schedule_operation_inv 2 (Parallel.init 2 example_problem) 0)
    as (st1 & Hstep & Hinv1 & _).
  - apply par_inv_init; [apply example_problem_valid | lia].
  - simpl. lia.
  - vm_compute. reflexivity.
  - pose proof Hstep as Hc. vm_compute in Hc. injection Hc as <-.
    eexists _, _, _. split; [exact Hstep|]. split; [vm_compute; reflexivity|].
    apply (parallel_keeps_scheduled (fun _ => seqZ 0 2) 2 10 _ _ false);
      [exact Hinv1 | vm_compute; reflexivity | |].
    + unfold in_table. simpl. lia.
    + simpl. lia.
Defined.


(** ** Rounds of the coordinator when every thread runs *)

Lemma Zsum_const {A} (m : Z) (l : list A) :
  Zsum ((fun _ => m) <$> l) = Z.of_nat (length l) * m.
Proof.
  induction l as [|x l IH]; [done|].
  rewrite fmap_cons, Zsum_cons, IH. cbn [length]. lia.
Qed.

Lemma scheduled_total_uniform so nj k :
  0 <= nj -> (forall job, 0 <= job < nj -> so.[job] = k) ->
  scheduled_total so nj = nj * k.
Proof.
  intros Hnj Hall. unfold scheduled_total.
  rewrite (Zsum_ext (fun _ => k)).
  - rewrite Zsum_const, length_seqZ, Z2Nat.id by lia. done.
  - intros j Hin. apply elem_of_seqZ in Hin. apply Hall. lia.
Qed.

Section rounds.
Import Parallel.

Lemma full_team_NoDup num_threads team : full_team num_threads team -> NoDup team.
Proof.
  unfold full_team. intros ->. apply NoDup_seqZ.
Qed.

Lemma full_team_elem num_threads team t :
  full_team num_threads team -> 0 <= t < num_threads -> t ∈ team.
Proof. unfold full_team. intros -> Ht. apply elem_of_seqZ. lia. Qed.

(** With all threads in every round, all jobs advance in step: a state in
    which every job has [iteration_count] operations scheduled runs for the
    rounds that are missing and stops. *)
Lemma coordinate_rounds num_threads teams fuel st :
  (forall i, full_team num_threads (teams i)) ->
  par_inv num_threads st -> 0 < num_jobs (problem st) ->
  0 <= iteration_count st <= num_operations (problem st) ->
  (forall job, 0 <= job < num_jobs (problem st) ->
     (scheduled_ops st).[job] = iteration_count st) ->
  num_operations (problem st) - iteration_count st <= Z.of_nat fuel ->
  exists st',
    coordinate fuel teams num_threads st = Some (st', false)
    /\ iteration_count st' = num_operations (problem st)
    /\ par_inv num_threads st'.
Proof.
  intros Hfull. revert st. induction fuel as [|fuel IH];
    intros st Hinv Hnj Hk Hall Hfuel; cbn [coordinate].
  - assert (Hac : assigned_count st = num_jobs (problem st) * iteration_count st).
    { rewrite (pi_count _ _ Hinv). apply scheduled_total_uniform; [lia | done]. }
    assert (iteration_count st = num_operations (problem st)) as Heq by lia.
    destruct (Z.ltb_spec (assigned_count st) (total_ops (problem st))) as [Hlt|_].
    + unfold total_ops in Hlt. rewrite Hac, Heq in Hlt. lia.
    + cbn [andb]. by exists st.
  - assert (Hac : assigned_count st = num_jobs (problem st) * iteration_count st).
    { rewrite (pi_count _ _ Hinv). apply scheduled_total_uniform; [lia | done]. }
    destruct (decide (iteration_count st = num_operations (problem st))) as [Heq|Hne].
    { destruct (Z.ltb_spec (assigned_count st) (total_ops (problem st))) as [Hlt|_].
      - unfold total_ops in Hlt. rewrite Hac, Heq in Hlt. lia.
      - cbn [andb]. by exists st. }
    assert (Hlt : iteration_count st < num_operations (problem st)) by lia.
    destruct (Z.ltb_spec (assigned_count st) (total_ops (problem st))) as [_|Hge].
    2:{ unfold total_ops in Hge. rewrite Hac in Hge. nia. }
    destruct (Z.ltb_spec (iteration_count st) (max_iterations (problem st))) as [_|Hge].
    2:{ unfold max_iterations, total_ops in Hge. nia. }
    cbn [andb].
    pose proof (par_inv_next_iteration _ _ Hinv) as Hinv0.
    destruct (parallel_region_spec num_threads
                (teams (iteration_count (next_iteration st))) _ Hinv0)
      as (st1 & n & Hreg & Hinv1 & (Hoa1 & Hit1 & Hnj1 & Hno1) & Hn & _).
    rewrite Hreg. cbn [mbind option_bind].
    destruct (parallel_region_exact num_threads _ _ _ _ Hinv0 Hreg) as [_ Hexact].
    specialize (Hexact (full_team_NoDup _ _ (Hfull _))).
    simpl in Hit1, Hnj1, Hno1, Hn, Hexact.
    assert (Hall1 : forall job, 0 <= job < num_jobs (problem st1) ->
              (scheduled_ops st1).[job] = iteration_count st1).
    { intros job Hj. rewrite Hnj1 in Hj. destruct (Hexact job Hj) as [Hadv _].
      rewrite Hadv, Hit1, Hall; [done | done | | rewrite Hall by done; lia].
      apply (full_team_elem num_threads); [apply Hfull|].
      apply (pi_owner _ _ Hinv job Hj). lia. }
    assert (Hac1 : assigned_count st1 = num_jobs (problem st1) * iteration_count st1).
    { rewrite (pi_count _ _ Hinv1). apply scheduled_total_uniform; [lia | done]. }
    destruct (Z.eqb_spec n 0) as [Hn0|_].
    { rewrite Hac1, Hac, Hnj1, Hit1 in Hn. nia. }
    destruct (IH st1 Hinv1) as (st' & Hrun & Hit' & Hinv'); try lia; try done.
    exists st'. split_and!; try done. congruence.
Qed.

End rounds.

(** With all its threads in every round the coordinator needs exactly
    [num_operations] rounds (none for a problem without jobs), far below its
    cap of ten times the number of operations; it returns 1 and the deadlock
    warning, and with it the fallback, does not occur. *)
Theorem full_teams_take_num_operations_rounds (teams : Z -> list Z) (num_threads : Z)
    (p : JobShopProblem) :
  valid_problem p -> 1 <= num_threads <= MAX_THREADS ->
  (forall i, Parallel.full_team num_threads (teams i)) ->
  exists r,
    Parallel.schedule_with_strict_division teams num_threads p = Some r
    /\ Parallel.status r = 1 /\ Parallel.deadlock_warning r = false
    /\ Parallel.iteration_count (Parallel.final r)
       = if 0 <? num_jobs p then num_operations p else 0.
Proof.
  intros Hv [HT _] Hfull.
  destruct (schedule_with_strict_division_full teams num_threads p Hv HT Hfull)
    as (r & Hr & Hs & Hw & _).
  exists r. split_and!; try done.
  unfold Parallel.schedule_with_strict_division in Hr.
  pose proof (par_inv_init num_threads p Hv HT) as Hinit.
  pose proof (vp_wf _ Hv) as Hwf.
  destruct (Z.ltb_spec 0 (num_jobs p)) as [Hpos|Hzero].
  - destruct (coordinate_rounds num_threads teams (Z.to_nat (Parallel.max_iterations p))
                (Parallel.init num_threads p) Hfull Hinit)
      as (st' & Hrun & Hit & _);
      unfold Parallel.init;
      cbn [Parallel.problem Parallel.iteration_count Parallel.scheduled_ops]; try done.
    + destruct Hwf. lia.
    + intros job Hj. unfold aget. apply list_lookup_total_correct, lookup_replicate_2.
      destruct Hwf. unfold MAX_JOBS in *. lia.
    + destruct Hwf. unfold Parallel.max_iterations, Parallel.total_ops. nia.
    + rewrite Hrun in Hr. cbn [mbind option_bind] in Hr.
      injection Hr as <-. exact Hit.
  - assert (num_jobs p = 0) as Hnj by (destruct Hwf; lia).
    assert (Hstop : forall fuel, Parallel.coordinate fuel teams num_threads
                       (Parallel.init num_threads p)
                     = Some (Parallel.init num_threads p, false)).
    { intros fuel. destruct fuel; cbn [Parallel.coordinate]; simpl;
        unfold Parallel.total_ops; rewrite Hnj; reflexivity. }
    rewrite Hstop in Hr. cbn [mbind option_bind] in Hr. by injection Hr as <-.
Qed.

Lemma full_teams_take_num_operations_rounds_witness :
  exists r,
    Parallel.schedule_with_strict_division (fun _ => seqZ 0 8) 8 five_jobs = Some r
    /\ Parallel.iteration_count (Parallel.final r) = 5.
Proof.
  destruct (full_teams_take_num_operations_rounds (fun _ => seqZ 0 8) 8 five_jobs)
    as (r & Hr & _ & _ & Hit).
  - apply check_valid_sound. reflexivity.
  - unfold MAX_THREADS. lia.
  - intros i. unfold Parallel.full_team. reflexivity.
  - exists r. split; [exact Hr | exact Hit].
Defined.


(** ** [reset_problem] and the repetitions of [main] *)

(** Tables of the same shape with the same cells are the same table. *)
Lemma table_ext p q :
  well_formed p -> well_formed q ->
  num_jobs q = num_jobs p -> num_machines q = num_machines p ->
  num_operations q = num_operations p ->
  (forall job op, in_table p job op -> job_op q job op = job_op p job op) ->
  q = p.
Proof.
  intros [Hj Ho Hr Hc] [Hj' Ho' Hr' Hc'] Hnj Hnm Hno Hcell.
  destruct p as [nj nm no rows], q as [nj' nm' no' rows']. simpl in *. subst nj' nm' no'.
  f_equal. apply (list_eq_same_length _ _ (Z.to_nat nj)); [done | done |].
  intros i row' row Hi Hrow' Hrow.
  assert (Hji : 0 <= Z.of_nat i < nj) by lia.
  assert (Hrow'e : rows'.[Z.of_nat i] = row').
  { unfold aget. rewrite Nat2Z.id. by apply list_lookup_total_correct. }
  assert (Hrowe : rows.[Z.of_nat i] = row).
  { unfold aget. rewrite Nat2Z.id. by apply list_lookup_total_correct. }
  specialize (Hc _ Hji). specialize (Hc' _ Hji). rewrite Hrowe in Hc. rewrite Hrow'e in Hc'.
  apply (list_eq_same_length _ _ (Z.to_nat no)); [done | done |].
  intros k o' o Hk Ho'k Hok.
  specialize (Hcell (Z.of_nat i) (Z.of_nat k)). unfold job_op, in_table in Hcell.
  simpl in Hcell. rewrite Hrow'e, Hrowe in Hcell. unfold aget in Hcell.
  rewrite Nat2Z.id in Hcell.
  rewrite (list_lookup_total_correct _ _ _ Ho'k), (list_lookup_total_correct _ _ _ Hok) in Hcell.
  apply Hcell. lia.
Qed.

(** The reset loop over a list of cells of the table. *)
Lemma reset_cells (l : list (Z * Z)) p :
  well_formed p -> (forall c, c ∈ l -> in_table p c.1 c.2) ->
  let q := fold_left (fun p '(job, op) => set_start_time p job op (-1)) l p in
  well_formed q /\ num_jobs q = num_jobs p /\ num_machines q = num_machines p
  /\ num_operations q = num_operations p
  /\ forall job op, in_table p job op ->
       job_op q job op
       = if decide ((job, op) ∈ l)
         then Op.mk (Op.machine (job_op p job op)) (Op.duration (job_op p job op)) (-1)
         else job_op p job op.
Proof.
  revert p. induction l as [|[j o] l IH]; intros p Hwf Hin; cbn [fold_left].
  - by split_and!.
  - assert (Hjo : in_table p j o) by (apply (Hin (j, o)); left).
    destruct (IH (set_start_time p j o (-1))) as (Hwf' & Hnj & Hnm & Hno & Hcell).
    { apply well_formed_set; [done | apply Hjo]. }
    { intros c Hc. apply (Hin c). by right. }
    split_and!; try done. intros job op Hjob.
    rewrite Hcell by done. rewrite (job_op_set p j o (-1) job op) by done.
    destruct (decide ((job, op) = (j, o))) as [Heq|Hne].
    + inversion Heq; subst job op. rewrite (decide_True (P := (j, o) ∈ (j, o) :: l)) by left.
      by destruct (decide _).
    + destruct (decide ((job, op) ∈ l)) as [Hl|Hl].
      * rewrite decide_True; [done | by right].
      * rewrite decide_False; [done|]. intros H. by apply elem_of_cons in H as [?|?].
Qed.

Lemma reset_problem_spec (p : JobShopProblem) :
  well_formed p ->
  well_formed (reset_problem p) /\ same_input p (reset_problem p)
  /\ forall job op, in_table p job op ->
       Op.start_time (job_op (reset_problem p) job op) = -1.
Proof.
  intros Hwf. destruct (reset_cells (cells p) p Hwf) as (Hwf' & Hnj & Hnm & Hno & Hcell).
  { intros [j o] Hc. by apply elem_of_cells. }
  fold (reset_problem p) in *.
  assert (Hc : forall job op, in_table p job op ->
            job_op (reset_problem p) job op
            = Op.mk (Op.machine (job_op p job op)) (Op.duration (job_op p job op)) (-1)).
  { intros job op Hin. rewrite Hcell by done. rewrite decide_True; [done|].
    by apply elem_of_cells. }
  split; [done|]. split.
  - split_and!; try done. intros job op Hin. by rewrite Hc.
  - intros job op Hin. by rewrite Hc.
Qed.

(** [reset_problem] and the reset loop of the sequential [main] set every
    start time to -1 and leave everything else as it is. *)
Theorem reset_problem_resets (p : JobShopProblem) :
  well_formed p ->
  well_formed (reset_problem p) /\ same_input p (reset_problem p)
  /\ forall job op, in_table p job op ->
       Op.start_time (job_op (reset_problem p) job op) = -1.
Proof. apply reset_problem_spec. Qed.

Lemma reset_problem_resets_witness :
  Op.start_time
    (job_op (reset_problem (set_start_time example_problem 1 0 7)) 1 0) = -1.
Proof.
  destruct (reset_problem_resets (set_start_time example_problem 1 0 7)) as (_ & _ & Hr).
  - apply well_formed_set; [apply example_problem_valid | lia].
  - apply Hr. unfold in_table. simpl. lia.
Defined.

Lemma valid_problem_table p : valid_problem p -> valid_table p.
Proof. intros [? ? ? ?]. by split. Qed.

Lemma valid_table_reset p : valid_table p -> valid_problem (reset_problem p).
Proof.
  intros [Hwf Hm Hd]. destruct (reset_problem_spec p Hwf) as (Hwf' & Hi & Hs).
  pose proof Hi as (Hnj & Hnm & Hno & Hc).
  split; [done|..]; intros job op Hin; apply (same_input_in_table p _ job op Hi) in Hin.
  - destruct (Hc job op Hin) as [-> _]. rewrite Hnm. by apply Hm.
  - destruct (Hc job op Hin) as [_ ->]. by apply Hd.
  - by apply Hs.
Qed.

(** Tables of the same input reset to the same table. *)
Lemma reset_same_input p q :
  well_formed p -> well_formed q -> same_input p q ->
  reset_problem q = reset_problem p.
Proof.
  intros Hp Hq Hi.
  destruct (reset_problem_spec p Hp) as (Hwp & Hip & Hsp).
  destruct (reset_problem_spec q Hq) as (Hwq & Hiq & Hsq).
  pose proof (same_input_trans _ _ _ Hi Hiq) as Hpq.
  pose proof Hip as (Hnj & Hnm & Hno & Hc). pose proof Hpq as (Hnj' & Hnm' & Hno' & Hc').
  apply table_ext; try done; try congruence.
  intros job op Hin. apply (same_input_in_table p _ job op Hip) in Hin.
  destruct (Hc job op Hin) as [Hm Hd]. destruct (Hc' job op Hin) as [Hm' Hd'].
  specialize (Hsp job op Hin).
  specialize (Hsq job op ltac:(by apply (same_input_in_table p q job op Hi))).
  destruct (job_op (reset_problem q) job op), (job_op (reset_problem p) job op).
  simpl in *. congruence.
Qed.


Lemma same_input_valid_table p q :
  valid_table p -> well_formed q -> same_input p q -> valid_table q.
Proof.
  intros [Hwf Hm Hd] Hq Hi. pose proof Hi as (Hnj & Hnm & Hno & Hc).
  split; [done|..]; intros job op Hin; apply (same_input_in_table p _ job op Hi) in Hin.
  - destruct (Hc job op Hin) as [-> _]. rewrite Hnm. by apply Hm.
  - destruct (Hc job op Hin) as [_ ->]. by apply Hd.
Qed.

(** One repetition of the sequential [main]. *)
Lemma sequential_repetition p :
  valid_table p ->
  exists st, Sequential.schedule_jobs_sequential (reset_problem p) = Some st
    /\ Sequential.repetition p = Some (Sequential.problem st)
    /\ valid_table (Sequential.problem st)
    /\ same_input p (Sequential.problem st).
Proof.
  intros Hvt. pose proof (valid_table_reset p Hvt) as Hv.
  destruct (schedule_jobs_sequential_returns _ Hv) as (st & Hrun & Hinv & _).
  exists st. split; [done|]. split; [unfold Sequential.repetition; by rewrite Hrun|].
  destruct (reset_problem_spec p (vt_wf _ Hvt)) as (_ & Hi & _).
  pose proof (Hboard := sequential_board _ _ Hv Hrun).
  assert (Hi' : same_input p (Sequential.problem st)).
  { apply (same_input_trans _ (reset_problem p)); [done|].
    apply (bo_input _ _ Hboard). }
  split; [|done].
  apply (same_input_valid_table p); [done | apply (inv_wf _ _ _ (si_sched _ Hinv)) | done].
Qed.

Lemma sequential_main_run (p : JobShopProblem) :
  valid_table p ->
  exists st, Sequential.schedule_jobs_sequential (reset_problem p) = Some st
    /\ Sequential.main p = Some (Sequential.write_output_file (Sequential.problem st)).
Proof.
  intros Hvt. destruct (sequential_repetition p Hvt) as (st & Hrun & Hrep & Hvt' & Hi).
  exists st. split; [done|].
  assert (Hfix : Sequential.repetition (Sequential.problem st) = Some (Sequential.problem st)).
  { unfold Sequential.repetition.
    rewrite (reset_same_input p _ (vt_wf _ Hvt) (vt_wf _ Hvt') Hi). by rewrite Hrun. }
  assert (Hiter : forall n, Nat.iter (S n) (fun r => r ≫= Sequential.repetition) (Some p)
                            = Some (Sequential.problem st)).
  { induction n as [|n IH].
    - exact Hrep.
    - change (Nat.iter (S (S n)) (fun r => r ≫= Sequential.repetition) (Some p))
        with (Nat.iter (S n) (fun r => r ≫= Sequential.repetition) (Some p)
              ≫= Sequential.repetition).
      rewrite IH. exact Hfix. }
  unfold Sequential.main, Sequential.num_repetitions. by rewrite Hiter.
Qed.

(** The ten repetitions of the sequential [main] are ten times the same
    run: what is written is the result of one run of the scheduler on the
    reset table, whatever start times the table held before. *)
Theorem sequential_main_is_one_run (p : JobShopProblem) :
  valid_table p ->
  exists st, Sequential.schedule_jobs_sequential (reset_problem p) = Some st
    /\ Sequential.main p = Some (Sequential.write_output_file (Sequential.problem st)).
Proof. apply sequential_main_run. Qed.

Lemma sequential_main_is_one_run_witness :
  exists st, Sequential.schedule_jobs_sequential (reset_problem example_problem) = Some st
    /\ Sequential.main example_problem
       = Some (Sequential.write_output_file (Sequential.problem st)).
Proof.
  apply sequential_main_is_one_run. apply valid_problem_table, example_problem_valid.
Defined.

Lemma effective_num_threads_range num_threads total :
  1 <= num_threads <= MAX_THREADS ->
  1 <= Parallel.effective_num_threads num_threads total <= MAX_THREADS.
Proof.
  intros HT. unfold Parallel.effective_num_threads, MAX_THREADS in *. cbv zeta.
  rewrite !Z.gtb_ltb.
  destruct (Z.ltb_spec total num_threads);
    destruct (Z.ltb_spec total 100); rewrite ?andb_true_r, ?andb_false_r;
    repeat match goal with
           | |- context [?a <? ?b] => destruct (Z.ltb_spec a b)
           end; lia.
Qed.

(** One repetition of the parallel [main]. *)
Lemma parallel_repetition team_of num_threads p q :
  valid_table p -> valid_table q -> same_input p q -> 1 <= num_threads ->
  exists r, Parallel.schedule_with_strict_division team_of num_threads (reset_problem p)
            = Some r
    /\ Parallel.repetition team_of num_threads q
       = Some (Parallel.problem (Parallel.final r))
    /\ valid_table (Parallel.problem (Parallel.final r))
    /\ same_input p (Parallel.problem (Parallel.final r)).
Proof.
  intros Hvt Hvq Hpq HT. pose proof (valid_table_reset p Hvt) as Hv.
  destruct (schedule_with_strict_division_returns team_of num_threads _ Hv HT)
    as (r & Hrun & Hinv & _).
  exists r. split; [done|]. split.
  { unfold Parallel.repetition.
    rewrite (reset_same_input p q (vt_wf _ Hvt) (vt_wf _ Hvq) Hpq). by rewrite Hrun. }
  destruct (reset_problem_spec p (vt_wf _ Hvt)) as (_ & Hi & _).
  pose proof (parallel_board _ _ _ _ Hv HT Hrun) as Hok.
  assert (Hi' : same_input p (Parallel.problem (Parallel.final r))).
  { apply (same_input_trans _ (reset_problem p)); [done | apply (bo_input _ _ Hok)]. }
  split; [|done].
  apply (same_input_valid_table p); [done | apply (inv_wf _ _ _ (pi_sched _ _ Hinv)) | done].
Qed.

Lemma parallel_main_run (teams : nat -> Z -> list Z) (num_threads : Z)
    (p : JobShopProblem) :
  valid_table p ->
  (num_threads <= 0 \/ MAX_THREADS < num_threads ->
     Parallel.main teams num_threads p = Some (Parallel.Exit 1))
  /\ (1 <= num_threads <= MAX_THREADS ->
      exists r,
        Parallel.schedule_with_strict_division (teams 9%nat)
          (Parallel.effective_num_threads num_threads (Parallel.total_ops p))
          (reset_problem p) = Some r
        /\ Parallel.main teams num_threads p
           = Some (Parallel.write_output_file (Parallel.problem (Parallel.final r)))).
Proof.
  intros Hvt. split.
  - intros Hbad. unfold Parallel.main. rewrite Z.gtb_ltb.
    destruct (Z.leb_spec num_threads 0); [done|].
    destruct (Z.ltb_spec MAX_THREADS num_threads); [done | lia].
  - intros HT. unfold Parallel.main. rewrite Z.gtb_ltb.
    destruct (Z.leb_spec num_threads 0); [lia|].
    destruct (Z.ltb_spec MAX_THREADS num_threads); [lia|].
    set (eff := Parallel.effective_num_threads num_threads (Parallel.total_ops p)).
    assert (Heff : 1 <= eff) by (apply effective_num_threads_range; lia).
    assert (Hfold : forall (l : list nat) q, valid_table q -> same_input p q ->
              exists q', fold_left (fun acc r => q ← acc; Parallel.repetition (teams r) eff q)
                                   l (Some q) = Some q'
                /\ valid_table q' /\ same_input p q').
    { induction l as [|i l IH]; intros q Hvq Hpq; cbn [fold_left].
      - by exists q.
      - destruct (parallel_repetition (teams i) eff p q Hvt Hvq Hpq Heff)
          as (r & _ & Hrep & Hvr & Hpr).
        cbn [mbind option_bind]. rewrite Hrep. by apply IH. }
    destruct (Hfold (seq 0 9) p Hvt (same_input_refl p)) as (q9 & Hrun9 & Hv9 & Hp9).
    destruct (parallel_repetition (teams 9%nat) eff p q9 Hvt Hv9 Hp9 Heff)
      as (r & Hrun & Hrep & _).
    exists r. split; [done|].
    unfold Parallel.num_repetitions.
    change (seq 0 10) with (seq 0 9 ++ [9%nat]).
    rewrite fold_left_app, Hrun9. cbn [fold_left mbind option_bind].
    by rewrite Hrep.
Qed.

(** The parallel [main] stops with exit code 1 before any scheduling when
    the thread count is not positive or above [MAX_THREADS].  Otherwise it
    writes the result of its last repetition, which is one call of the
    scheduler with the clamped thread count on the reset table: earlier
    repetitions, and start times the table held before, leave no trace. *)
Theorem parallel_main_outcome (teams : nat -> Z -> list Z) (num_threads : Z)
    (p : JobShopProblem) :
  valid_table p ->
  (num_threads <= 0 \/ MAX_THREADS < num_threads ->
     Parallel.main teams num_threads p = Some (Parallel.Exit 1))
  /\ (1 <= num_threads <= MAX_THREADS ->
      exists r,
        Parallel.schedule_with_strict_division (teams 9%nat)
          (Parallel.effective_num_threads num_threads (Parallel.total_ops p))
          (reset_problem p) = Some r
        /\ Parallel.main teams num_threads p
           = Some (Parallel.write_output_file (Parallel.problem (Parallel.final r)))).
Proof. apply parallel_main_run. Qed.

Lemma parallel_main_outcome_witness :
  Parallel.main (fun _ _ => [0]) 33 example_problem = Some (Parallel.Exit 1)
  /\ exists r,
       Parallel.schedule_with_strict_division (fun _ => seqZ 0 2)
         (Parallel.effective_num_threads 2 (Parallel.total_ops example_problem))
         (reset_problem example_problem) = Some r
       /\ Parallel.main (fun rep _ => if (rep =? 9)%nat then seqZ 0 2 else [0]) 2
            example_problem
          = Some (Parallel.write_output_file (Parallel.problem (Parallel.final r))).
Proof.
  split.
  - apply (parallel_main_outcome (fun _ _ => [0]) 33 example_problem).
    + apply valid_problem_table, example_problem_valid.
    + unfold MAX_THREADS. lia.
  - apply (parallel_main_outcome (fun rep _ => if (rep =? 9)%nat then seqZ 0 2 else [0]) 2
             example_problem).
    + apply valid_problem_table, example_problem_valid.
    + unfold MAX_THREADS. lia.
Defined.


(** ** Reading the input file *)

Section set_op.
Variables (p : JobShopProblem) (job op : Z) (o : Operation).

Lemma well_formed_set_op : well_formed p -> 0 <= job -> well_formed (set_op p job op o).
Proof.
  intros [Hj Ho Hr Hc] Hge. split; simpl; try done.
  - by rewrite length_aset.
  - intros j Hjr. destruct (decide (job = j)) as [->|Hne].
    + rewrite aget_aset_same by lia. rewrite length_aset. by apply Hc.
    + rewrite aget_aset_other by lia. by apply Hc.
Qed.

Lemma job_op_set_op job' op' :
  well_formed p -> in_table p job op -> in_table p job' op' ->
  job_op (set_op p job op o) job' op'
  = if decide ((job', op') = (job, op)) then o else job_op p job' op'.
Proof.
  intros [Hj Ho Hr Hc] [Hjr Hor] [Hjr' Hor']. unfold job_op, set_op. simpl.
  destruct (decide ((job', op') = (job, op))) as [Heq|Hne].
  - inversion Heq; subst job' op'. rewrite aget_aset_same by lia.
    rewrite aget_aset_same; [done|]. rewrite Hc by done. lia.
  - destruct (decide (job = job')) as [<-|Hjne].
    + rewrite aget_aset_same by lia. rewrite aget_aset_other; [done | lia | lia |].
      intros ->. by apply Hne.
    + by rewrite aget_aset_other by lia.
Qed.

End set_op.

Lemma table_of_row nj nops mem job :
  0 <= job < nj -> (table_of nj nops mem).[job] = (fun op => mem job op) <$> seqZ 0 nops.
Proof.
  intros Hj. unfold table_of, aget. apply list_lookup_total_correct.
  rewrite list_lookup_fmap, (lookup_seqZ_lt 0 nj (Z.to_nat job)) by lia. simpl.
  by rewrite Z.add_0_l, Z2Nat.id by lia.
Qed.

Lemma table_of_well_formed nj nm nops mem :
  0 <= nj <= MAX_JOBS -> 0 <= nops <= MAX_OPERATIONS ->
  well_formed (mkProblem nj nm nops (table_of nj nops mem)).
Proof.
  intros Hj Ho. split; simpl; try done.
  - unfold table_of. by rewrite length_fmap, length_seqZ.
  - intros job Hjob. rewrite table_of_row by done. by rewrite length_fmap, length_seqZ.
Qed.

Lemma table_of_cell nj nm nops mem job op :
  in_table (mkProblem nj nm nops (table_of nj nops mem)) job op ->
  job_op (mkProblem nj nm nops (table_of nj nops mem)) job op = mem job op.
Proof.
  intros [Hj Ho]. simpl in Hj, Ho. unfold job_op. simpl. rewrite table_of_row by done.
  unfold aget. apply list_lookup_total_correct.
  rewrite list_lookup_fmap, (lookup_seqZ_lt 0 nops (Z.to_nat op)) by lia. simpl.
  by rewrite Z.add_0_l, Z2Nat.id by lia.
Qed.

(** An operation is its three fields. *)
Lemma operation_eta (o : Operation) m d s :
  Op.machine o = m -> Op.duration o = d -> Op.start_time o = s -> o = Op.mk m d s.
Proof. destruct o. simpl. by intros -> -> ->. Qed.


Lemma read_operation_none (l : list (Z * Z)) :
  fold_left (fun acc '(job, op) => ParallelFile.read_operation acc job op) l None = None.
Proof. induction l as [|[j o] l IH]; [done|]. exact IH. Qed.

(** What an accepted run of the reading loops over the cells [l] tells. *)
Lemma read_cells_sound (l : list (Z * Z)) q toks q' toks' :
  well_formed q -> (forall c, c ∈ l -> in_table q c.1 c.2) -> NoDup l ->
  fold_left (fun acc '(job, op) => ParallelFile.read_operation acc job op) l (Some (q, toks))
  = Some (q', toks') ->
  well_formed q' /\ num_jobs q' = num_jobs q /\ num_machines q' = num_machines q
  /\ num_operations q' = num_operations q
  /\ (forall c, c ∈ l ->
        0 <= Op.machine (job_op q' c.1 c.2) < num_machines q
        /\ Op.start_time (job_op q' c.1 c.2) = -1)
  /\ (forall job op, in_table q job op -> (job, op) ∉ l ->
        job_op q' job op = job_op q job op)
  /\ toks = (c ← l; [Op.machine (job_op q' c.1 c.2); Op.duration (job_op q' c.1 c.2)])
            ++ toks'.
Proof.
  revert q toks. induction l as [|[j o] l IH]; intros q toks Hwf Hin Hnd; cbn [fold_left].
  - intros [= <- <-]. split_and!; try done. intros c Hc. by inversion Hc.
  - apply NoDup_cons in Hnd as [Hnotin Hnd].
    assert (Hjo : in_table q j o) by (apply (Hin (j, o)); left).
    unfold ParallelFile.read_operation at 2. cbn [mbind option_bind].
    destruct toks as [|x [|y rest]]; cbn [fscanf_int_int];
      try (simpl; rewrite read_operation_none; discriminate).
    change (negb (2 =? 2)) with false. cbn iota.
    destruct ((x <? 0) || (x >=? num_machines q)) eqn:Hchk;
      [rewrite read_operation_none; discriminate|].
    apply orb_false_elim in Hchk as [Hlo Hhi].
    apply Z.ltb_ge in Hlo. rewrite Z.geb_leb in Hhi. apply Z.leb_gt in Hhi.
    intros Hrun.
    destruct (IH (set_op q j o (Op.mk x y (-1))) rest) as (Hwf' & Hnj & Hnm & Hno & Hl & Hout & Ht);
      [apply well_formed_set_op; [done | apply Hjo]
      | intros c Hc; apply (Hin c); by right | done | done |].
    simpl in Hnj, Hnm, Hno.
    assert (Hcell : job_op q' j o = Op.mk x y (-1)).
    { rewrite Hout; [|done|done]. rewrite job_op_set_op by done. by rewrite decide_True. }
    split_and!; try done.
    + intros c Hc. apply elem_of_cons in Hc as [->|Hc]; [|by apply Hl].
      cbn [fst snd]. rewrite Hcell. simpl. lia.
    + intros job op Hjob Hnot. apply not_elem_of_cons in Hnot as [Hne Hnot].
      rewrite Hout by done. rewrite job_op_set_op by done. by rewrite decide_False.
    + rewrite bind_cons. cbn [fst snd]. rewrite Hcell. simpl. by rewrite Ht.
Qed.

(** The reading loops over the cells [l] accept the integers of the problem
    [q'] and produce it. *)
Lemma read_cells_complete (l : list (Z * Z)) q q' toks' :
  well_formed q -> well_formed q' ->
  num_jobs q' = num_jobs q -> num_machines q' = num_machines q ->
  num_operations q' = num_operations q ->
  (forall c, c ∈ l -> in_table q c.1 c.2) ->
  (forall c, c ∈ l ->
     0 <= Op.machine (job_op q' c.1 c.2) < num_machines q
     /\ Op.start_time (job_op q' c.1 c.2) = -1) ->
  (forall job op, in_table q job op -> (job, op) ∉ l ->
     job_op q' job op = job_op q job op) ->
  fold_left (fun acc '(job, op) => ParallelFile.read_operation acc job op) l
    (Some (q, (c ← l; [Op.machine (job_op q' c.1 c.2); Op.duration (job_op q' c.1 c.2)])
              ++ toks'))
  = Some (q', toks').
Proof.
  revert q. induction l as [|[j o] l IH]; intros q Hwf Hwf' Hnj Hnm Hno Hin Hl Hout;
    cbn [fold_left].
  - simpl. do 2 f_equal. symmetry. apply table_ext; try done.
    intros job op Hjob. apply Hout; [done|]. by intros H; inversion H.
  - assert (Hjo : in_table q j o) by (apply (Hin (j, o)); left).
    destruct (Hl (j, o)) as [Hm Hs]; [left|]. cbn [fst snd] in Hm, Hs.
    rewrite bind_cons. cbn [fst snd app].
    unfold ParallelFile.read_operation at 2. cbn [mbind option_bind fscanf_int_int].
    change (negb (2 =? 2)) with false. cbn iota.
    assert (((Op.machine (job_op q' j o) <? 0)
             || (Op.machine (job_op q' j o) >=? num_machines q)) = false) as ->.
    { apply orb_false_intro; [apply Z.ltb_ge; lia|].
      rewrite Z.geb_leb. apply Z.leb_gt. lia. }
    apply IH; try done.
    + apply well_formed_set_op; [done | apply Hjo].
    + intros c Hc. apply (Hin c). by right.
    + intros c Hc. apply Hl. by right.
    + intros job op Hjob Hnot. rewrite job_op_set_op by done.
      case_decide as Hd.
      * inversion Hd; subst job op. by apply operation_eta.
      * apply Hout; [done|]. by apply not_elem_of_cons.
Qed.

(** The sequential reading loops produce the problem [q'] from its integers. *)
Lemma seq_read_cells_complete (l : list (Z * Z)) q q' toks' :
  well_formed q -> well_formed q' ->
  num_jobs q' = num_jobs q -> num_machines q' = num_machines q ->
  num_operations q' = num_operations q ->
  (forall c, c ∈ l -> in_table q c.1 c.2) ->
  (forall c, c ∈ l -> Op.start_time (job_op q' c.1 c.2) = -1) ->
  (forall job op, in_table q job op -> (job, op) ∉ l ->
     job_op q' job op = job_op q job op) ->
  fold_left (fun acc '(job, op) => SequentialFile.read_operation acc job op) l
    (q, (c ← l; [Op.machine (job_op q' c.1 c.2); Op.duration (job_op q' c.1 c.2)])
        ++ toks')
  = (q', toks').
Proof.
  revert q. induction l as [|[j o] l IH]; intros q Hwf Hwf' Hnj Hnm Hno Hin Hl Hout;
    cbn [fold_left].
  - simpl. f_equal. symmetry. apply table_ext; try done.
    intros job op Hjob. apply Hout; [done|]. by intros H; inversion H.
  - assert (Hjo : in_table q j o) by (apply (Hin (j, o)); left).
    pose proof (Hl (j, o) ltac:(left)) as Hs. cbn [fst snd] in Hs.
    rewrite bind_cons. cbn [fst snd app].
    unfold SequentialFile.read_operation at 2. cbn [fscanf_int_int].
    apply IH; try done.
    + apply well_formed_set_op; [done | apply Hjo].
    + intros c Hc. apply (Hin c). by right.
    + intros c Hc. apply Hl. by right.
    + intros job op Hjob Hnot. rewrite job_op_set_op by done.
      case_decide as Hd.
      * inversion Hd; subst job op. by apply operation_eta.
      * apply Hout; [done|]. by apply not_elem_of_cons.
Qed.


Lemma same_dims_cells p q :
  num_jobs q = num_jobs p -> num_operations q = num_operations p -> cells q = cells p.
Proof. intros Hj Ho. unfold cells. by rewrite Hj, Ho. Qed.

(** The two reading loops of the parallel reader as one pass over the cells. *)
Lemma parallel_read_loops q toks :
  fold_left
    (fun acc job =>
       fold_left (fun acc op => ParallelFile.read_operation acc job op)
                 (seqZ 0 (num_operations q)) acc)
    (seqZ 0 (num_jobs q)) (Some (q, toks))
  = fold_left (fun acc '(job, op) => ParallelFile.read_operation acc job op)
              (cells q) (Some (q, toks)).
Proof. apply (fold_cells (fun acc job op => ParallelFile.read_operation acc job op)). Qed.

Lemma sequential_read_loops q toks :
  fold_left
    (fun acc job =>
       fold_left (fun acc op => SequentialFile.read_operation acc job op)
                 (seqZ 0 (num_operations q)) acc)
    (seqZ 0 (num_jobs q)) (q, toks)
  = fold_left (fun acc '(job, op) => SequentialFile.read_operation acc job op)
              (cells q) (q, toks).
Proof. apply (fold_cells (fun acc job op => SequentialFile.read_operation acc job op)). Qed.

Lemma valid_problem_readable p :
  valid_problem p -> num_operations p = num_machines p -> readable p.
Proof. intros [? ? ? ?] Hops. by split. Qed.

Lemma parallel_read_spec (nj nm : Z) (rest : list Z) (p : JobShopProblem) :
  0 <= nj -> 0 <= nm ->
  ParallelFile.read_input_file (nj :: nm :: rest) = Some p
  <-> readable p /\ num_jobs p = nj /\ num_machines p = nm
      /\ exists extra, rest = body_tokens p ++ extra.
Proof.
  intros Hnj Hnm. unfold ParallelFile.read_input_file. cbn [fscanf_int_int].
  set (q0 := mkProblem nj nm nm (table_of nj nm (fun _ _ => Op.mk 0 0 0))).
  rewrite !Z.gtb_ltb.
  destruct (Z.ltb_spec MAX_JOBS (num_jobs q0)) as [Hbig|Hj];
    [|destruct (Z.ltb_spec MAX_MACHINES (num_machines q0)) as [Hbig|Hm]]; cbn [orb].
  - split; [done|]. intros ([[? _ _ _] _ _ _] & Hd & _). simpl in Hbig. lia.
  - split; [done|]. intros ([[_ ? _ _] Hops _ _] & _ & Hd & _). simpl in Hbig.
    unfold MAX_MACHINES, MAX_OPERATIONS in *. lia.
  - simpl in Hj, Hm.
    assert (Hwf0 : well_formed q0).
    { apply table_of_well_formed; unfold MAX_MACHINES, MAX_OPERATIONS in *; lia. }
    rewrite parallel_read_loops. split.
    + destruct (fold_left _ _ _) as [[q' toks']|] eqn:Hrun; [|done].
      simpl. intros [= ->].
      apply read_cells_sound in Hrun as (Hwf & Hdj & Hdm & Hdo & Hl & _ & Ht);
        [|done | by intros [j o] Hc; apply elem_of_cells | apply NoDup_cells].
      simpl in Hdj, Hdm, Hdo.
      assert (Hcells : cells p = cells q0) by (by apply same_dims_cells).
      split_and!; try done.
      * split; try done; try congruence; intros job op Hin;
          (destruct (Hl (job, op)) as [Hr Hs];
           [rewrite <- Hcells; by apply elem_of_cells|]); simpl in Hr, Hs; [lia | done].
      * exists toks'. unfold body_tokens. by rewrite Hcells.
    + intros (Hrd & Hdj & Hdm & extra & ->). destruct Hrd as [Hwf Hops Hmach Hfresh].
      assert (Hcells : cells p = cells q0) by (apply same_dims_cells; simpl; congruence).
      unfold body_tokens. rewrite Hcells.
      rewrite (read_cells_complete (cells q0) q0 p extra); try done; simpl; try congruence.
      * by intros [j o] Hc; apply elem_of_cells.
      * intros [j o] Hc. rewrite <- Hcells in Hc. apply elem_of_cells in Hc.
        cbn [fst snd]. split; [rewrite <- Hdm; by apply Hmach | by apply Hfresh].
      * intros job op Hin Hnot. exfalso. apply Hnot. by apply elem_of_cells.
Qed.

(** The reader of the parallel program accepts exactly the files that
    describe a readable problem, and returns that problem: on a file of
    integers within the range of [int], with dimensions [nj] and [nm] that
    are not negative at its head, the file is accepted with result [p] if
    and only if [p] has these dimensions, fits the static table, has every
    machine in range and nothing scheduled, and the file goes on with the
    machine and duration of every operation of [p] in job-major order; what
    follows them is ignored.  Durations are not checked. *)
Theorem parallel_read_accepts_iff (nj nm : Z) (rest : list Z) (p : JobShopProblem) :
  Forall in_int (nj :: nm :: rest) ->
  0 <= nj -> 0 <= nm ->
  ParallelFile.read_input_file (nj :: nm :: rest) = Some p
  <-> readable p /\ num_jobs p = nj /\ num_machines p = nm
      /\ exists extra, rest = body_tokens p ++ extra.
Proof. intros _. apply parallel_read_spec. Qed.

Lemma parallel_read_accepts_iff_witness :
  ParallelFile.read_input_file [2; 2; 0; 3; 1; 2; 1; 2; 0; 4; 99] = Some example_problem.
Proof.
  apply (parallel_read_accepts_iff 2 2 [0; 3; 1; 2; 1; 2; 0; 4; 99] example_problem);
    [int_tokens | lia | lia |].
  split_and!; try reflexivity.
  - apply valid_problem_readable; [apply example_problem_valid | reflexivity].
  - exists [99]. reflexivity.
Defined.

Lemma sequential_read_file (mem : SequentialFile.Memory) (p : JobShopProblem)
    (extra : list Z) :
  well_formed p -> num_operations p = num_machines p ->
  (forall job op, in_table p job op -> Op.start_time (job_op p job op) = -1) ->
  SequentialFile.read_input_file mem (file_tokens p ++ extra) = p.
Proof.
  intros Hwf Hops Hfresh. unfold SequentialFile.read_input_file, file_tokens.
  cbn [app fscanf_int_int].
  set (q0 := mkProblem (num_jobs p) (num_machines p) (num_machines p)
               (table_of (num_jobs p) (num_machines p) (SequentialFile.mem_op mem))).
  assert (Hwf0 : well_formed q0).
  { destruct Hwf. apply table_of_well_formed; [done | by rewrite <- Hops]. }
  assert (Hcells : cells p = cells q0) by (apply same_dims_cells; simpl; congruence).
  rewrite sequential_read_loops. unfold body_tokens. rewrite Hcells.
  rewrite (seq_read_cells_complete (cells q0) q0 p extra); try done.
  - by intros [j o] Hc; apply elem_of_cells.
  - intros [j o] Hc. rewrite <- Hcells in Hc. apply elem_of_cells in Hc. by apply Hfresh.
  - intros job op Hin Hnot. exfalso. apply Hnot. by apply elem_of_cells.
Qed.

(** On a file of integers within the range of [int], the reader of the
    sequential program returns the problem that the file describes, whatever
    the memory held before and whatever follows in the file; it puts no
    condition on the machines. *)
Theorem sequential_read_round_trip (mem : SequentialFile.Memory) (p : JobShopProblem)
    (extra : list Z) :
  Forall in_int (file_tokens p ++ extra) ->
  well_formed p -> num_operations p = num_machines p ->
  (forall job op, in_table p job op -> Op.start_time (job_op p job op) = -1) ->
  SequentialFile.read_input_file mem (file_tokens p ++ extra) = p.
Proof. intros _. apply sequential_read_file. Qed.

Lemma sequential_read_round_trip_witness :
  SequentialFile.read_input_file
    (SequentialFile.mkMemory 7 (-3) (fun job op => Op.mk job op 5))
    [1; 2; 0; 999999; 1; 1] = sentinel_problem.
Proof.
  apply (sequential_read_round_trip _ sentinel_problem []).
  - change (Forall in_int [1; 2; 0; 999999; 1; 1]). int_tokens.
  - apply sentinel_problem_valid.
  - reflexivity.
  - apply sentinel_problem_valid.
Defined.

(** On every file of integers within the range of [int] that holds both
    dimensions, neither of them negative, and that the reader of the parallel
    program accepts, the reader of the sequential program returns the same
    problem, whatever the memory held before. *)
Theorem readers_agree (mem : SequentialFile.Memory) (nj nm : Z) (rest : list Z)
    (p : JobShopProblem) :
  Forall in_int (nj :: nm :: rest) ->
  0 <= nj -> 0 <= nm ->
  ParallelFile.read_input_file (nj :: nm :: rest) = Some p ->
  SequentialFile.read_input_file mem (nj :: nm :: rest) = p.
Proof.
  intros _ Hnj Hnm Hread.
  apply parallel_read_spec in Hread as (Hrd & <- & <- & extra & ->); [|done|done].
  apply (sequential_read_file mem p extra); apply Hrd.
Qed.

Lemma readers_agree_witness :
  SequentialFile.read_input_file
    (SequentialFile.mkMemory 0 0 (fun _ _ => Op.mk 0 0 0))
    [2; 2; 0; 3; 1; 2; 1; 2; 0; 4] = example_problem.
Proof.
  apply (readers_agree _ 2 2 [0; 3; 1; 2; 1; 2; 0; 4] example_problem);
    [int_tokens | lia | lia |].
  vm_compute. reflexivity.
Defined.


Lemma bind_pair_length {A} (f g : A -> Z) (l : list A) :
  length (c ← l; [f c; g c]) = (2 * length l)%nat.
Proof.
  induction l as [|c l IH]; [done|]. rewrite bind_cons. cbn [app length]. lia.
Qed.

Lemma bind_pair_lookup {A} (f g : A -> Z) (l : list A) (k : nat) (c : A) :
  l !! k = Some c -> (c ← l; [f c; g c]) !! (2 * k)%nat = Some (f c).
Proof.
  revert k. induction l as [|x l IH]; intros k; [done|].
  rewrite bind_cons. destruct k as [|k]; simpl.
  - by intros [= ->].
  - intros Hk. replace (k + S (k + 0))%nat with (S (2 * k)) by lia. by apply IH.
Qed.

Lemma length_cells p :
  length (cells p) = (Z.to_nat (num_jobs p) * Z.to_nat (num_operations p))%nat.
Proof.
  unfold cells. rewrite <- (length_seqZ 0 (num_jobs p)).
  induction (seqZ 0 (num_jobs p)) as [|j l IH]; [done|].
  rewrite bind_cons, length_app, IH, length_fmap, length_seqZ. cbn [length]. lia.
Qed.

(** Three ways in which the reader of the parallel program refuses a file
    of integers within the range of [int] (dimensions not negative): a
    dimension above the static bound, fewer than two integers per operation,
    or an operation whose machine is negative or not below the number of
    machines. *)
Theorem parallel_read_rejects (nj nm : Z) (rest : list Z) :
  Forall in_int (nj :: nm :: rest) ->
  0 <= nj -> 0 <= nm ->
  MAX_JOBS < nj \/ MAX_MACHINES < nm
  \/ Z.of_nat (length rest) < 2 * (nj * nm)
  \/ (exists (k : nat) (machine : Z),
        Z.of_nat k < nj * nm /\ rest !! (2 * k)%nat = Some machine
        /\ (machine < 0 \/ nm <= machine)) ->
  ParallelFile.read_input_file (nj :: nm :: rest) = None.
Proof.
  intros _ Hnj Hnm Hbad.
  destruct (ParallelFile.read_input_file (nj :: nm :: rest)) as [p|] eqn:Hread; [|done].
  exfalso. apply parallel_read_spec in Hread as (Hrd & Hdj & Hdm & extra & ->); [|done|done].
  destruct Hrd as [Hwf Hops Hmach Hfresh]. pose proof Hwf as [Hj Ho _ _].
  assert (Hlen : Z.of_nat (length (cells p)) = nj * nm).
  { rewrite length_cells, Hops, Hdj, Hdm. lia. }
  destruct Hbad as [Hb|[Hb|[Hb|(k & m & Hk & Hm & Hb)]]].
  - lia.
  - unfold MAX_MACHINES, MAX_OPERATIONS in *. lia.
  - rewrite length_app in Hb. unfold body_tokens in Hb. rewrite bind_pair_length in Hb. lia.
  - destruct (lookup_lt_is_Some_2 (cells p) k) as [[j o] Hc]; [lia|].
    unfold body_tokens in Hm.
    rewrite lookup_app_l in Hm by (rewrite bind_pair_length; lia).
    rewrite (bind_pair_lookup _ _ _ _ _ Hc) in Hm. injection Hm as <-.
    apply list_elem_of_lookup_2, elem_of_cells in Hc. cbn [fst snd] in Hb.
    specialize (Hmach j o Hc). lia.
Qed.

Lemma parallel_read_rejects_witness :
  ParallelFile.read_input_file [2; 2; 0; 3; 1; 2; 2; 2; 0; 4] = None
  /\ ParallelFile.read_input_file [2; 2; 0; 3; 1; 2; 1; 2; 0] = None.
Proof.
  split.
  - apply (parallel_read_rejects 2 2 [0; 3; 1; 2; 2; 2; 0; 4]); [int_tokens | lia | lia |].
    right. right. right. exists 2%nat, 2. split; [lia|]. split; [reflexivity | lia].
  - apply (parallel_read_rejects 2 2 [0; 3; 1; 2; 1; 2; 0]); [int_tokens | lia | lia |].
    right. right. left. simpl. lia.
Defined.

(** ** From the input file to the output file *)

(** A table in which nothing is scheduled is its own reset. *)
Lemma reset_fresh p :
  well_formed p ->
  (forall job op, in_table p job op -> Op.start_time (job_op p job op) = -1) ->
  reset_problem p = p.
Proof.
  intros Hwf Hfresh. destruct (reset_problem_spec p Hwf) as (Hwf' & (Hj & Hm & Ho & Hc) & Hs).
  apply table_ext; try done. intros job op Hin.
  destruct (Hc job op Hin) as [Hmc Hdc]. specialize (Hs job op Hin).
  specialize (Hfresh job op Hin).
  destruct (job_op (reset_problem p) job op), (job_op p job op). simpl in *. congruence.
Qed.

(** The sequential program from the file to the output.  For a valid
    problem with as many operations per job as machines and a total duration
    below 999999, the program run on the file of the problem (whatever
    follows in the file, whatever the memory held) writes the makespan and
    the rows of a complete, valid schedule of that problem. *)
Theorem sequential_program_end_to_end (mem : SequentialFile.Memory)
    (p : JobShopProblem) (extra : list Z) :
  valid_problem p -> num_operations p = num_machines p -> total_work p < 999999 ->
  exists q,
    SequentialFile.main mem (file_tokens p ++ extra)
    = Some (makespan_all q, output_rows q)
    /\ same_input p q /\ schedule_ok q.
Proof.
  intros Hv Hops Hwork. unfold SequentialFile.main.
  rewrite (sequential_read_file mem p extra); [|apply Hv | done | apply Hv].
  destruct (sequential_main_run p (valid_problem_table p Hv)) as (st & Hrun & Hmain).
  rewrite (reset_fresh p) in Hrun by apply Hv.
  destruct (run_completes_below_sentinel p Hv (below_sentinel_throughout p Hv Hwork))
    as (st' & Hrun' & _ & Hok).
  rewrite Hrun in Hrun'. injection Hrun' as <-.
  exists (Sequential.problem st). split; [exact Hmain|]. split; [|done].
  apply (sequential_board p st Hv Hrun).
Qed.

Lemma sequential_program_end_to_end_witness :
  exists q,
    SequentialFile.main (SequentialFile.mkMemory 0 0 (fun _ _ => Op.mk 0 0 0))
      [2; 2; 0; 3; 1; 2; 1; 2; 0; 4]
    = Some (makespan_all q, output_rows q)
    /\ same_input example_problem q /\ schedule_ok q.
Proof.
  apply (sequential_program_end_to_end _ example_problem []).
  - apply example_problem_valid.
  - reflexivity.
  - vm_compute. reflexivity.
Defined.

(** The parallel program from the thread count and the file to the output.
    For a valid problem with as many operations per job as machines and a
    total duration of at most [INT_MAX], and a thread count from 1 to
    [MAX_THREADS], the program run on the file of the problem writes, when
    all threads run in every round of the last repetition, the makespan and
    the rows of a complete, valid schedule of that problem; the teams of the
    earlier repetitions do not matter. *)
Theorem parallel_program_end_to_end (teams : nat -> Z -> list Z) (num_threads : Z)
    (p : JobShopProblem) (extra : list Z) :
  valid_problem p -> num_operations p = num_machines p ->
  total_work p <= INT_MAX ->
  1 <= num_threads <= MAX_THREADS ->
  (forall i, Parallel.full_team
               (Parallel.effective_num_threads num_threads (Parallel.total_ops p))
               (teams 9%nat i)) ->
  exists q,
    ParallelFile.main teams num_threads (file_tokens p ++ extra)
    = Some (Parallel.Written (makespan_scheduled q) (output_rows q))
    /\ same_input p q /\ schedule_ok q.
Proof.
  intros Hv Hops _ HT Hfull. unfold ParallelFile.main. rewrite Z.gtb_ltb.
  destruct (Z.leb_spec num_threads 0); [lia|].
  destruct (Z.ltb_spec MAX_THREADS num_threads); [lia|].
  pose proof (vp_wf _ Hv) as Hwf.
  assert (Hread : ParallelFile.read_input_file (file_tokens p ++ extra) = Some p).
  { unfold file_tokens. cbn [app]. apply parallel_read_spec; [apply Hwf | |].
    - rewrite <- Hops. apply Hwf.
    - split_and!; try done; [by apply valid_problem_readable | by exists extra]. }
  rewrite Hread.
  destruct (parallel_main_run teams num_threads p (valid_problem_table p Hv)) as [_ Hmain].
  destruct (Hmain HT) as (r & Hrun & Hout).
  rewrite (reset_fresh p) in Hrun by apply Hv.
  set (eff := Parallel.effective_num_threads num_threads (Parallel.total_ops p)) in *.
  assert (Heff : 1 <= eff) by (apply effective_num_threads_range; lia).
  destruct (schedule_with_strict_division_full (teams 9%nat) eff p Hv Heff Hfull)
    as (r' & Hrun' & _ & _ & Hok).
  rewrite Hrun in Hrun'. injection Hrun' as <-.
  exists (Parallel.problem (Parallel.final r)). split; [exact Hout|]. split; [|done].
  apply (parallel_board _ _ _ _ Hv Heff Hrun).
Qed.

Lemma parallel_program_end_to_end_witness :
  exists q,
    ParallelFile.main (fun rep _ => if (rep =? 9)%nat then seqZ 0 2 else [1]) 2
      [2; 2; 0; 3; 1; 2; 1; 2; 0; 4]
    = Some (Parallel.Written (makespan_scheduled q) (output_rows q))
    /\ same_input example_problem q /\ schedule_ok q.
Proof.
  apply (parallel_program_end_to_end _ 2 example_problem []).
  - apply example_problem_valid.
  - reflexivity.
  - vm_compute. intros H. discriminate H.
  - unfold MAX_THREADS. lia.
  - intros i. unfold Parallel.full_team. reflexivity.
Defined.


(** ** The clamping of the thread count *)

(** Clamping is stable and monotone: clamping a clamped count changes
    nothing, and a larger request never gives fewer threads. *)
Lemma effective_num_threads_stable (total_ops : Z) :
  (forall num_threads,
     Parallel.effective_num_threads
       (Parallel.effective_num_threads num_threads total_ops) total_ops
     = Parallel.effective_num_threads num_threads total_ops)
  /\ (forall n1 n2, n1 <= n2 ->
        Parallel.effective_num_threads n1 total_ops
        <= Parallel.effective_num_threads n2 total_ops).
Proof.
  assert (Hval : forall n,
            Parallel.effective_num_threads n total_ops
            = Z.max 1 (if (8 <? Z.min n total_ops) && (total_ops <? 100)
                       then 8 else Z.min n total_ops)).
  { intros n. unfold Parallel.effective_num_threads. cbv zeta. rewrite !Z.gtb_ltb.
    destruct (Z.ltb_spec total_ops n); [rewrite Z.min_r by lia | rewrite Z.min_l by lia];
      destruct (_ && _);
      match goal with |- context [?a <? 1] => destruct (Z.ltb_spec a 1) end; lia. }
  split.
  - intros n. rewrite !Hval.
    destruct (Z.ltb_spec total_ops 100); destruct (Z.ltb_spec 8 (Z.min n total_ops));
      cbn [andb];
      repeat match goal with
             | |- context [?a <? ?b] => destruct (Z.ltb_spec a b); cbn [andb]
             end; lia.
  - intros n1 n2 Hle. rewrite !Hval.
    destruct (Z.ltb_spec total_ops 100); destruct (Z.ltb_spec 8 (Z.min n1 total_ops));
      destruct (Z.ltb_spec 8 (Z.min n2 total_ops)); cbn [andb]; lia.
Qed.

(** ** Ownership of jobs *)

Lemma init_owner_value num_threads p job op :
  well_formed p -> in_table p job op ->
  (Parallel.op_assigned (Parallel.init num_threads p)).[job].[op] = Z.rem job num_threads.
Proof.
  intros Hwf [Hj Ho].
  destruct (init_owner num_threads p (Z.to_nat (num_jobs p)) Hwf) as [_ Hval].
  { destruct Hwf. lia. }
  rewrite <- seqZ_to_nat in Hval. unfold Parallel.init. cbn [Parallel.op_assigned].
  apply Hval; lia.
Qed.

(** [Parallel.init] hands the jobs out round robin: every operation of job
    [job] belongs to thread [job mod num_threads]. *)
Theorem init_round_robin (num_threads : Z) (p : JobShopProblem) (job op : Z) :
  well_formed p -> 1 <= num_threads -> in_table p job op ->
  (Parallel.op_assigned (Parallel.init num_threads p)).[job].[op] = job mod num_threads.
Proof.
  intros Hwf HT Hin. rewrite init_owner_value by done.
  destruct Hin. apply Z.rem_mod_nonneg; lia.
Qed.

Lemma init_round_robin_witness :
  (Parallel.op_assigned (Parallel.init 2 three_jobs)).[2].[0] = 2 mod 2.
Proof.
  apply init_round_robin.
  - apply check_valid_sound. reflexivity.
  - lia.
  - unfold in_table. simpl. lia.
Defined.

Section ownership.
Import Parallel.

Lemma owner_uniform_frame st st' :
  same_frame st st' -> owner_uniform st -> owner_uniform st'.
Proof.
  intros (Hoa & _ & Hnj & Hno) Hu job op [Hj Ho]. rewrite Hoa.
  apply Hu. unfold in_table. lia.
Qed.

Lemma owner_uniform_redistribute num_threads st :
  par_inv num_threads st -> owner_uniform st ->
  owner_uniform (redistribute num_threads st).1.
Proof.
  intros Hinv Hu. pose proof (par_inv_fits _ _ Hinv) as Hfits.
  pose proof (redistribute_fits num_threads st Hfits) as H.
  destruct (redistribute num_threads st) as [st' flag]. cbn [fst].
  destruct H as ((Hp & _) & _ & H). pose proof Hfits as (Hnj & Hno & _).
  intros job op [Hj Ho]. rewrite Hp in Hj, Ho.
  destruct (find_idle num_threads (thread_worked st)) as [t|].
  - destruct H as [Hval _].
    rewrite !Hval by (unfold MAX_OPERATIONS in *; lia).
    destruct (decide (stuck st job)) as [Hs|Hs].
    + rewrite !decide_True by (split; [done | lia]). done.
    + rewrite !decide_False by (by intros [? _]). apply Hu. unfold in_table. lia.
  - destruct H as [-> _]. apply Hu. unfold in_table. lia.
Qed.

Lemma coordinate_owner num_threads teams fuel st st' warning :
  par_inv num_threads st -> owner_uniform st ->
  coordinate fuel teams num_threads st = Some (st', warning) ->
  owner_uniform st'.
Proof.
  revert st. induction fuel as [|fuel IH]; intros st Hinv Hu; cbn [coordinate].
  - destruct (_ && _); [done|]. by intros [= <- _].
  - destruct (_ && _); [|by intros [= <- _]].
    pose proof (par_inv_next_iteration _ _ Hinv) as Hinv0.
    destruct (parallel_region_spec num_threads
                (teams (iteration_count (next_iteration st))) _ Hinv0)
      as (st1 & n & Hreg & Hinv1 & Hfr1 & _).
    rewrite Hreg. cbn [mbind option_bind].
    assert (Hu1 : owner_uniform st1).
    { apply (owner_uniform_frame (next_iteration st)); [done|]. exact Hu. }
    destruct (n =? 0); [|by apply IH].
    pose proof (redistribute_spec num_threads st1 Hinv1) as Hred.
    pose proof (owner_uniform_redistribute num_threads st1 Hinv1 Hu1) as Hu2.
    destruct (redistribute num_threads st1) as [st2 flag]. cbn [fst] in Hu2.
    destruct Hred as (_ & Hinv2).
    destruct (flag =? 0); [by apply IH|].
    destruct (fallback_spec num_threads st2 Hinv2) as (st3 & Hfb & _ & Hfr3 & _).
    rewrite Hfb. cbn [mbind option_bind]. intros [= <- _].
    by apply (owner_uniform_frame st2).
Qed.

End ownership.

(** Ownership is per job throughout: after the call, whatever the teams and
    whatever was redistributed, every operation of a job has the same owner,
    and that owner is one of the [num_threads] threads. *)
Theorem ownership_is_per_job (teams : Z -> list Z) (num_threads : Z)
    (p : JobShopProblem) (r : Parallel.Result) (job op : Z) :
  valid_problem p -> 1 <= num_threads <= MAX_THREADS ->
  teams_in_range num_threads teams ->
  Parallel.schedule_with_strict_division teams num_threads p = Some r ->
  in_table p job op ->
  (Parallel.op_assigned (Parallel.final r)).[job].[op]
  = (Parallel.op_assigned (Parallel.final r)).[job].[0]
  /\ 0 <= (Parallel.op_assigned (Parallel.final r)).[job].[op] < num_threads.
Proof.
  intros Hv [HT _] _. unfold Parallel.schedule_with_strict_division.
  destruct (Parallel.coordinate _ _ _ _) as [[st w]|] eqn:Hrun; [|done].
  cbn [mbind option_bind]. intros [= <-] Hin. cbn [Parallel.final].
  pose proof (par_inv_init num_threads p Hv HT) as Hinit.
  pose proof (vp_wf _ Hv) as Hwf.
  assert (Hu0 : owner_uniform (Parallel.init num_threads p)).
  { intros j o Hjo. change (in_table p j o) in Hjo.
    rewrite !init_owner_value; try done. destruct Hjo. unfold in_table. lia. }
  pose proof (coordinate_owner _ _ _ _ _ _ Hinit Hu0 Hrun) as Hu.
  destruct (coordinate_returns num_threads teams (Z.to_nat (Parallel.max_iterations p))
              (Parallel.init num_threads p) Hinit) as (st' & w' & Hrun' & Hinv & Hnj & Hno & _).
  { simpl. lia. }
  rewrite Hrun in Hrun'. injection Hrun' as <- <-. simpl in Hnj, Hno.
  assert (Hin' : in_table (Parallel.problem st) job op).
  { destruct Hin. unfold in_table. lia. }
  rewrite (Hu job op Hin'). split; [done|].
  apply (pi_owner _ _ Hinv); destruct Hin'; lia.
Qed.

Lemma ownership_is_per_job_witness :
  exists r,
    Parallel.schedule_with_strict_division shrinking_teams 2 example_problem = Some r
    /\ (Parallel.op_assigned (Parallel.final r)).[1].[1]
       = (Parallel.op_assigned (Parallel.final r)).[1].[0]
    /\ 0 <= (Parallel.op_assigned (Parallel.final r)).[1].[1] < 2.
Proof.
  eexists. split; [vm_compute; reflexivity|].
  apply (ownership_is_per_job shrinking_teams 2 example_problem).
  - apply example_problem_valid.
  - unfold MAX_THREADS. lia.
  - intros i. unfold shrinking_teams. destruct (i =? 1); repeat constructor; lia.
  - vm_compute; reflexivity.
  - unfold in_table. simpl. lia.
Defined.


(** ** The sequential reader on any file *)

Lemma fscanf_int_int_values (tokens : list Z) (a b : Z) :
  exists n, fscanf_int_int tokens a b
            = (n, default a (tokens !! 0%nat), default b (tokens !! 1%nat), drop 2 tokens).
Proof. destruct tokens as [|x [|y rest]]; eexists; reflexivity. Qed.

(** The sequential reading loops over the cells [l]: the [k]-th cell takes
    the integers at [2k] and [2k+1] of the file where there are any. *)
Lemma seq_read_cells_spec (l : list (Z * Z)) q toks q' toks' :
  well_formed q -> (forall c, c ∈ l -> in_table q c.1 c.2) -> NoDup l ->
  fold_left (fun acc '(job, op) => SequentialFile.read_operation acc job op) l (q, toks)
  = (q', toks') ->
  num_jobs q' = num_jobs q /\ num_machines q' = num_machines q
  /\ num_operations q' = num_operations q
  /\ (forall (k : nat) c, l !! k = Some c ->
        job_op q' c.1 c.2
        = Op.mk (default (Op.machine (job_op q c.1 c.2)) (toks !! (2 * k)%nat))
                (default (Op.duration (job_op q c.1 c.2)) (toks !! (2 * k + 1)%nat))
                (-1))
  /\ (forall job op, in_table q job op -> (job, op) ∉ l ->
        job_op q' job op = job_op q job op).
Proof.
  revert q toks. induction l as [|[j o] l IH]; intros q toks Hwf Hin Hnd; cbn [fold_left].
  - intros [= <- <-]. split_and!; try done.
  - apply NoDup_cons in Hnd as [Hnotin Hnd].
    assert (Hjo : in_table q j o) by (apply (Hin (j, o)); left).
    unfold SequentialFile.read_operation at 2.
    destruct (fscanf_int_int_values toks (Op.machine (job_op q j o))
                (Op.duration (job_op q j o))) as [n ->].
    intros Hrun.
    destruct (IH _ _ (well_formed_set_op q j o _ Hwf (proj1 (proj1 Hjo)))
                (fun c Hc => Hin c (list_elem_of_further _ _ _ Hc)) Hnd Hrun)
      as (Hnj & Hnm & Hno & Hl & Hout).
    simpl in Hnj, Hnm, Hno. split_and!; try done.
    + intros k c Hk. destruct k as [|k].
      * injection Hk as <-. cbn [fst snd].
        rewrite Hout; [|done|done]. rewrite job_op_set_op by done. by rewrite decide_True.
      * cbn [lookup list_lookup] in Hk. rewrite (Hl k c Hk).
        assert (Hc : c ∈ l) by (by apply list_elem_of_lookup_2 in Hk).
        assert (Hne : c <> (j, o)) by (intros ->; done).
        rewrite job_op_set_op; [|done|done|by apply (Hin c); right].
        rewrite decide_False by (destruct c; done).
        rewrite !lookup_drop.
        replace (2 + 2 * k)%nat with (2 * S k)%nat by lia.
        by replace (2 + (2 * k + 1))%nat with (2 * S k + 1)%nat by lia.
    + intros job op Hjob Hnot. apply not_elem_of_cons in Hnot as [Hne Hnot].
      rewrite Hout by done. rewrite job_op_set_op by done. by rewrite decide_False.
Qed.

Lemma lookup_bind_blocks {A B} (f : A -> list B) (l : list A) (n j i : nat) (x : A) :
  (forall y, length (f y) = n) -> l !! j = Some x -> (i < n)%nat ->
  (l ≫= f) !! (j * n + i)%nat = f x !! i.
Proof.
  intros Hlen. revert j. induction l as [|y l IH]; intros j Hj Hi; [done|].
  rewrite bind_cons. destruct j as [|j].
  - injection Hj as ->. rewrite lookup_app_l; [done | by rewrite Hlen].
  - cbn [lookup list_lookup] in Hj. rewrite lookup_app_r by (rewrite Hlen; lia).
    rewrite Hlen. replace (S j * n + i - n)%nat with (j * n + i)%nat by lia. by apply IH.
Qed.

(** Position of a cell in the visiting order. *)
Lemma cells_lookup p job op :
  in_table p job op ->
  cells p !! Z.to_nat (job * num_operations p + op) = Some (job, op).
Proof.
  intros [Hj Ho]. unfold cells.
  replace (Z.to_nat (job * num_operations p + op))
    with (Z.to_nat job * Z.to_nat (num_operations p) + Z.to_nat op)%nat by nia.
  rewrite (lookup_bind_blocks _ _ (Z.to_nat (num_operations p)) _ _ job).
  - rewrite list_lookup_fmap, (lookup_seqZ_lt 0 _ (Z.to_nat op)) by lia. simpl.
    by rewrite Z.add_0_l, Z2Nat.id by lia.
  - intros y. by rewrite length_fmap, length_seqZ.
  - rewrite (lookup_seqZ_lt 0 _ (Z.to_nat job)) by lia. by rewrite Z.add_0_l, Z2Nat.id by lia.
  - lia.
Qed.

(** The reader of the sequential program takes any file of integers within
    the range of [int]: for dimensions
    that fit the table, every operation is marked unscheduled, and the
    operation at position [k] of the visiting order takes its machine and
    its duration from the integers at [2k] and [2k + 1] after the
    dimensions; where the file has none, the field keeps what the memory
    held before the call. *)
Theorem sequential_read_unchecked (mem : SequentialFile.Memory) (nj nm : Z)
    (rest : list Z) (job op : Z) :
  Forall in_int (nj :: nm :: rest) ->
  0 <= nj <= MAX_JOBS -> 0 <= nm <= MAX_MACHINES ->
  0 <= job < nj -> 0 <= op < nm ->
  let p := SequentialFile.read_input_file mem (nj :: nm :: rest) in
  num_jobs p = nj /\ num_machines p = nm /\ num_operations p = nm
  /\ job_op p job op
     = Op.mk (default (Op.machine (SequentialFile.mem_op mem job op))
                      (rest !! Z.to_nat (2 * (job * nm + op))))
             (default (Op.duration (SequentialFile.mem_op mem job op))
                      (rest !! Z.to_nat (2 * (job * nm + op) + 1)))
             (-1).
Proof.
  intros _ Hnj Hnm Hjob Hop. unfold SequentialFile.read_input_file. cbn [fscanf_int_int].
  set (q0 := mkProblem nj nm nm (table_of nj nm (SequentialFile.mem_op mem))).
  assert (Hwf0 : well_formed q0).
  { apply table_of_well_formed; unfold MAX_MACHINES, MAX_OPERATIONS in *; lia. }
  rewrite sequential_read_loops.
  destruct (fold_left _ (cells q0) (q0, rest)) as [q' toks'] eqn:Hrun. cbn [fst].
  apply seq_read_cells_spec in Hrun as (Hdj & Hdm & Hdo & Hl & _);
    [|done | by intros [j o] Hc; apply elem_of_cells | apply NoDup_cells].
  split_and!; try done.
  assert (Hin : in_table q0 job op) by (unfold in_table; simpl; lia).
  pose proof (Hl _ _ (cells_lookup q0 job op Hin)) as Hcell. cbn [fst snd] in Hcell.
  rewrite Hcell. unfold q0 in *. rewrite (table_of_cell nj nm nm _ job op Hin).
  cbn [num_operations].
  replace (2 * Z.to_nat (job * nm + op))%nat with (Z.to_nat (2 * (job * nm + op))) by nia.
  by replace (Z.to_nat (2 * (job * nm + op)) + 1)%nat
    with (Z.to_nat (2 * (job * nm + op) + 1)) by nia.
Qed.

Lemma sequential_read_unchecked_witness :
  job_op (SequentialFile.read_input_file
            (SequentialFile.mkMemory 0 0 (fun job op => Op.mk 41 42 43))
            [2; 2; 0; 3; 1]) 0 1
  = Op.mk 1 42 (-1).
Proof.
  destruct (sequential_read_unchecked
              (SequentialFile.mkMemory 0 0 (fun job op => Op.mk 41 42 43))
              2 2 [0; 3; 1] 0 1) as (_ & _ & _ & Hcell);
    [int_tokens | unfold MAX_JOBS; lia | unfold MAX_MACHINES; lia | lia | lia |].
  exact Hcell.
Defined.


(** ** Files without operations *)

Lemma cells_empty p :
  0 <= num_jobs p -> 0 <= num_operations p -> num_jobs p * num_operations p = 0 ->
  cells p = [].
Proof.
  intros Hj Ho Hz. apply length_zero_iff_nil. rewrite length_cells. nia.
Qed.

Lemma output_rows_empty p :
  0 <= num_jobs p -> 0 <= num_operations p -> num_jobs p * num_operations p = 0 ->
  output_rows p = replicate (Z.to_nat (num_jobs p)) [].
Proof.
  intros Hj Ho Hz. unfold output_rows.
  destruct (decide (num_operations p = 0)) as [->|Hne].
  - rewrite <- (length_seqZ 0 (num_jobs p)). by apply const_fmap.
  - assert (num_jobs p = 0) as -> by nia. done.
Qed.

(** A file without operations is not an error for the parallel program.
    When the two dimensions at the head of the file are in range and one of
    them is 0, the program writes makespan 0 and one empty row per job and
    ends normally, for every thread count from 1 to [MAX_THREADS] and all
    teams.  A dimension that the file does not hold counts as 0, the value
    of the zero-initialised global: so an empty file, and a file that does
    not start with an integer, are read as the problem without jobs. *)
Theorem parallel_program_no_operations (teams : nat -> Z -> list Z) (num_threads : Z)
    (tokens : list Z) :
  let nj := default 0 (tokens !! 0%nat) in
  let nm := default 0 (tokens !! 1%nat) in
  0 <= nj <= MAX_JOBS -> 0 <= nm <= MAX_MACHINES -> nj * nm = 0 ->
  1 <= num_threads <= MAX_THREADS ->
  ParallelFile.main teams num_threads tokens
  = Some (Parallel.Written 0 (replicate (Z.to_nat nj) [])).
Proof.
  intros nj nm Hnj Hnm Hz HT. unfold ParallelFile.main. rewrite Z.gtb_ltb.
  destruct (Z.leb_spec num_threads 0); [lia|].
  destruct (Z.ltb_spec MAX_THREADS num_threads); [lia|].
  set (q0 := mkProblem nj nm nm (table_of nj nm (fun _ _ => Op.mk 0 0 0))).
  assert (Hwf0 : well_formed q0).
  { apply table_of_well_formed; unfold MAX_MACHINES, MAX_OPERATIONS in *; lia. }
  assert (Hcells0 : cells q0 = []) by (apply cells_empty; simpl; lia).
  assert (Hnone : forall job op, ~ in_table q0 job op).
  { intros job op Hin. apply elem_of_cells in Hin. rewrite Hcells0 in Hin. by inversion Hin. }
  assert (Hread : ParallelFile.read_input_file tokens = Some q0).
  { unfold ParallelFile.read_input_file.
    destruct (fscanf_int_int_values tokens 0 0) as [n ->]. fold nj nm q0.
    rewrite !Z.gtb_ltb.
    destruct (Z.ltb_spec MAX_JOBS (num_jobs q0)); [simpl in *; lia|].
    destruct (Z.ltb_spec MAX_MACHINES (num_machines q0)); [simpl in *; lia|].
    cbn [orb]. rewrite parallel_read_loops, Hcells0. done. }
  rewrite Hread.
  assert (Hvt : valid_table q0) by (split; [done|..]; intros job op Hin; by destruct (Hnone job op)).
  destruct (parallel_main_run teams num_threads q0 Hvt) as [_ Hmain].
  destruct (Hmain HT) as (r & Hrun & ->).
  set (eff := Parallel.effective_num_threads num_threads (Parallel.total_ops q0)) in *.
  assert (Heff : 1 <= eff) by (apply effective_num_threads_range; lia).
  pose proof (parallel_board _ _ _ _ (valid_table_reset q0 Hvt) Heff Hrun) as Hok.
  destruct (reset_problem_spec q0 Hwf0) as (_ & Hi0 & _).
  pose proof (same_input_trans _ _ _ Hi0 (bo_input _ _ Hok)) as (Hdj & Hdm & Hdo & _).
  cbn [par_board fst snd] in Hdj, Hdm, Hdo. simpl in Hdj, Hdo.
  unfold Parallel.write_output_file. f_equal. f_equal.
  - unfold makespan_scheduled. rewrite cells_empty; [done | lia | lia | ].
    rewrite Hdj, Hdo. exact Hz.
  - rewrite output_rows_empty; [by rewrite Hdj | lia | lia |].
    rewrite Hdj, Hdo. exact Hz.
Qed.

Lemma parallel_program_no_operations_witness :
  ParallelFile.main (fun _ _ => [0]) 4 [] = Some (Parallel.Written 0 [])
  /\ ParallelFile.main (fun _ _ => [0]) 4 [3] = Some (Parallel.Written 0 [[]; []; []]).
Proof.
  split.
  - apply (parallel_program_no_operations (fun _ _ => [0]) 4 []);
      unfold MAX_JOBS, MAX_MACHINES, MAX_THREADS; simpl; lia.
  - apply (parallel_program_no_operations (fun _ _ => [0]) 4 [3]);
      unfold MAX_JOBS, MAX_MACHINES, MAX_THREADS; simpl; lia.
Defined.


(** ** The base name of the input file *)

Lemma strrchr_none s c : strrchr s c = None <-> c ∉ s.
Proof.
  induction s as [|x s IH]; simpl.
  - split; [intros _ H; by inversion H | done].
  - destruct (strrchr s c) as [i|].
    + split; [done|]. intros Hn. exfalso.
      assert (c ∉ s) as Hs by (intros H; apply Hn; by right).
      apply IH in Hs. done.
    + destruct (Ascii.eqb_spec x c) as [->|Hne].
      * split; [done|]. intros Hn. exfalso. apply Hn. left.
      * split; [|done]. intros _ Hin. apply elem_of_cons in Hin as [->|Hin]; [done|].
        by apply IH in Hin.
Qed.

Lemma drop_past {A} (s : list A) (c : A) (t : list A) :
  drop (S (length s)) (s ++ c :: t) = t.
Proof. induction s as [|x s IH]; [done | exact IH]. Qed.

Lemma strrchr_last s c t : c ∉ t -> strrchr (s ++ c :: t) c = Some (length s).
Proof.
  intros Hnot. apply strrchr_none in Hnot. induction s as [|x s IH]; simpl.
  - rewrite Hnot. by rewrite Ascii.eqb_refl.
  - by rewrite IH.
Qed.

(** The base name of [dir/name.ext] is [name], and so is that of
    [name.ext] without a directory: the directory ends at the last slash,
    or at the last backslash when there is no slash at all, and the
    extension removed is the last one, which may be empty. *)
Theorem input_base_name_of_path (dir name ext : list ascii) :
  slash ∉ name -> slash ∉ ext -> dot ∉ ext ->
  input_base_name (dir ++ slash :: name ++ dot :: ext) = name
  /\ (backslash ∉ name -> backslash ∉ ext ->
      input_base_name (name ++ dot :: ext) = name
      /\ (slash ∉ dir ->
          input_base_name (dir ++ backslash :: name ++ dot :: ext) = name)).
Proof.
  intros Hsn Hse Hde.
  assert (Hdot : slash <> dot) by discriminate.
  assert (Hbs : backslash <> slash) by (vm_compute; discriminate).
  assert (Hbd : backslash <> dot) by (vm_compute; discriminate).
  assert (Hbase : match strrchr (name ++ dot :: ext) dot with
                  | Some i => take i (name ++ dot :: ext)
                  | None => name ++ dot :: ext
                  end = name).
  { rewrite strrchr_last by done. by rewrite take_app_length. }
  assert (Hnoslash : slash ∉ name ++ dot :: ext).
  { intros Hin. apply elem_of_app in Hin as [?|Hin]; [done|].
    apply elem_of_cons in Hin as [?|?]; done. }
  split; [|intros Hbn Hbe; split; [|intros Hsd]].
  - unfold input_base_name. rewrite strrchr_last by done.
    rewrite drop_past. exact Hbase.
  - unfold input_base_name.
    assert (strrchr (name ++ dot :: ext) slash = None) as -> by (by apply strrchr_none).
    assert (strrchr (name ++ dot :: ext) backslash = None) as ->; [|exact Hbase].
    apply strrchr_none. intros Hin. apply elem_of_app in Hin as [?|Hin]; [done|].
    apply elem_of_cons in Hin as [?|?]; done.
  - unfold input_base_name.
    assert (strrchr (dir ++ backslash :: name ++ dot :: ext) slash = None) as ->.
    { apply strrchr_none. intros Hin. apply elem_of_app in Hin as [?|Hin]; [done|].
      apply elem_of_cons in Hin as [?|?]; [by apply Hbs | done]. }
    rewrite strrchr_last.
    + rewrite drop_past. exact Hbase.
    + intros Hin. apply elem_of_app in Hin as [?|Hin]; [done|].
      apply elem_of_cons in Hin as [?|?]; done.
Qed.

Lemma input_base_name_of_path_witness :
  input_base_name
    ("d"%char :: "."%char :: "x"%char :: slash :: "j"%char :: "."%char :: "v"%char
       :: dot :: ["t"%char])
  = ["j"%char; "."%char; "v"%char].
Proof.
  destruct (input_base_name_of_path ["d"%char; "."%char; "x"%char]
              ["j"%char; "."%char; "v"%char] ["t"%char]) as [Hname _].
  - intros H. repeat (apply elem_of_cons in H as [H|H]; [discriminate H|]).
    by apply elem_of_nil in H.
  - intros H. repeat (apply elem_of_cons in H as [H|H]; [discriminate H|]).
    by apply elem_of_nil in H.
  - intros H. repeat (apply elem_of_cons in H as [H|H]; [discriminate H|]).
    by apply elem_of_nil in H.
  - exact Hname.
Defined.


(** ** The sequential scheduler below the sentinel *)

Lemma sequential_schedule_ok_witness :
  exists st, Sequential.schedule_jobs_sequential example_problem = Some st
    /\ completed st /\ schedule_ok (Sequential.problem st).
Proof.
  apply sequential_schedule_ok; [apply example_problem_valid | vm_compute; reflexivity].
Defined.

(** * The sums as the machine computes them *)

(** ** The normalised table *)

Lemma aget_fmap {A B} `{Inhabited A, Inhabited B} (f : A -> B) (l : list A) (i : Z) :
  f inhabitant = inhabitant -> (f <$> l).[i] = f (l.[i]).
Proof.
  intros Hf. unfold aget. rewrite !list_lookup_total_alt, list_lookup_fmap.
  by destruct (l !! Z.to_nat i).
Qed.

Section normalize.
Variable p : JobShopProblem.

Lemma job_op_normalize job op :
  job_op (normalize p) job op = normalize_op (job_op p job op).
Proof.
  unfold job_op, normalize. cbn [jobs].
  rewrite (aget_fmap (fun row : list Operation => normalize_op <$> row)) by done.
  by rewrite (aget_fmap normalize_op).
Qed.

Lemma cells_normalize : cells (normalize p) = cells p.
Proof. done. Qed.

Lemma committed_on_normalize machine job op :
  committed_on machine (job_op (normalize p) job op)
  = committed_on machine (job_op p job op).
Proof. by rewrite job_op_normalize. Qed.

Lemma op_end_normalize c : op_end (normalize p) c = int_op_end p c.
Proof.
  unfold op_end, int_op_end. rewrite job_op_normalize. cbn [normalize_op Op.start_time Op.duration].
  lia.
Qed.

Lemma conflict_normalize machine s e c :
  conflict (normalize p) machine s e c = int_conflict p machine s e c.
Proof.
  unfold conflict, int_conflict.
  by rewrite committed_on_normalize, op_end_normalize, job_op_normalize.
Qed.

Lemma pending_normalize machine t :
  pending (normalize p) machine t = int_pending p machine t.
Proof.
  unfold pending, int_pending. rewrite cells_normalize. f_equal.
  induction (cells p) as [|c l IH]; [done|]. simpl.
  by rewrite committed_on_normalize, op_end_normalize, IH.
Qed.

(** The scan with the machine's sums is the scan of the normalised table. *)
Lemma int_scan_normalize machine s e :
  Int32.scan p machine s e = scan (normalize p) machine s e.
Proof.
  unfold Int32.scan, scan.
  rewrite (fold_cells (fun acc job op => Int32.scan_cell p machine s e acc job op)).
  rewrite (fold_cells (fun acc job op => scan_cell (normalize p) machine s e acc job op)).
  rewrite cells_normalize. apply fold_left_ext_in. intros [cs ep] [job op] _.
  unfold Int32.scan_cell, scan_cell. rewrite committed_on_normalize.
  destruct (committed_on machine (job_op p job op)); [|done].
  pose proof (op_end_normalize (job, op)) as He. unfold op_end, int_op_end in He.
  cbn [fst snd] in He. rewrite He.
  by rewrite job_op_normalize.
Qed.
End normalize.

(** ** [find_available_time] with the machine's sums *)

Section int_find_loop.
Variables (p : JobShopProblem) (machine duration : Z).

(** One pass of the scan: either the slot passes the overlap test against
    every committed operation of the machine, or the retry value is the
    machine end of an operation that failed it and lies strictly later. *)
Lemma int_scan_spec s e :
  match Int32.scan p machine s e with
  | (true, earliest_possible) =>
      earliest_possible = s
      /\ forall job op, in_table p job op -> int_conflict p machine s e (job, op) = false
  | (false, earliest_possible) =>
      s < earliest_possible
      /\ (exists job op, in_table p job op /\ int_conflict p machine s e (job, op) = true
                         /\ earliest_possible = int_op_end p (job, op))
      /\ forall job op, in_table p job op -> int_conflict p machine s e (job, op) = true ->
                        int_op_end p (job, op) <= earliest_possible
  end.
Proof.
  rewrite int_scan_normalize. pose proof (scan_spec (normalize p) machine s e) as Hs.
  destruct (scan (normalize p) machine s e) as [[|] ep].
  - destruct Hs as [-> Hfree]. split; [done|]. intros job op Hin.
    rewrite <- conflict_normalize. by apply Hfree.
  - destruct Hs as (Hlt & (job & op & Hin & Hc & Heq) & Hmax). split; [done|]. split.
    + exists job, op. rewrite <- conflict_normalize, <- op_end_normalize. by split_and!.
    + intros job' op' Hin' Hc'. rewrite <- op_end_normalize. apply Hmax; [done|].
      by rewrite conflict_normalize.
Qed.

Lemma int_pending_bound t : (int_pending p machine t <= length (cells p))%nat.
Proof. unfold int_pending. apply List.filter_length_le. Qed.

(** Every retry strictly lowers the number of committed operations of the
    machine whose machine end lies after the candidate. *)
Lemma int_pending_retry s e earliest_possible :
  Int32.scan p machine s e = (false, earliest_possible) ->
  (int_pending p machine earliest_possible < int_pending p machine s)%nat.
Proof.
  intros Hscan. pose proof (int_scan_spec s e) as Hs.
  rewrite Hscan in Hs. destruct Hs as (Hlt & (job & op & Hin & Hc & Heq) & Hmax).
  unfold int_pending. apply (filter_length_lt _ _ _ (job, op)).
  - intros c _ Hg. apply andb_prop in Hg as [Hcm Hg].
    rewrite Hcm. simpl. apply Z.ltb_lt in Hg. apply Z.ltb_lt. lia.
  - by apply elem_of_cells.
  - unfold int_conflict in Hc. apply andb_prop in Hc as [-> _]. simpl. apply Z.ltb_lt. lia.
  - apply andb_false_iff. right. apply Z.ltb_ge. lia.
Qed.

Lemma int_find_loop_returns fuel s :
  (int_pending p machine s < fuel)%nat ->
  exists r, Int32.find_loop fuel p machine duration s = Some r.
Proof.
  revert s. induction fuel as [|fuel IH]; intros s Hlt; [lia|].
  simpl. destruct (Int32.scan p machine s (Int32.add s duration)) as [[|] ep] eqn:Hscan;
    [by eexists|].
  apply IH. apply int_pending_retry in Hscan. lia.
Qed.


Lemma int_find_available_time_returns earliest_start :
  exists r, Int32.find_available_time p machine duration earliest_start = Some r.
Proof.
  apply int_find_loop_returns. pose proof (int_pending_bound earliest_start). lia.
Qed.

(** Where the ends of the machine's committed operations are [int]s, the
    scan forms the sums of [Z]. *)
Lemma int_scan_exact bound s e :
  ends_within p machine bound -> bound <= INT_MAX ->
  Int32.scan p machine s e = scan p machine s e.
Proof.
  intros Hends Hb. unfold Int32.scan, scan.
  rewrite (fold_cells (fun acc job op => Int32.scan_cell p machine s e acc job op)).
  rewrite (fold_cells (fun acc job op => scan_cell p machine s e acc job op)).
  apply fold_left_ext_in. intros [cs ep] [job op] Hin. apply elem_of_cells in Hin.
  unfold Int32.scan_cell, scan_cell.
  destruct (committed_on machine (job_op p job op)) eqn:Hc; [|done].
  specialize (Hends job op Hin Hc). unfold op_end in Hends. cbn [fst snd] in Hends.
  unfold Int32.add. rewrite wrap_in_int; [done|]. unfold in_int. lia.
Qed.

(** Where, besides, the candidates and their slots stay within the range,
    the whole search does. *)
Lemma int_find_loop_exact bound fuel s :
  0 <= duration -> ends_within p machine bound -> bound + duration <= INT_MAX ->
  INT_MIN <= s <= bound ->
  Int32.find_loop fuel p machine duration s = find_loop fuel p machine duration s.
Proof.
  intros Hd Hends Hb. revert s. induction fuel as [|fuel IH]; intros s Hs; simpl; [done|].
  unfold Int32.add. rewrite (wrap_in_int (s + duration)) by (unfold in_int; lia).
  rewrite (int_scan_exact bound) by (done || lia).
  pose proof (scan_spec p machine s (s + duration)) as Hspec.
  destruct (scan p machine s (s + duration)) as [[|] ep]; [done|].
  destruct Hspec as (_ & (job & op & Hin & Hc & ->) & _). apply IH.
  apply Hends; [done|]. unfold conflict in Hc. by apply andb_prop in Hc as [Hc _].
Qed.

Lemma int_find_available_time_exact bound earliest_start :
  0 <= duration -> ends_within p machine bound -> bound + duration <= INT_MAX ->
  INT_MIN <= earliest_start <= bound ->
  Int32.find_available_time p machine duration earliest_start
  = find_available_time p machine duration earliest_start.
Proof. intros. by apply (int_find_loop_exact bound). Qed.

(** The slot found lies within the bound of the ends. *)
Lemma find_available_time_within bound earliest_start r :
  ends_within p machine bound -> earliest_start <= bound ->
  find_available_time p machine duration earliest_start = Some r -> r <= bound.
Proof.
  intros Hends He Hr. destruct (find_loop_spec _ _ _ _ _ _ Hr) as (_ & [->|Hor] & _); [done|].
  destruct Hor as (job & op & Hin & Hc & ->). by apply Hends.
Qed.
End int_find_loop.

Lemma check_ends_within_sound p machine bound :
  check_ends_within p machine bound = true -> ends_within p machine bound.
Proof.
  unfold check_ends_within. rewrite forallb_forall. intros H job op Hin Hc.
  apply elem_of_cells, list_elem_of_In, H in Hin. cbn [fst snd] in Hin.
  rewrite Hc in Hin. simpl in Hin. apply andb_prop in Hin as [H1 H2]. lia.
Qed.


(** ** The claims about [find_available_time] *)







(** ** The slot is the earliest one *)

(** Where the earliest start and the ends of the operations committed on the
    machine are at most [bound], and [bound + duration] is an [int], the
    slot found is the earliest conflict-free start that is not before
    [earliest_start]: it is free, and every start from [earliest_start] up
    to it conflicts with an operation committed on the machine. *)
Theorem find_available_time_earliest (p : JobShopProblem)
    (machine duration earliest_start bound r : Z) :
  0 <= duration -> INT_MIN <= earliest_start <= bound ->
  ends_within p machine bound -> bound + duration <= INT_MAX ->
  Int32.find_available_time p machine duration earliest_start = Some r ->
  earliest_start <= r
  /\ (forall job op, in_table p job op ->
        conflict p machine r (r + duration) (job, op) = false)
  /\ (forall t, earliest_start <= t < r ->
        exists job op, in_table p job op
          /\ conflict p machine t (t + duration) (job, op) = true).
Proof.
  intros Hd He Hends Hb.
  rewrite (int_find_available_time_exact p machine duration bound) by done.
  apply find_available_time_least.
Qed.

Lemma find_available_time_earliest_witness :
  exists job op,
    in_table (set_start_time example_problem 0 0 0) job op
    /\ conflict (set_start_time example_problem 0 0 0) 0 2 (2 + 4) (job, op) = true.
Proof.
  destruct (find_available_time_earliest (set_start_time example_problem 0 0 0) 0 4 2 3 3)
    as (_ & _ & Hskip).
  - lia.
  - unfold INT_MIN. lia.
  - apply check_ends_within_sound. reflexivity.
  - unfold INT_MAX. lia.
  - reflexivity.
  - apply (Hskip 2). lia.
Defined.

(** Under the same bound for both earliest starts: asking later never yields
    an earlier slot, and asking again from the slot that was returned yields
    that slot. *)
Theorem find_available_time_monotone (p : JobShopProblem)
    (machine duration e1 e2 bound r1 r2 : Z) :
  0 <= duration -> INT_MIN <= e1 -> e1 <= e2 -> e2 <= bound ->
  ends_within p machine bound -> bound + duration <= INT_MAX ->
  Int32.find_available_time p machine duration e1 = Some r1 ->
  Int32.find_available_time p machine duration e2 = Some r2 ->
  r1 <= r2 /\ Int32.find_available_time p machine duration r1 = Some r1.
Proof.
  intros Hd Hlo He Heb Hends Hb.
  rewrite !(int_find_available_time_exact p machine duration bound) by (done || lia).
  intros H1 H2.
  pose proof (find_available_time_within p machine duration bound e1 r1 Hends ltac:(lia) H1).
  destruct (find_loop_spec _ _ _ _ _ _ H1) as (Hle1 & _).
  rewrite (int_find_available_time_exact p machine duration bound) by (done || lia).
  by apply (find_available_time_order p machine duration e1 e2).
Qed.

Lemma find_available_time_monotone_witness :
  exists r1 r2,
    Int32.find_available_time (set_start_time example_problem 0 0 0) 0 4 1 = Some r1
    /\ Int32.find_available_time (set_start_time example_problem 0 0 0) 0 4 5 = Some r2
    /\ r1 <= r2.
Proof.
  exists 3, 5.
  destruct (find_available_time_monotone
              (set_start_time example_problem 0 0 0) 0 4 1 5 5 3 5) as [Hle _].
  - lia.
  - unfold INT_MIN. lia.
  - lia.
  - lia.
  - apply check_ends_within_sound. reflexivity.
  - unfold INT_MAX. lia.
  - reflexivity.
  - reflexivity.
  - split; [reflexivity|]. split; [reflexivity | exact Hle].
Defined.

(** ** The schedulers within the range of [int] *)

(** The operation that a job is about to schedule is not yet part of the
    work done. *)
Lemma work_done_next p so es job :
  sched_inv p so es -> 0 <= job < num_jobs p -> so.[job] < num_operations p ->
  work_done p so + Op.duration (job_op p job so.[job]) <= total_work p.
Proof.
  intros Hinv Hjob Hlt. pose proof (inv_so _ _ _ Hinv job Hjob) as Hop0.
  assert (Hin : in_table p job so.[job]) by (unfold in_table; lia).
  unfold work_done, total_work.
  rewrite <- (Zsum_raise
                (fun c => if c.2 <? so.[c.1] then Op.duration (job_op p c.1 c.2) else 0)
                (fun c => if decide (c = (job, so.[job]))
                          then Op.duration (job_op p job so.[job])
                          else if c.2 <? so.[c.1] then Op.duration (job_op p c.1 c.2) else 0)
                (cells p) (job, so.[job])).
  - apply Zsum_mono. intros [j o] Hjo. apply elem_of_cells in Hjo. cbn [fst snd].
    pose proof (inv_dur _ _ _ Hinv j o Hjo).
    destruct (decide ((j, o) = (job, so.[job]))) as [[= -> ->]|_]; [done|].
    destruct (o <? so.[j]); lia.
  - apply NoDup_cells.
  - by apply elem_of_cells.
  - rewrite decide_True by done. cbn [fst snd].
    destruct (Z.ltb_spec so.[job] so.[job]); lia.
  - intros c _ Hne. by rewrite decide_False.
Qed.

(** On a board that the commits maintain, with a total work within the
    range of [int], the next commit of a job forms no sum outside it. *)
Lemma commit_within p so es job :
  sched_inv p so es -> bound_inv p so es -> total_work p <= INT_MAX ->
  0 <= job < num_jobs p -> so.[job] < num_operations p ->
  Int32.find_available_time p (Op.machine (job_op p job so.[job]))
    (Op.duration (job_op p job so.[job])) es.[job]
  = find_available_time p (Op.machine (job_op p job so.[job]))
      (Op.duration (job_op p job so.[job])) es.[job]
  /\ forall t,
       find_available_time p (Op.machine (job_op p job so.[job]))
         (Op.duration (job_op p job so.[job])) es.[job] = Some t ->
       Int32.add t (Op.duration (job_op p job so.[job]))
       = t + Op.duration (job_op p job so.[job]).
Proof.
  intros Hinv [Hends Hes] Hwork Hjob Hlt.
  pose proof (inv_so _ _ _ Hinv job Hjob) as Hop0.
  assert (Hin : in_table p job so.[job]) by (unfold in_table; lia).
  pose proof (inv_dur _ _ _ Hinv _ _ Hin) as Hd.
  pose proof (work_done_next p so es job Hinv Hjob Hlt) as Hnext.
  pose proof (inv_es _ _ _ Hinv job Hjob) as He0. specialize (Hes job Hjob).
  set (machine := Op.machine (job_op p job so.[job])) in *.
  set (d := Op.duration (job_op p job so.[job])) in *.
  assert (Hw : ends_within p machine (work_done p so)).
  { intros j o Hjo Hc. unfold committed_on in Hc. apply andb_prop in Hc as [Hc _].
    apply negb_true_iff, Z.eqb_neq in Hc.
    assert (Ho : o < so.[j]).
    { destruct (decide (o < so.[j])) as [|Hge]; [done|].
      rewrite (inv_todo _ _ _ Hinv j o Hjo) in Hc; [done | lia]. }
    split; [|by apply Hends].
    pose proof (inv_done _ _ _ Hinv j o Hjo Ho). pose proof (inv_dur _ _ _ Hinv j o Hjo).
    unfold op_end, INT_MIN. cbn [fst snd]. lia. }
  split.
  - apply (int_find_available_time_exact p machine d (work_done p so)); try done;
      unfold INT_MIN; lia.
  - intros t Ht.
    pose proof (find_available_time_within p machine d _ _ t Hw Hes Ht) as Htb.
    destruct (find_loop_spec _ _ _ _ _ _ Ht) as (Hle & _).
    unfold Int32.add. apply wrap_in_int. unfold in_int, INT_MIN. lia.
Qed.

Section int_sequential.
Import Sequential.

Lemma int_schedule_step_exact st job :
  seq_inv st -> bound_inv (problem st) (scheduled_ops st) (earliest_starts st) ->
  total_work (problem st) <= INT_MAX ->
  0 <= job < num_jobs (problem st) -> eligible st job ->
  Int32.schedule_step st job = schedule_step st job.
Proof.
  intros [Hinv _] Hb Hwork Hjob Hel. unfold Int32.schedule_step, schedule_step.
  destruct (commit_within _ _ _ job Hinv Hb Hwork Hjob Hel) as [-> Hadd].
  destruct (find_available_time _ _ _ _) as [t|]; [|done].
  cbn [mbind option_bind]. by rewrite (Hadd t).
Qed.

(** On a valid problem with a total work within the range of [int], the
    heads of the loop are those of the run with the sums of [Z]. *)
Lemma int_reachable_exact p st :
  valid_problem p -> total_work p <= INT_MAX -> int_reachable p st -> reachable p st.
Proof.
  intros Hv Hwork Hr. induction Hr as [|st st' Hr IH Hlt Hsel Hstep]; [constructor|].
  apply (reach_step p st); try done.
  pose proof (reachable_inv p st Hv IH) as Hinv.
  destruct (reachable_bound p st Hv IH) as (Hb & Hw & _).
  pose proof (select_job_spec st) as Hspec.
  destruct (select_job st) as [ej et]. simpl in *.
  destruct Hspec as [(-> & _)|(Hrange & Hel & _)]; [done|].
  rewrite <- int_schedule_step_exact; try done. by rewrite Hw.
Qed.

Lemma int_schedule_loop_exact p fuel st :
  valid_problem p -> total_work p <= INT_MAX -> reachable p st ->
  Int32.schedule_loop fuel st = schedule_loop fuel st.
Proof.
  intros Hv Hwork. revert st. induction fuel as [|fuel IH]; intros st Hr; simpl; [done|].
  destruct (Z.ltb_spec (scheduled_count st) (total_ops (problem st))) as [Hlt|]; [|done].
  destruct (Z.eqb_spec (select_job st).1 (-1)) as [|Hsel]; [done|].
  pose proof (reachable_inv p st Hv Hr) as Hinv.
  destruct (reachable_bound p st Hv Hr) as (Hb & Hw & _).
  pose proof (select_job_spec st) as Hspec.
  destruct (select_job st) as [ej et] eqn:Hsj. simpl in *.
  destruct Hspec as [(-> & _)|(Hrange & Hel & _)]; [done|].
  rewrite int_schedule_step_exact; try done; [|by rewrite Hw].
  destruct (schedule_step st ej) as [st1|] eqn:Hstep; [|done].
  cbn [mbind option_bind]. apply IH. apply (reach_step p st); try done; by rewrite Hsj.
Qed.

(** The run with the machine's sums is the run with the sums of [Z]. *)
Lemma int_schedule_jobs_sequential_exact p :
  valid_problem p -> total_work p <= INT_MAX ->
  Int32.schedule_jobs_sequential p = schedule_jobs_sequential p.
Proof.
  intros Hv Hwork. apply (int_schedule_loop_exact p); try done. constructor.
Qed.
End int_sequential.

(** ** The sequential loop, whatever its sums *)

Section int_counting.
Import Sequential.

Lemma count_inv_init p : well_formed p -> count_inv (init p).
Proof.
  intros Hwf. split; cbn [init problem scheduled_ops scheduled_count].
  - done.
  - by rewrite length_replicate.
  - intros job Hj. unfold aget. rewrite list_lookup_total_alt, lookup_replicate_2.
    + simpl. destruct Hwf. lia.
    + destruct Hwf. unfold MAX_JOBS in *. lia.
  - symmetry. apply scheduled_total_init. apply Hwf.
Qed.

(** One pass of the loop body on an eligible job returns and counts one
    operation more. *)
Lemma int_schedule_step_count st job :
  count_inv st -> 0 <= job < num_jobs (problem st) -> eligible st job ->
  exists st', Int32.schedule_step st job = Some st' /\ count_inv st'
    /\ scheduled_count st' = scheduled_count st + 1
    /\ num_jobs (problem st') = num_jobs (problem st)
    /\ num_operations (problem st') = num_operations (problem st).
Proof.
  intros [Hwf Hlen Hso Hcount] Hjob Hel. unfold eligible in Hel. unfold Int32.schedule_step.
  destruct (int_find_available_time_returns (problem st)
              (Op.machine (job_op (problem st) job (scheduled_ops st).[job]))
              (Op.duration (job_op (problem st) job (scheduled_ops st).[job]))
              (earliest_starts st).[job]) as [t Ht].
  rewrite Ht. cbn [mbind option_bind]. eexists. split; [done|].
  assert (HjM : (Z.to_nat job < length (scheduled_ops st))%nat).
  { rewrite Hlen. destruct Hwf. lia. }
  split; [split|]; cbn [problem scheduled_ops scheduled_count].
  - apply well_formed_set; [done | lia].
  - by rewrite length_aset.
  - intros j Hj. change (num_jobs (set_start_time _ _ _ _)) with (num_jobs (problem st)) in Hj.
    change (num_operations (set_start_time _ _ _ _)) with (num_operations (problem st)).
    destruct (decide (job = j)) as [<-|Hne].
    + rewrite aget_aset_same by done. specialize (Hso job Hjob). lia.
    + rewrite aget_aset_other by lia. by apply Hso.
  - change (num_jobs (set_start_time _ _ _ _)) with (num_jobs (problem st)).
    rewrite scheduled_total_incr; [lia | | done]. rewrite Hlen. destruct Hwf. lia.
  - done.
Qed.

Lemma int_reachable_count p st : well_formed p -> int_reachable p st -> count_inv st.
Proof.
  intros Hwf Hr. induction Hr as [|st st' Hr IH Hlt Hsel Hstep]; [by apply count_inv_init|].
  pose proof (select_job_spec st) as Hspec.
  destruct (select_job st) as [ej et]. simpl in *.
  destruct Hspec as [(-> & _)|(Hrange & Hel & _)]; [done|].
  destruct (int_schedule_step_count st ej IH Hrange Hel) as (st1 & Hstep1 & Hinv1 & _).
  congruence.
Qed.

(** Below the sentinel the selection scan finds a job. *)
Lemma int_scan_takes_a_job st :
  count_inv st ->
  scheduled_count st < total_ops (problem st) ->
  (forall job, 0 <= job < num_jobs (problem st) -> eligible st job ->
     (earliest_starts st).[job] < 999999) ->
  fst (select_job st) <> -1.
Proof.
  intros [Hwf Hlen Hso Hcount] Hlt Hbound.
  destruct (scheduled_total_pending (scheduled_ops st) (num_jobs (problem st))
              (num_operations (problem st))) as (job & Hj & Hjob).
  { apply Hwf. }
  { done. }
  { rewrite <- Hcount. exact Hlt. }
  pose proof (select_job_spec st) as Hsel.
  destruct (select_job st) as [ej et]. simpl.
  destruct Hsel as [(-> & Hnone)|(Hrange & _)]; [|lia].
  specialize (Hnone job Hj Hjob). specialize (Hbound job Hj Hjob). lia.
Qed.

(** The loop returns with the fuel [total_ops - scheduled_count]; it ends
    with everything counted or by the [break]. *)
Lemma int_schedule_loop_returns fuel st :
  count_inv st -> total_ops (problem st) - scheduled_count st <= Z.of_nat fuel ->
  exists st', Int32.schedule_loop fuel st = Some st' /\ count_inv st'
    /\ (completed st' \/ stopped_early st').
Proof.
  revert st. induction fuel as [|fuel IH]; intros st Hinv Hfuel.
  - simpl. pose proof (scheduled_total_le _ _ _ (proj1 (wf_jobs _ (ci_wf _ Hinv))) (ci_so _ Hinv)) as Hle.
    pose proof (ci_count _ Hinv) as Hc.
    destruct (Z.ltb_spec (scheduled_count st) (total_ops (problem st))); [lia|].
    exists st. split_and!; try done. left. unfold completed, total_ops in *. lia.
  - simpl. destruct (Z.ltb_spec (scheduled_count st) (total_ops (problem st))) as [Hlt|Hge].
    + pose proof (select_job_spec st) as Hsel.
      destruct (select_job st) as [ej et] eqn:Hsj. simpl.
      destruct Hsel as [(-> & Hnone)|(Hr & He & _)].
      * simpl. exists st. split_and!; try done. right.
        split; [done|]. by rewrite Hsj.
      * destruct (Z.eqb_spec ej (-1)) as [->|_]; [lia|].
        destruct (int_schedule_step_count st ej Hinv Hr He)
          as (st1 & Hstep & Hinv1 & Hc1 & Hj1 & Ho1).
        rewrite Hstep. simpl.
        destruct (IH st1 Hinv1) as (st' & Hloop & Hinv' & Hend).
        { unfold total_ops in *. rewrite Hj1, Ho1. lia. }
        exists st'. by split_and!.
    + pose proof (scheduled_total_le _ _ _ (proj1 (wf_jobs _ (ci_wf _ Hinv))) (ci_so _ Hinv)) as Hle.
      pose proof (ci_count _ Hinv) as Hc.
      exists st. split_and!; try done. left. unfold completed, total_ops in *. lia.
Qed.

(** The state in which the loop is left is a state at the head of the loop. *)
Lemma int_schedule_loop_reachable p fuel st st' :
  int_reachable p st -> Int32.schedule_loop fuel st = Some st' -> int_reachable p st'.
Proof.
  revert st. induction fuel as [|fuel IH]; intros st Hr; simpl.
  - destruct (Z.ltb_spec (scheduled_count st) (total_ops (problem st))); [done|].
    by intros [= <-].
  - destruct (Z.ltb_spec (scheduled_count st) (total_ops (problem st))) as [Hlt|];
      [|by intros [= <-]].
    destruct (Z.eqb_spec (select_job st).1 (-1)) as [|Hsel]; [by intros [= <-]|].
    destruct (Int32.schedule_step st (select_job st).1) as [st1|] eqn:Hstep; [|done].
    cbn [mbind option_bind]. apply IH. by apply (int_reach_step p st).
Qed.

(** If the bound holds at every head of the loop, the loop is not left by
    the [break]. *)
Lemma int_run_completes_below_sentinel p :
  well_formed p ->
  (forall st job, int_reachable p st ->
     0 <= job < num_jobs (problem st) -> eligible st job ->
     (earliest_starts st).[job] < 999999) ->
  exists st, Int32.schedule_jobs_sequential p = Some st
    /\ int_reachable p st /\ completed st /\ ~ stopped_early st.
Proof.
  intros Hwf Hbound.
  destruct (int_schedule_loop_returns (Z.to_nat (total_ops p)) (init p))
    as (st & Hrun & Hinv & Hend).
  { by apply count_inv_init. }
  { cbn [init problem scheduled_count]. destruct Hwf. unfold total_ops. lia. }
  exists st. split; [done|].
  assert (Hr : int_reachable p st).
  { eapply (int_schedule_loop_reachable p _ (init p)); [constructor | exact Hrun]. }
  split; [done|].
  assert (Hno : ~ stopped_early st).
  { intros [Hlt Hsel]. apply (int_scan_takes_a_job st Hinv Hlt); [|done].
    intros job Hj Hjob. by apply (Hbound st). }
  split; [|done]. by destruct Hend.
Qed.
End int_counting.

(** C10: the selection scan compares against the sentinel 999999 with a
    strict less-than.  In the run on a problem that fits the arrays, with
    the sums as the machine computes them, at every head of the loop where
    operations remain and every job with operations left has its earliest
    start below 999999, the scan finds a job; so if that bound holds
    throughout the run, the run returns, the [break] is never taken and the
    loop is left with every operation counted as scheduled.  The bound is
    needed: on a valid problem whose first operation ends at 999999 the scan
    finds no job while an operation remains, and the loop is left early. *)
Theorem sentinel_bound_is_a_precondition :
  (forall p st,
     well_formed p -> int_reachable p st ->
     Sequential.scheduled_count st < Sequential.total_ops (Sequential.problem st) ->
     (forall job, 0 <= job < num_jobs (Sequential.problem st) -> eligible st job ->
        (Sequential.earliest_starts st).[job] < 999999) ->
     fst (Sequential.select_job st) <> -1)
  /\ (forall p,
        well_formed p ->
        (forall st job, int_reachable p st ->
           0 <= job < num_jobs (Sequential.problem st) -> eligible st job ->
           (Sequential.earliest_starts st).[job] < 999999) ->
        exists st, Int32.schedule_jobs_sequential p = Some st
          /\ int_reachable p st /\ completed st /\ ~ stopped_early st)
  /\ (valid_problem sentinel_problem
      /\ exists st, Int32.schedule_jobs_sequential sentinel_problem = Some st
           /\ int_reachable sentinel_problem st
           /\ Sequential.scheduled_count st < Sequential.total_ops (Sequential.problem st)
           /\ fst (Sequential.select_job st) = -1
           /\ (Sequential.earliest_starts st).[0] = 999999).
Proof.
  split_and!.
  - intros p st Hwf Hr. apply int_scan_takes_a_job. by apply (int_reachable_count p).
  - apply int_run_completes_below_sentinel.
  - apply sentinel_problem_valid.
  - destruct (Int32.schedule_jobs_sequential sentinel_problem) as [st|] eqn:Hrun;
      [|by vm_compute in Hrun].
    exists st. split; [done|]. split.
    { eapply (int_schedule_loop_reachable _ _ (Sequential.init sentinel_problem));
        [constructor | exact Hrun]. }
    vm_compute in Hrun. injection Hrun as <-. vm_compute. split_and!; try done.
Qed.

Lemma sentinel_bound_is_a_precondition_witness :
  fst (Sequential.select_job (Sequential.init example_problem)) <> -1
  /\ exists st, Int32.schedule_jobs_sequential example_problem = Some st
       /\ int_reachable example_problem st /\ completed st /\ ~ stopped_early st.
Proof.
  destruct sentinel_bound_is_a_precondition as (Hfinds & Hruns & _). split.
  - apply (Hfinds example_problem).
    + apply vp_wf, check_valid_sound. reflexivity.
    + constructor.
    + vm_compute. reflexivity.
    + intros job Hj _. simpl in Hj.
      assert (job = 0 \/ job = 1) as [-> | ->] by lia; vm_compute; reflexivity.
  - apply Hruns.
    + apply vp_wf, check_valid_sound. reflexivity.
    + intros st job Hr. apply (below_sentinel_throughout example_problem).
      * apply check_valid_sound. reflexivity.
      * vm_compute. reflexivity.
      * apply int_reachable_exact; [| |exact Hr].
        -- apply check_valid_sound. reflexivity.
        -- vm_compute. intros H. discriminate H.
Defined.

(** ** The coordinator within the range of [int] *)

Section int_parallel.
Import Parallel.
Variable num_threads : Z.












End int_parallel.

(** ** Where the coordinator declares the deadlock *)

Section deadlock.
Import Parallel.
Variables (teams : Z -> list Z) (num_threads : Z) (p : JobShopProblem).

End deadlock.

(** ** The claim about the deadlock fallback *)



